(** * A shallow embedding of Luau's executable code allocator

    Source: [CodeGen/src/CodeAllocator.cpp].  The allocator reserves
    page-aligned blocks of virtual memory, bump-allocates inside the current
    block, optionally asks a client hook for per-block unwind information and
    releases everything in its destructor.

    Conventions of the embedding:
    - [size_t] and pointers are 64-bit unsigned machine words (the code
      generator targets 64-bit processors only), represented as [Z] with the
      wrap-around written out (module [SizeT]); the null pointer is [0];
    - the C++ object is the record [CodeAllocator]; member functions are
      computations in a small state/trace/abort monad [M];
    - every call that leaves the allocator (operating system primitives,
      [memcpy] into a block, the client's unwind callbacks) is recorded as an
      [Event]; what the outside world answers is an input of the model
      ([Env]);
    - a [memcpy] is recorded with its destination, source and length and the
      computation goes on; the real copy returns only when both ranges are
      accessible, so a theorem that concludes that [allocate] returns assumes
      sizes that do not overflow ([sane_request]), for which the destination
      lies in the current block;
    - [LUAU_ASSERT] aborts the computation when assertions are compiled in and
      does nothing otherwise. *)

From Stdlib Require Import ZArith List Bool Lia.
From Stdlib Require Import Strings.Byte.
Import ListNotations.
Open Scope Z_scope.

(** ** Machine words *)

Module SizeT.

Definition bits : Z := 64.
Definition modulus : Z := 2 ^ bits.

Definition wrap (x : Z) : Z := x mod modulus.

Definition add (a b : Z) : Z := wrap (a + b).
Definition sub (a b : Z) : Z := wrap (a - b).
Definition mul (a b : Z) : Z := wrap (a * b).
Definition lnot (a : Z) : Z := wrap (Z.lnot a).
Definition land (a b : Z) : Z := Z.land a b.

Definition in_range (x : Z) : Prop := 0 <= x < modulus.

End SizeT.

(** ** Platform constants

    [kPageSize] is 4096 on Windows and [sysconf(_SC_PAGESIZE)] elsewhere.
    [kMaxUnwindDataSize] is a constant of the class declared in
    [Luau/CodeAllocator.h] and [LUAU_ASSERT] is a macro of [Luau/Common.h];
    neither header is part of the sources at hand, so the constant and the
    build mode of the macro are parameters. *)

Record Platform : Type := {
  kPageSize : Z;
  kMaxUnwindDataSize : Z;
  assertsEnabled : bool
}.

(** ** The allocator object

    The members of the class as [CodeAllocator.cpp] uses them. *)

Record CodeAllocator : Type := {
  blockSize : Z;
  maxTotalSize : Z;
  blocks : list Z;
  unwindInfos : list Z;
  blockPos : Z;
  blockEnd : Z;
  context : Z;
  (** the two callbacks are function pointers; the model keeps whether each is
      set, their answers are part of [Env] *)
  createBlockUnwindInfo : bool;
  destroyBlockUnwindInfo : bool
}.

Definition set_cursor (self : CodeAllocator) (pos end_ : Z) : CodeAllocator :=
  {| blockSize := blockSize self; maxTotalSize := maxTotalSize self;
     blocks := blocks self; unwindInfos := unwindInfos self;
     blockPos := pos; blockEnd := end_;
     context := context self;
     createBlockUnwindInfo := createBlockUnwindInfo self;
     destroyBlockUnwindInfo := destroyBlockUnwindInfo self |}.

Definition push_block (self : CodeAllocator) (block : Z) : CodeAllocator :=
  {| blockSize := blockSize self; maxTotalSize := maxTotalSize self;
     blocks := blocks self ++ [block]; unwindInfos := unwindInfos self;
     blockPos := blockPos self; blockEnd := blockEnd self;
     context := context self;
     createBlockUnwindInfo := createBlockUnwindInfo self;
     destroyBlockUnwindInfo := destroyBlockUnwindInfo self |}.

Definition push_unwindInfo (self : CodeAllocator) (info : Z) : CodeAllocator :=
  {| blockSize := blockSize self; maxTotalSize := maxTotalSize self;
     blocks := blocks self; unwindInfos := unwindInfos self ++ [info];
     blockPos := blockPos self; blockEnd := blockEnd self;
     context := context self;
     createBlockUnwindInfo := createBlockUnwindInfo self;
     destroyBlockUnwindInfo := destroyBlockUnwindInfo self |}.

(** ** Calls that leave the allocator *)

Inductive Event : Type :=
| EvAllocatePages (size ret : Z)
| EvFreePages (mem size : Z)
| EvMakePagesExecutable (mem size : Z)
| EvFlushInstructionCache (mem size : Z)
| EvMemcpy (dst : Z) (src : list byte) (n : Z)
| EvCreateBlockUnwindInfo (ctx block size ret written : Z)
| EvDestroyBlockUnwindInfo (ctx info : Z).

(** What the outside world answers during one call of [allocate]: the value
    [mmap]/[VirtualAlloc] returns when asked for a block, as returned
    ([allocatePages] passes it on unchanged), whether the protection change
    and the cache flush succeed, and the handle the create callback returns
    together with the value it leaves in its size parameter. *)

Record Env : Type := {
  os_pages : Z;
  os_protect_ok : bool;
  os_flush_ok : bool;
  hook_info : Z;
  hook_size : Z
}.

(** ** The monad of member functions *)

Inductive Outcome (A : Type) : Type :=
| Returned (a : A) (self : CodeAllocator) (tr : list Event)
| Aborted (tr : list Event).

Arguments Returned {A} a self tr.
Arguments Aborted {A} tr.

Definition M (A : Type) : Type := CodeAllocator -> Outcome A.

Definition ret {A} (a : A) : M A := fun self => Returned a self [].

Definition bind {A B} (m : M A) (f : A -> M B) : M B :=
  fun self =>
    match m self with
    | Returned a self1 tr1 =>
        match f a self1 with
        | Returned b self2 tr2 => Returned b self2 (tr1 ++ tr2)
        | Aborted tr2 => Aborted (tr1 ++ tr2)
        end
    | Aborted tr1 => Aborted tr1
    end.

Definition this : M CodeAllocator := fun self => Returned self self [].
Definition update (f : CodeAllocator -> CodeAllocator) : M unit :=
  fun self => Returned tt (f self) [].
Definition emit (e : Event) : M unit := fun self => Returned tt self [e].
Definition abort {A} : M A := fun _ => Aborted [].

Notation "x <- m ;; k" := (bind m (fun x => k))
  (at level 61, m at next level, right associativity).
Notation "m ;;; k" := (bind m (fun _ => k))
  (at level 61, right associativity).

Fixpoint for_each {A} (xs : list A) (body : A -> M unit) : M unit :=
  match xs with
  | [] => ret tt
  | x :: rest => body x ;;; for_each rest body
  end.

(** ** The code *)

Section Code.

Variable pf : Platform.

Definition LUAU_ASSERT (cond : bool) : M unit :=
  if assertsEnabled pf && negb cond then abort else ret tt.

(** [(size + kPageSize - 1) & ~(kPageSize - 1)] *)
Definition alignToPageSize (size : Z) : Z :=
  SizeT.land (SizeT.sub (SizeT.add size (kPageSize pf)) 1)
             (SizeT.lnot (SizeT.sub (kPageSize pf) 1)).

(** [(n + 15) & ~15] *)
Definition roundUp16 (n : Z) : Z :=
  SizeT.land (SizeT.add n 15) (SizeT.lnot 15).

(** *** Platform shims

    Each shim makes one system call. [allocatePages] returns what the system
    call returned: null when [VirtualAlloc] fails, and the value of [mmap] as
    it is in the other variant (an [mmap] that fails returns [MAP_FAILED], the
    all-ones pointer, which is not null). The other shims assert that their
    system call succeeded. [EvAllocatePages] records the size handed to the
    system call; [EvFreePages] records the arguments of the shim itself, of
    which the one variant hands [alignToPageSize size] to [munmap] and the
    other no size to [VirtualFree]. *)

Definition allocatePages (env : Env) (size : Z) : M Z :=
  emit (EvAllocatePages (alignToPageSize size) (os_pages env)) ;;;
  ret (os_pages env).

Definition freePages (free_ok : Z -> bool) (mem size : Z) : M unit :=
  emit (EvFreePages mem size) ;;;
  if free_ok mem then ret tt else LUAU_ASSERT false.

Definition makePagesExecutable (env : Env) (mem size : Z) : M unit :=
  LUAU_ASSERT (SizeT.land mem (SizeT.sub (kPageSize pf) 1) =? 0) ;;;
  LUAU_ASSERT (size =? alignToPageSize size) ;;;
  emit (EvMakePagesExecutable mem size) ;;;
  if os_protect_ok env then ret tt else LUAU_ASSERT false.

Definition flushInstructionCache (env : Env) (mem size : Z) : M unit :=
  emit (EvFlushInstructionCache mem size) ;;;
  if os_flush_ok env then ret tt else LUAU_ASSERT false.

(** *** [CodeAllocator::CodeAllocator] *)

(** Modelled from the spec: the class declaration in [Luau/CodeAllocator.h],
    with the default initialisers of the members the constructor does not set,
    is not among the sources. By the data model of the specification the
    cursor [blockPos] and its sentinel [blockEnd] start out null, the two
    sequences are empty and the callback pair is unset; the constructor itself
    sets [blockSize] and [maxTotalSize]. *)
Definition fresh (blockSize_ maxTotalSize_ : Z) : CodeAllocator :=
  {| blockSize := blockSize_; maxTotalSize := maxTotalSize_;
     blocks := []; unwindInfos := [];
     blockPos := 0; blockEnd := 0;
     context := 0;
     createBlockUnwindInfo := false;
     destroyBlockUnwindInfo := false |}.

Definition constructor (blockSize_ maxTotalSize_ : Z) : Outcome unit :=
  (LUAU_ASSERT (blockSize_ >? kMaxUnwindDataSize pf) ;;;
   LUAU_ASSERT (maxTotalSize_ >=? blockSize_))
    (fresh blockSize_ maxTotalSize_).

(** The callbacks and the context are public members the client sets after
    construction. *)
Definition with_hooks (self : CodeAllocator) (ctx : Z) (create destroy : bool)
  : CodeAllocator :=
  {| blockSize := blockSize self; maxTotalSize := maxTotalSize self;
     blocks := blocks self; unwindInfos := unwindInfos self;
     blockPos := blockPos self; blockEnd := blockEnd self;
     context := ctx;
     createBlockUnwindInfo := create;
     destroyBlockUnwindInfo := destroy |}.

(** *** [CodeAllocator::~CodeAllocator] *)

Definition destructor (free_ok : Z -> bool) : M unit :=
  self <- this ;;
  (if destroyBlockUnwindInfo self
   then for_each (unwindInfos self)
          (fun unwindInfo => emit (EvDestroyBlockUnwindInfo (context self) unwindInfo))
   else ret tt) ;;;
  for_each (blocks self) (fun block => freePages free_ok block (blockSize self)).

(** *** [CodeAllocator::allocateNewBlock]

    The reference parameter [unwindInfoSize] is passed in and its final
    value is returned next to the boolean result. *)

Definition allocateNewBlock (env : Env) (unwindInfoSize : Z) : M (bool * Z) :=
  self <- this ;;
  if SizeT.mul (SizeT.add (Z.of_nat (length (blocks self))) 1) (blockSize self)
       >? maxTotalSize self
  then ret (false, unwindInfoSize)
  else
    block <- allocatePages env (blockSize self) ;;
    if block =? 0 then ret (false, unwindInfoSize)
    else
      update (fun s => set_cursor s block (SizeT.add block (blockSize self))) ;;;
      update (fun s => push_block s block) ;;;
      if createBlockUnwindInfo self then
        emit (EvCreateBlockUnwindInfo (context self) block (blockSize self)
                (hook_info env) (hook_size env)) ;;;
        let unwindInfo := hook_info env in
        let unwindInfoSize := roundUp16 (hook_size env) in
        LUAU_ASSERT (unwindInfoSize <=? kMaxUnwindDataSize pf) ;;;
        if unwindInfo =? 0 then ret (false, unwindInfoSize)
        else
          update (fun s => push_unwindInfo s unwindInfo) ;;;
          ret (true, unwindInfoSize)
      else ret (true, unwindInfoSize).

(** *** [CodeAllocator::allocate]

    The three reference parameters [result], [resultSize] and
    [resultCodeStart] are written only on the path that returns [true]; the
    model returns [Some (result, resultSize, resultCodeStart)] for [true]
    and [None] for [false]. *)

Definition alignedDataSizeOf (dataSize : Z) : Z := roundUp16 dataSize.

Definition totalSizeOf (dataSize codeSize : Z) : Z :=
  SizeT.add (alignedDataSizeOf dataSize) codeSize.

Definition allocate (env : Env)
    (data : list byte) (dataSize : Z) (code : list byte) (codeSize : Z)
  : M (option (Z * Z * Z)) :=
  let alignedDataSize := alignedDataSizeOf dataSize in
  let totalSize := SizeT.add alignedDataSize codeSize in
  self <- this ;;
  if totalSize >? SizeT.sub (blockSize self) (kMaxUnwindDataSize pf)
  then ret None
  else
    opened <-
      (if totalSize >? SizeT.sub (blockEnd self) (blockPos self)
       then
         r <- allocateNewBlock env 0 ;;
         if fst r then
           self <- this ;;
           LUAU_ASSERT (totalSize <=? SizeT.sub (blockEnd self) (blockPos self)) ;;;
           ret (Some (snd r))
         else ret None
       else ret (Some 0)) ;;
    match opened with
    | None => ret None
    | Some unwindInfoSize =>
        self <- this ;;
        LUAU_ASSERT (SizeT.land (blockPos self) (SizeT.sub (kPageSize pf) 1) =? 0) ;;;
        let dataOffset := SizeT.sub (SizeT.add unwindInfoSize alignedDataSize) dataSize in
        let codeOffset := SizeT.add unwindInfoSize alignedDataSize in
        (if dataSize =? 0 then ret tt
         else emit (EvMemcpy (SizeT.add (blockPos self) dataOffset) data dataSize)) ;;;
        (if codeSize =? 0 then ret tt
         else emit (EvMemcpy (SizeT.add (blockPos self) codeOffset) code codeSize)) ;;;
        let pageSize := alignToPageSize (SizeT.add unwindInfoSize totalSize) in
        makePagesExecutable env (blockPos self) pageSize ;;;
        flushInstructionCache env (SizeT.add (blockPos self) codeOffset) codeSize ;;;
        let result := SizeT.add (blockPos self) unwindInfoSize in
        let resultSize := totalSize in
        let resultCodeStart := SizeT.add (blockPos self) codeOffset in
        update (fun s => set_cursor s (SizeT.add (blockPos self) pageSize) (blockEnd s)) ;;;
        self' <- this ;;
        LUAU_ASSERT (SizeT.land (blockPos self') (SizeT.sub (kPageSize pf) 1) =? 0) ;;;
        ret (Some (result, resultSize, resultCodeStart))
    end.

End Code.

(** ** Vocabulary for the statements

    Names for the cases of one call; each is read off the code above. *)

Section Vocabulary.

Variable pf : Platform.

(** The allocator after a block at [block] became the current block. *)
Definition on_new_block (self : CodeAllocator) (block : Z) : CodeAllocator :=
  push_block (set_cursor self block (SizeT.add block (blockSize self))) block.

Definition cap_reached (self : CodeAllocator) : bool :=
  SizeT.mul (SizeT.add (Z.of_nat (length (blocks self))) 1) (blockSize self)
    >? maxTotalSize self.

Definition pages_request (self : CodeAllocator) (env : Env) : Event :=
  EvAllocatePages (alignToPageSize pf (blockSize self)) (os_pages env).

Definition hook_request (self : CodeAllocator) (env : Env) : Event :=
  EvCreateBlockUnwindInfo (context self) (os_pages env) (blockSize self)
    (hook_info env) (hook_size env).

Inductive NewBlockCase (env : Env) (u : Z) (self : CodeAllocator)
  : bool * Z -> CodeAllocator -> list Event -> Prop :=
| NB_cap :
    cap_reached self = true ->
    NewBlockCase env u self (false, u) self []
| NB_no_pages :
    cap_reached self = false -> os_pages env = 0 ->
    NewBlockCase env u self (false, u) self [pages_request self env]
| NB_plain :
    cap_reached self = false -> os_pages env <> 0 ->
    createBlockUnwindInfo self = false ->
    NewBlockCase env u self (true, u) (on_new_block self (os_pages env))
      [pages_request self env]
| NB_hook_null :
    cap_reached self = false -> os_pages env <> 0 ->
    createBlockUnwindInfo self = true -> hook_info env = 0 ->
    (assertsEnabled pf = true ->
     roundUp16 (hook_size env) <= kMaxUnwindDataSize pf) ->
    NewBlockCase env u self (false, roundUp16 (hook_size env))
      (on_new_block self (os_pages env))
      [pages_request self env; hook_request self env]
| NB_hook :
    cap_reached self = false -> os_pages env <> 0 ->
    createBlockUnwindInfo self = true -> hook_info env <> 0 ->
    (assertsEnabled pf = true ->
     roundUp16 (hook_size env) <= kMaxUnwindDataSize pf) ->
    NewBlockCase env u self (true, roundUp16 (hook_size env))
      (push_unwindInfo (on_new_block self (os_pages env)) (hook_info env))
      [pages_request self env; hook_request self env].

(** *** Layout and publication at the cursor *)

Definition codeOffsetOf (unwindInfoSize dataSize : Z) : Z :=
  SizeT.add unwindInfoSize (alignedDataSizeOf dataSize).

Definition dataOffsetOf (unwindInfoSize dataSize : Z) : Z :=
  SizeT.sub (SizeT.add unwindInfoSize (alignedDataSizeOf dataSize)) dataSize.

Definition pageSizeOf (unwindInfoSize dataSize codeSize : Z) : Z :=
  alignToPageSize pf (SizeT.add unwindInfoSize (totalSizeOf dataSize codeSize)).

Definition copies (pos unwindInfoSize : Z)
    (data : list byte) (dataSize : Z) (code : list byte) (codeSize : Z)
  : list Event :=
  (if dataSize =? 0 then []
   else [EvMemcpy (SizeT.add pos (dataOffsetOf unwindInfoSize dataSize)) data dataSize])
  ++
  (if codeSize =? 0 then []
   else [EvMemcpy (SizeT.add pos (codeOffsetOf unwindInfoSize dataSize)) code codeSize]).

Definition page_mask : Z := SizeT.sub (kPageSize pf) 1.

(** The assertions on the publishing path, and the two system calls whose
    failure is asserted. *)
Definition publish_checks (env : Env) (pos pageSize : Z) : bool :=
  (SizeT.land pos page_mask =? 0)
  && (pageSize =? alignToPageSize pf pageSize)
  && os_protect_ok env
  && os_flush_ok env
  && (SizeT.land (SizeT.add pos pageSize) page_mask =? 0).

Record Published (env : Env) (self : CodeAllocator) (unwindInfoSize : Z)
    (data : list byte) (dataSize : Z) (code : list byte) (codeSize : Z)
    (r : option (Z * Z * Z)) (self' : CodeAllocator) (tr : list Event) : Prop := {
  pub_checks :
    assertsEnabled pf = true ->
    publish_checks env (blockPos self)
      (pageSizeOf unwindInfoSize dataSize codeSize) = true;
  pub_result :
    r = Some (SizeT.add (blockPos self) unwindInfoSize,
              totalSizeOf dataSize codeSize,
              SizeT.add (blockPos self) (codeOffsetOf unwindInfoSize dataSize));
  pub_state :
    self' = set_cursor self
              (SizeT.add (blockPos self) (pageSizeOf unwindInfoSize dataSize codeSize))
              (blockEnd self);
  pub_trace :
    tr = copies (blockPos self) unwindInfoSize data dataSize code codeSize
         ++ [EvMakePagesExecutable (blockPos self)
               (pageSizeOf unwindInfoSize dataSize codeSize);
             EvFlushInstructionCache
               (SizeT.add (blockPos self) (codeOffsetOf unwindInfoSize dataSize))
               codeSize]
}.

Definition oversize (self : CodeAllocator) (dataSize codeSize : Z) : bool :=
  totalSizeOf dataSize codeSize
    >? SizeT.sub (blockSize self) (kMaxUnwindDataSize pf).

Definition remaining (self : CodeAllocator) : Z :=
  SizeT.sub (blockEnd self) (blockPos self).

Inductive AllocateCase (env : Env) (data : list byte) (dataSize : Z)
    (code : list byte) (codeSize : Z) (self : CodeAllocator)
  : option (Z * Z * Z) -> CodeAllocator -> list Event -> Prop :=
| AC_oversize :
    oversize self dataSize codeSize = true ->
    AllocateCase env data dataSize code codeSize self None self []
| AC_same_block r self' tr :
    oversize self dataSize codeSize = false ->
    totalSizeOf dataSize codeSize <= remaining self ->
    Published env self 0 data dataSize code codeSize r self' tr ->
    AllocateCase env data dataSize code codeSize self r self' tr
| AC_no_block u self1 tr1 :
    oversize self dataSize codeSize = false ->
    totalSizeOf dataSize codeSize > remaining self ->
    NewBlockCase env 0 self (false, u) self1 tr1 ->
    AllocateCase env data dataSize code codeSize self None self1 tr1
| AC_new_block u self1 tr1 r self' tr2 :
    oversize self dataSize codeSize = false ->
    totalSizeOf dataSize codeSize > remaining self ->
    NewBlockCase env 0 self (true, u) self1 tr1 ->
    (assertsEnabled pf = true ->
     totalSizeOf dataSize codeSize <= remaining self1) ->
    Published env self1 u data dataSize code codeSize r self' tr2 ->
    AllocateCase env data dataSize code codeSize self r self' (tr1 ++ tr2).


(** *** Sequences of calls *)

Record Call : Type := {
  call_env : Env;
  call_data : list byte;
  call_dataSize : Z;
  call_code : list byte;
  call_codeSize : Z
}.

Definition call (c : Call) : M (option (Z * Z * Z)) :=
  allocate pf (call_env c) (call_data c) (call_dataSize c)
    (call_code c) (call_codeSize c).

(** The calls of a list, one after the other, with the result of each. *)
Fixpoint allocate_all (calls : list Call) : M (list (option (Z * Z * Z))) :=
  match calls with
  | [] => ret []
  | c :: rest =>
      r <- call c ;;
      rs <- allocate_all rest ;;
      ret (r :: rs)
  end.

(** An allocator on which [allocate] has not been called yet. *)
Definition idle (self : CodeAllocator) : Prop :=
  blocks self = [] /\ unwindInfos self = [] /\
  blockPos self = 0 /\ blockEnd self = 0.

(** [Run ok init self hist]: [self] is reached from [init] by calls of
    [allocate] that returned, each made in a state and with answers of the
    outside world that satisfy [ok]; [hist] lists the triples of the calls
    that returned [true], newest first. *)
Inductive Run (ok : CodeAllocator -> Call -> Prop) (init : CodeAllocator)
  : CodeAllocator -> list (Z * Z * Z) -> Prop :=
| Run_start : Run ok init init []
| Run_failed self hist c self' tr :
    Run ok init self hist -> ok self c ->
    call c self = Returned None self' tr ->
    Run ok init self' hist
| Run_allocated self hist c t self' tr :
    Run ok init self hist -> ok self c ->
    call c self = Returned (Some t) self' tr ->
    Run ok init self' (t :: hist).

Definition any_call : CodeAllocator -> Call -> Prop := fun _ _ => True.

Definition trace_of {A} (o : Outcome A) : list Event :=
  match o with
  | Returned _ _ tr => tr
  | Aborted tr => tr
  end.

End Vocabulary.

(** *** What is observed of a call, a run or a teardown *)

Definition results_of {A} (o : Outcome A) : option A :=
  match o with Returned a _ _ => Some a | Aborted _ => None end.

Definition state_of {A} (o : Outcome A) : option CodeAllocator :=
  match o with Returned _ self _ => Some self | Aborted _ => None end.

Definition is_memcpy (e : Event) : bool :=
  match e with EvMemcpy _ _ _ => true | _ => false end.

Definition is_destroy (e : Event) : bool :=
  match e with EvDestroyBlockUnwindInfo _ _ => true | _ => false end.

Definition is_free (e : Event) : bool :=
  match e with EvFreePages _ _ => true | _ => false end.

(** What the destructor asks of the outside world. *)

Definition destroy_calls (self : CodeAllocator) : list Event :=
  map (EvDestroyBlockUnwindInfo (context self)) (unwindInfos self).

Definition free_calls (self : CodeAllocator) (released : list Z) : list Event :=
  map (fun block => EvFreePages block (blockSize self)) released.

(** [blocks.size()] *)
Definition block_count (self : CodeAllocator) : Z :=
  Z.of_nat (length (blocks self)).

(** A call changes the cursor and the two lists only. *)
Definition same_settings (a b : CodeAllocator) : Prop :=
  blockSize a = blockSize b /\ maxTotalSize a = maxTotalSize b /\
  context a = context b /\
  createBlockUnwindInfo a = createBlockUnwindInfo b /\
  destroyBlockUnwindInfo a = destroyBlockUnwindInfo b.

(** Where a call lays out its request: at the start of the block the
    operating system just returned when the request does not fit the current
    block, at the cursor otherwise. *)
Definition layout_pos (self : CodeAllocator) (env : Env) (dataSize codeSize : Z)
  : Z :=
  if totalSizeOf dataSize codeSize >? remaining self
  then os_pages env else blockPos self.

(** The unwind prelude in front of the request: the rounded size the create
    callback reported when this call opened a block and the callback is set,
    nothing otherwise. *)
Definition layout_unwindInfoSize (self : CodeAllocator) (env : Env)
    (dataSize codeSize : Z) : Z :=
  if (totalSizeOf dataSize codeSize >? remaining self)
     && createBlockUnwindInfo self
  then roundUp16 (hook_size env) else 0.

(** The bytes [result .. result + resultSize) of a returned triple. *)
Definition in_range_of (t : Z * Z * Z) (x : Z) : Prop :=
  fst (fst t) <= x < fst (fst t) + snd (fst t).

Definition ranges_disjoint (t1 t2 : Z * Z * Z) : Prop :=
  forall x, ~ (in_range_of t1 x /\ in_range_of t2 x).

(** [lo .. hi) lies in the block at [b]. *)
Definition inside_block (self : CodeAllocator) (lo hi b : Z) : Prop :=
  In b (blocks self) /\ b <= lo /\ hi <= b + blockSize self.

(** *** Well-formed settings and a well-behaved outside world *)

(** The sizes of the constructor are positive and the cap test
    [(blocks.size() + 1) * blockSize] cannot overflow [size_t]. *)
Definition cap_fits (self : CodeAllocator) : Prop :=
  0 < blockSize self /\ 0 <= maxTotalSize self /\
  maxTotalSize self + blockSize self < SizeT.modulus.

(** The page size is a power of two, blocks are whole pages, and the
    constructor's assertion [blockSize > kMaxUnwindDataSize] holds. *)
Definition settings_ok (pf : Platform) (self : CodeAllocator) : Prop :=
  (exists k, 0 <= k < 64 /\ kPageSize pf = 2 ^ k) /\
  blockSize self mod kPageSize pf = 0 /\
  0 <= kMaxUnwindDataSize pf < blockSize self /\
  blockSize self < SizeT.modulus.

(** The operating system returns page-aligned memory (or null). *)
Definition page_aligned_blocks (pf : Platform) : CodeAllocator -> Call -> Prop :=
  fun _ c => os_pages (call_env c) mod kPageSize pf = 0.

(** What the operating system returns for a new block: page-aligned memory
    inside the address space that overlaps no block handed out before. *)
Definition fresh_block (pf : Platform) (self : CodeAllocator) (b : Z) : Prop :=
  0 < b /\ b + blockSize self < SizeT.modulus /\ b mod kPageSize pf = 0 /\
  forall b', In b' (blocks self) ->
             b + blockSize self <= b' \/ b' + blockSize self <= b.

(** The operating system refuses or returns a fresh block; the create
    callback keeps to its bound; the sizes of the request add up without
    overflow. *)
Definition well_behaved (pf : Platform) : CodeAllocator -> Call -> Prop :=
  fun self c =>
    (os_pages (call_env c) = 0 \/ fresh_block pf self (os_pages (call_env c))) /\
    roundUp16 (hook_size (call_env c)) <= kMaxUnwindDataSize pf /\
    0 <= call_codeSize c /\
    roundUp16 (call_dataSize c) + call_codeSize c < SizeT.modulus.

(** The create callback never returns null. *)
Definition hook_answers : CodeAllocator -> Call -> Prop :=
  fun _ c => hook_info (call_env c) <> 0.

(** With 4 KiB pages: the operating system hands out page-aligned memory
    whenever asked, and the protection change and the cache flush succeed. *)
Definition friendly (env : Env) : Prop :=
  os_pages env <> 0 /\ os_pages env mod 4096 = 0 /\
  os_protect_ok env = true /\ os_flush_ok env = true.

(** *** Invariants *)

(** One unwind information per block when the create callback is set, none
    otherwise. *)
Definition in_step (self : CodeAllocator) : Prop :=
  length (unwindInfos self) =
  if createBlockUnwindInfo self then length (blocks self) else 0%nat.

(** Blocks are apart, the cursor is in one of them on a page boundary (or
    null when there is none), and every returned range of at least one byte
    lies in a block, away from the unused part of the current block and from
    the other returned ranges. *)
Record Inv (pf : Platform) (self : CodeAllocator) (hist : list (Z * Z * Z))
  : Prop := {
  inv_blocks :
    forall b, In b (blocks self) ->
      0 < b /\ b + blockSize self < SizeT.modulus /\ b mod kPageSize pf = 0;
  inv_apart :
    forall b b', In b (blocks self) -> In b' (blocks self) ->
      b = b' \/ b + blockSize self <= b' \/ b' + blockSize self <= b;
  inv_cursor :
    (blocks self = [] /\ blockPos self = 0 /\ blockEnd self = 0) \/
    (exists b, In b (blocks self) /\
               b <= blockPos self <= b + blockSize self /\
               blockEnd self = b + blockSize self /\
               blockPos self mod kPageSize pf = 0);
  inv_hist :
    forall r n c, In (r, n, c) hist ->
      0 <= n /\
      (0 < n ->
       (exists b, inside_block self r (r + n) b) /\
       (r + n <= blockPos self \/ blockEnd self <= r) /\
       r <= c <= r + n);
  inv_disjoint : ForallOrdPairs ranges_disjoint hist
}.

(** The allocator of scenario S4 after [n] calls returned [true]: a block is
    opened for every fourth call and the cursor leaves [(-n) mod 4] pages in
    it. *)
Definition S4_state (n : Z) (self : CodeAllocator) : Prop :=
  blockSize self = 4 * 4096 /\ maxTotalSize self = 16 * 4096 /\
  createBlockUnwindInfo self = false /\
  block_count self = (n + 3) / 4 /\
  remaining self = 4096 * ((- n) mod 4) /\
  SizeT.land (blockPos self) 4095 = 0.

(** ** Concrete scenarios

    The scenarios of the specification: 4 KiB pages, blocks of four pages, at
    most sixteen pages in total, 256 bytes reserved for unwind data. *)

Definition scenario_platform (asserts : bool) : Platform :=
  {| kPageSize := 4096; kMaxUnwindDataSize := 256; assertsEnabled := asserts |}.

Definition scenario_allocator : CodeAllocator :=
  fresh (4 * 4096) (16 * 4096).

Definition hooked_allocator : CodeAllocator :=
  with_hooks scenario_allocator 7 true true.

Definition friendly_env (block : Z) : Env :=
  {| os_pages := block; os_protect_ok := true; os_flush_ok := true;
     hook_info := 0; hook_size := 0 |}.

Definition hook_env (block info size : Z) : Env :=
  {| os_pages := block; os_protect_ok := true; os_flush_ok := true;
     hook_info := info; hook_size := size |}.

(** Scenarios S1 and S2: seventeen bytes of code, then three bytes of data
    and one byte of code, with the first block at address 65536. *)

Definition S1_call : Call :=
  {| call_env := friendly_env 65536;
     call_data := []; call_dataSize := 0;
     call_code := repeat x90 17; call_codeSize := 17 |}.

Definition S2_call : Call :=
  {| call_env := friendly_env 0;
     call_data := [xaa; xaa; xaa]; call_dataSize := 3;
     call_code := [xc3]; call_codeSize := 1 |}.

Definition after_S1 : CodeAllocator :=
  set_cursor (on_new_block scenario_allocator 65536) (65536 + 4096) (65536 + 16384).

Definition after_S2 : CodeAllocator :=
  set_cursor after_S1 (65536 + 2 * 4096) (65536 + 16384).

Definition S2_trace : list Event :=
  [EvMemcpy (65536 + 4096 + 13) [xaa; xaa; xaa] 3;
   EvMemcpy (65536 + 4096 + 16) [xc3] 1;
   EvMakePagesExecutable (65536 + 4096) 4096;
   EvFlushInstructionCache (65536 + 4096 + 16) 1].

(** Scenario S4: calls for one page of code each; the operating system
    offers a block at [65536 * i] to the [i]-th call. *)

Definition page_of_code : list byte := repeat xc3 (64 * 64).

Definition page_call (env : Env) : Call :=
  {| call_env := env;
     call_data := []; call_dataSize := 0;
     call_code := page_of_code; call_codeSize := 4096 |}.

Definition five_calls : list Call :=
  map (fun i => page_call (friendly_env (65536 * i))) [1; 2; 3; 4; 5].

Definition seventeen_envs : list Env :=
  map (fun i => friendly_env (65536 * i))
    [1; 2; 3; 4; 5; 6; 7; 8; 9; 10; 11; 12; 13; 14; 15; 16; 17].

(** A run in which the create callback is refused once: the first call needs
    a block and the callback returns null, the second call fills the block
    that stayed behind, the third call gets a second block with its unwind
    information. *)

Definition refused_once : list Call :=
  [ {| call_env := hook_env 65536 0 40;
       call_data := []; call_dataSize := 0;
       call_code := [x90]; call_codeSize := 1 |};
    {| call_env := hook_env 0 0 0;
       call_data := []; call_dataSize := 0;
       call_code := repeat x90 (126 * 128); call_codeSize := 16128 |};
    {| call_env := hook_env 131072 99 40;
       call_data := []; call_dataSize := 0;
       call_code := [xc3]; call_codeSize := 1 |} ].

(** An allocator at teardown with two blocks and their unwind
    information. *)
Definition torn_down : CodeAllocator :=
  {| blockSize := 4 * 4096; maxTotalSize := 16 * 4096;
     blocks := [65536; 131072]; unwindInfos := [11; 22];
     blockPos := 131072 + 4096; blockEnd := 131072 + 4 * 4096;
     context := 7;
     createBlockUnwindInfo := true; destroyBlockUnwindInfo := true |}.


(** ** Vocabulary for further properties *)

(** [Traced ok init self hist tr]: as [Run], and [tr] lists the calls to the
    outside world the run made, oldest first. *)
Inductive Traced (pf : Platform) (ok : CodeAllocator -> Call -> Prop)
    (init : CodeAllocator)
  : CodeAllocator -> list (Z * Z * Z) -> list Event -> Prop :=
| Traced_start : Traced pf ok init init [] []
| Traced_call self hist tr c r self' tr' :
    Traced pf ok init self hist tr -> ok self c ->
    call pf c self = Returned r self' tr' ->
    Traced pf ok init self'
      (match r with Some t => t :: hist | None => hist end) (tr ++ tr').

(** The blocks the operating system handed out, and the handles the create
    callback returned, as a trace shows them. *)
Definition pages_obtained (tr : list Event) : list Z :=
  flat_map (fun e => match e with
                     | EvAllocatePages _ ret => if ret =? 0 then [] else [ret]
                     | _ => []
                     end) tr.

Definition handles_obtained (tr : list Event) : list Z :=
  flat_map (fun e => match e with
                     | EvCreateBlockUnwindInfo _ _ _ ret _ =>
                         if ret =? 0 then [] else [ret]
                     | _ => []
                     end) tr.

(** The blocks for which the create callback returned a handle, each with
    its handle. *)
Definition created_for (tr : list Event) : list (Z * Z) :=
  flat_map (fun e => match e with
                     | EvCreateBlockUnwindInfo _ block _ ret _ =>
                         if ret =? 0 then [] else [(block, ret)]
                     | _ => []
                     end) tr.

Definition is_request (e : Event) : bool :=
  match e with
  | EvAllocatePages _ _ | EvCreateBlockUnwindInfo _ _ _ _ _ => true
  | _ => false
  end.

(** A request whose sizes are [size_t] values that round and add up without
    overflow, in a well-behaved world. *)
Definition sane_request (pf : Platform) : CodeAllocator -> Call -> Prop :=
  fun self c =>
    well_behaved pf self c /\
    0 <= call_dataSize c /\ call_dataSize c + 15 < SizeT.modulus.

(** The protection change and the cache flush succeed. *)
Definition os_obliges (env : Env) : Prop :=
  os_protect_ok env = true /\ os_flush_ok env = true.

(** The reasons for which [allocate] returns [false]. *)
Definition refusal_reason (pf : Platform) (self : CodeAllocator) (env : Env)
    (dataSize codeSize : Z) : Prop :=
  oversize pf self dataSize codeSize = true \/
  (totalSizeOf dataSize codeSize > remaining self /\
   (cap_reached self = true \/
    os_pages env = 0 \/
    (createBlockUnwindInfo self = true /\ hook_info env = 0))).

(** The returned ranges of at least one byte. *)
Definition nonempty_count (hist : list (Z * Z * Z)) : Z :=
  Z.of_nat (length (filter (fun t => 0 <? snd (fst t)) hist)).

(** [m .. m + sz) lies in a block and outside the unused part of the current
    block. *)
Definition settled (self : CodeAllocator) (m sz : Z) : Prop :=
  (exists b, inside_block self m (m + sz) b) /\
  (m + sz <= blockPos self \/ blockEnd self <= m).

(** No [memcpy] writes a byte after it was in a range passed to
    [makePagesExecutable]. *)
Fixpoint write_xor_execute (tr : list Event) : Prop :=
  match tr with
  | [] => True
  | e :: rest =>
      match e with
      | EvMakePagesExecutable m sz =>
          forall dst src n x,
            In (EvMemcpy dst src n) rest ->
            ~ (m <= x < m + sz /\ dst <= x < dst + n)
      | _ => True
      end /\ write_xor_execute rest
  end.

(** The bytes of the blocks that lie below the cursor or in blocks the cursor
    has left. *)
Definition consumed (self : CodeAllocator) : Z :=
  block_count self * blockSize self - (blockEnd self - blockPos self).

(** *** Further scenarios *)

(** What scenario S1 asks of the outside world. *)
Definition S1_trace : list Event :=
  [EvAllocatePages 16384 65536;
   EvMemcpy 65536 (repeat x90 17) 17;
   EvMakePagesExecutable 65536 4096;
   EvFlushInstructionCache 65536 17].

(** A first call on the allocator with callbacks: the create callback
    returns the handle 99 and reports 40 bytes of unwind data. *)
Definition hooked_call : Call :=
  {| call_env := hook_env 65536 99 40;
     call_data := []; call_dataSize := 0;
     call_code := [xc3]; call_codeSize := 1 |}.

Definition after_hooked : CodeAllocator :=
  set_cursor (push_unwindInfo (on_new_block hooked_allocator 65536) 99)
    (65536 + 4096) (65536 + 16384).

Definition hooked_trace : list Event :=
  [EvAllocatePages 16384 65536;
   EvCreateBlockUnwindInfo 7 65536 16384 99 40;
   EvMemcpy (65536 + 48) [xc3] 1;
   EvMakePagesExecutable 65536 4096;
   EvFlushInstructionCache (65536 + 48) 1].

(** An allocator whose cap is one block, after scenario S1, and a request
    that no longer fits the block. *)
Definition one_block_allocator : CodeAllocator :=
  fresh (4 * 4096) (4 * 4096).

Definition after_only_block : CodeAllocator :=
  set_cursor (on_new_block one_block_allocator 65536)
    (65536 + 4096) (65536 + 16384).

Definition large_call : Call :=
  {| call_env := friendly_env 131072;
     call_data := []; call_dataSize := 0;
     call_code := repeat x90 (125 * 128); call_codeSize := 16000 |}.

(** The same request after scenario S1 under the cap of four blocks: it
    opens a second block at 131072 and fills it. *)
Definition after_second_block : CodeAllocator :=
  set_cursor (on_new_block after_S1 131072)
    (131072 + 16384) (131072 + 16384).

(** ** Machine arithmetic *)

Module SizeTFacts.
Import SizeT.

Lemma modulus_eq : modulus = 18446744073709551616.
Proof. reflexivity. Qed.

Lemma modulus_pos : 0 < modulus.
Proof. rewrite modulus_eq; lia. Qed.

Lemma wrap_range x : in_range (wrap x).
Proof. unfold in_range, wrap. apply Z.mod_pos_bound, modulus_pos. Qed.

Lemma wrap_small x : in_range x -> wrap x = x.
Proof. unfold in_range, wrap. intros H. now apply Z.mod_small. Qed.

Lemma wrap_land_ones x : wrap x = Z.land x (Z.ones bits).
Proof. unfold wrap, modulus. rewrite Z.land_ones; [reflexivity | unfold bits; lia]. Qed.

Lemma land_wrap_r x y : in_range x -> Z.land x (wrap y) = Z.land x y.
Proof.
  intros Hx. rewrite (wrap_land_ones y), (Z.land_comm y), Z.land_assoc.
  rewrite <- wrap_land_ones, wrap_small by assumption. reflexivity.
Qed.

Lemma land_lnot_pow2 x k :
  0 <= k -> Z.land x (Z.lnot (2 ^ k - 1)) = 2 ^ k * (x / 2 ^ k).
Proof.
  intros Hk. rewrite <- Z.ldiff_land.
  replace (2 ^ k - 1) with (Z.ones k) by (rewrite Z.ones_equiv; lia).
  rewrite Z.ldiff_ones_r by assumption.
  rewrite Z.shiftl_mul_pow2, Z.shiftr_div_pow2 by assumption. lia.
Qed.

Lemma land_range x y : in_range x -> in_range (Z.land x y).
Proof.
  unfold in_range. intros [H0 H1]. split.
  - apply Z.land_nonneg. now left.
  - destruct (Z.eq_dec x 0) as [->|Hx]; [rewrite Z.land_0_l; apply modulus_pos|].
    assert (Hs : Z.land (Z.land x y) (Z.ones bits) = Z.land x y).
    { rewrite <- Z.land_assoc, (Z.land_comm y), Z.land_assoc.
      rewrite <- wrap_land_ones, wrap_small by (split; assumption). reflexivity. }
    rewrite <- Hs, <- wrap_land_ones. apply wrap_range.
Qed.

Lemma land_mask_zero_iff x k :
  0 <= k -> (Z.land x (2 ^ k - 1) = 0 <-> x mod 2 ^ k = 0).
Proof.
  intros Hk. replace (2 ^ k - 1) with (Z.ones k) by (rewrite Z.ones_equiv; lia).
  rewrite Z.land_ones by assumption. reflexivity.
Qed.

End SizeTFacts.

(** ** What one call does

    The lemmas of this part read the monadic code back as plain case
    distinctions; the theorems below are proved from them. *)

Ltac monad_unfold :=
  cbv [bind ret this update emit abort LUAU_ASSERT allocatePages
       makePagesExecutable flushInstructionCache freePages] in *.

Ltac case_if H :=
  match type of H with
  | context [if ?c then _ else _] =>
      let E := fresh "E" in
      destruct c eqn:E; cbn beta iota in H; try discriminate H
  end.

Ltac published :=
  constructor;
  [ intros Ha; unfold publish_checks, pageSizeOf, page_mask;
    repeat match goal with
      | E : assertsEnabled _ = false |- _ => congruence
      | E : negb _ = false |- _ => apply negb_false_iff in E
      end;
    repeat match goal with
      | E : _ = true |- _ => rewrite E; clear E
      end; reflexivity
  | reflexivity
  | reflexivity
  | unfold copies, pageSizeOf, codeOffsetOf, dataOffsetOf;
    repeat match goal with
      | E : (_ =? 0) = _ |- _ => rewrite E; clear E
      end;
    cbn [app]; rewrite ?app_nil_r; reflexivity ].

Ltac simp_run :=
  cbn beta iota; cbn [negb andb fst snd blockPos blockEnd set_cursor].

Ltac use_checks Hc :=
  specialize (Hc eq_refl); unfold publish_checks, pageSizeOf, page_mask in Hc;
  repeat (apply andb_prop in Hc; destruct Hc as [Hc ?]);
  repeat (simp_run;
          match goal with
          | E : _ = true |- _ => rewrite E; clear E
          end);
  simp_run.

Ltac run_copies :=
  unfold copies, pageSizeOf, codeOffsetOf, dataOffsetOf;
  destruct (_ =? 0); destruct (_ =? 0); simp_run;
  cbn [app]; rewrite ?app_nil_r; try reflexivity.

Section OneCall.

Variable pf : Platform.

Lemma allocateNewBlock_inv env u self r self' tr :
  allocateNewBlock pf env u self = Returned r self' tr ->
  NewBlockCase pf env u self r self' tr.
Proof.
  unfold allocateNewBlock. monad_unfold. intros H.
  fold (cap_reached self) in H.
  destruct (cap_reached self) eqn:Ecap.
  { inversion H; subst. now constructor. }
  cbn in H.
  destruct (os_pages env =? 0) eqn:Epg.
  { inversion H; subst. apply Z.eqb_eq in Epg. now constructor. }
  apply Z.eqb_neq in Epg. cbn in H.
  destruct (createBlockUnwindInfo self) eqn:Ehook; cbn in H.
  2:{ inversion H; subst. now apply NB_plain. }
  destruct (assertsEnabled pf && negb (roundUp16 (hook_size env) <=? kMaxUnwindDataSize pf))
    eqn:Eas; cbn in H; [discriminate|].
  assert (Hsz : assertsEnabled pf = true ->
                roundUp16 (hook_size env) <= kMaxUnwindDataSize pf).
  { intros Ha. rewrite Ha in Eas. cbn in Eas.
    apply negb_false_iff in Eas. now apply Z.leb_le. }
  destruct (hook_info env =? 0) eqn:Einfo; cbn in H; inversion H; subst.
  - apply Z.eqb_eq in Einfo. now apply NB_hook_null.
  - apply Z.eqb_neq in Einfo. now apply NB_hook.
Qed.

Lemma allocateNewBlock_complete env u self r self' tr :
  NewBlockCase pf env u self r self' tr ->
  allocateNewBlock pf env u self = Returned r self' tr.
Proof.
  intros H. unfold allocateNewBlock. monad_unfold.
  fold (cap_reached self).
  destruct H as [Hc | Hc Hp | Hc Hp Hh | Hc Hp Hh Hi Ha | Hc Hp Hh Hi Ha];
    unfold on_new_block, pages_request, hook_request;
    rewrite Hc; try reflexivity; cbn.
  - rewrite Hp. reflexivity.
  - apply Z.eqb_neq in Hp. rewrite Hp. cbn. rewrite Hh. reflexivity.
  - apply Z.eqb_neq in Hp. rewrite Hp. cbn. rewrite Hh. cbn.
    destruct (assertsEnabled pf); cbn.
    + apply Z.leb_le in Ha; [|reflexivity]. rewrite Ha. cbn. rewrite Hi. reflexivity.
    + rewrite Hi. reflexivity.
  - apply Z.eqb_neq in Hp. rewrite Hp. cbn. rewrite Hh. cbn.
    apply Z.eqb_neq in Hi.
    destruct (assertsEnabled pf); cbn.
    + apply Z.leb_le in Ha; [|reflexivity]. rewrite Ha. cbn. rewrite Hi. reflexivity.
    + rewrite Hi. reflexivity.
Qed.

Lemma allocate_inv env data dataSize code codeSize self r self' tr :
  allocate pf env data dataSize code codeSize self = Returned r self' tr ->
  AllocateCase pf env data dataSize code codeSize self r self' tr.
Proof.
  unfold allocate. monad_unfold. intros H.
  fold (totalSizeOf dataSize codeSize) in H.
  fold (oversize pf self dataSize codeSize) in H.
  destruct (oversize pf self dataSize codeSize) eqn:Eov.
  { inversion H; subst. now constructor. }
  fold (remaining self) in H.
  destruct (totalSizeOf dataSize codeSize >? remaining self) eqn:Erem.
  - destruct (allocateNewBlock pf env 0 self) as [[ok u] self1 tr1|] eqn:Enb;
      [|discriminate].
    apply allocateNewBlock_inv in Enb.
    cbn [fst snd] in H.
    apply Z.gtb_lt in Erem. apply Z.lt_gt in Erem.
    destruct ok.
    + destruct (assertsEnabled pf) eqn:Ea; cbn [andb] in H.
      * repeat case_if H; cbn [blockPos blockEnd set_cursor] in *;
          inversion H; subst; clear H;
          cbn [app]; rewrite ?app_nil_r;
          (eapply AC_new_block;
           [ assumption | assumption | eassumption
           | intros _; fold (remaining self1) in *;
             match goal with E : negb (_ <=? _) = false |- _ =>
               apply negb_false_iff, Z.leb_le in E; exact E end
           | published ]).
      * repeat case_if H; cbn [blockPos blockEnd set_cursor] in *;
          inversion H; subst; clear H;
          cbn [app]; rewrite ?app_nil_r;
          (eapply AC_new_block;
           [ assumption | assumption | eassumption
           | intros Ha; congruence
           | published ]).
    + inversion H; subst; clear H. cbn [app]. rewrite ?app_nil_r.
      eapply AC_no_block; eassumption.
  - assert (Hle : totalSizeOf dataSize codeSize <= remaining self).
    { destruct (Z.gtb_spec (totalSizeOf dataSize codeSize) (remaining self)); [discriminate|lia]. }
    destruct (assertsEnabled pf) eqn:Ea; cbn [andb] in H.
    * repeat case_if H; cbn [blockPos blockEnd set_cursor] in *;
        inversion H; subst; clear H;
        cbn [app]; rewrite ?app_nil_r;
        (eapply AC_same_block; [assumption | assumption | published]).
    * repeat case_if H; cbn [blockPos blockEnd set_cursor] in *;
        inversion H; subst; clear H;
        cbn [app]; rewrite ?app_nil_r;
        (eapply AC_same_block; [assumption | assumption | published]).
Qed.

Lemma allocate_complete env data dataSize code codeSize self r self' tr :
  AllocateCase pf env data dataSize code codeSize self r self' tr ->
  allocate pf env data dataSize code codeSize self = Returned r self' tr.
Proof.
  intros H. unfold allocate. monad_unfold.
  fold (totalSizeOf dataSize codeSize).
  fold (oversize pf self dataSize codeSize).
  fold (remaining self).
  destruct H as [Hov | r self' tr Hov Hrem Hp | u self1 tr1 Hov Hrem Hnb
                | u self1 tr1 r self' tr2 Hov Hrem Hnb Has Hp];
    rewrite Hov; try reflexivity.
  - replace (totalSizeOf dataSize codeSize >? remaining self) with false
      by (symmetry; destruct (Z.gtb_spec (totalSizeOf dataSize codeSize) (remaining self)); [lia|reflexivity]).
    destruct Hp as [Hc -> -> ->].
    destruct (assertsEnabled pf) eqn:Ea; cbn [andb].
    + use_checks Hc. run_copies.
    + destruct (os_protect_ok env), (os_flush_ok env); run_copies.
  - replace (totalSizeOf dataSize codeSize >? remaining self) with true
      by (symmetry; apply Z.gtb_lt; lia).
    rewrite (allocateNewBlock_complete _ _ _ _ _ _ Hnb). simp_run.
    cbn [app]. rewrite ?app_nil_r. reflexivity.
  - replace (totalSizeOf dataSize codeSize >? remaining self) with true
      by (symmetry; apply Z.gtb_lt; lia).
    rewrite (allocateNewBlock_complete _ _ _ _ _ _ Hnb). simp_run.
    destruct Hp as [Hc -> -> ->].
    destruct (assertsEnabled pf) eqn:Ea; cbn [andb].
    + specialize (Has eq_refl). fold (remaining self1).
      apply Z.leb_le in Has. rewrite Has. use_checks Hc. run_copies.
    + destruct (os_protect_ok env), (os_flush_ok env); run_copies.
Qed.

End OneCall.

(** ** Machine arithmetic of the layout *)

Section Layout.

Variable pf : Platform.

Lemma roundUp16_range n : SizeT.in_range (roundUp16 n).
Proof. unfold roundUp16, SizeT.land. apply SizeTFacts.land_range, SizeTFacts.wrap_range. Qed.

Lemma lnot_15 : SizeT.lnot 15 = SizeT.wrap (Z.lnot (2 ^ 4 - 1)).
Proof. reflexivity. Qed.

Lemma roundUp16_eq n : roundUp16 n = 16 * (SizeT.wrap (n + 15) / 16).
Proof.
  unfold roundUp16, SizeT.land, SizeT.add. rewrite lnot_15.
  rewrite SizeTFacts.land_wrap_r by apply SizeTFacts.wrap_range.
  rewrite SizeTFacts.land_lnot_pow2 by lia. reflexivity.
Qed.

Lemma roundUp16_aligned n : roundUp16 n mod 16 = 0.
Proof. rewrite roundUp16_eq, Z.mul_comm. apply Z.mod_mul. lia. Qed.

(** Without overflow [roundUp16] is the least multiple of 16 not below its
    argument. *)
Lemma roundUp16_exact n :
  0 <= n -> n + 15 < SizeT.modulus ->
  roundUp16 n = 16 * ((n + 15) / 16) /\ n <= roundUp16 n < n + 16.
Proof.
  intros H0 H1. rewrite roundUp16_eq, SizeTFacts.wrap_small by (split; lia).
  split; [reflexivity|].
  pose proof (Z.div_mod (n + 15) 16 ltac:(lia)).
  pose proof (Z.mod_pos_bound (n + 15) 16 ltac:(lia)). lia.
Qed.

Lemma totalSizeOf_exact dataSize codeSize :
  0 <= dataSize -> 0 <= codeSize ->
  dataSize + 15 + codeSize < SizeT.modulus ->
  totalSizeOf dataSize codeSize = 16 * ((dataSize + 15) / 16) + codeSize.
Proof.
  intros Hd Hc Hs. unfold totalSizeOf, alignedDataSizeOf, SizeT.add at 1.
  destruct (roundUp16_exact dataSize) as [E B]; [lia|lia|].
  rewrite SizeTFacts.wrap_small; [now rewrite E|]. split; lia.
Qed.

Lemma alignToPageSize_0 : alignToPageSize pf 0 = 0.
Proof.
  unfold alignToPageSize, SizeT.land, SizeT.lnot, SizeT.add, SizeT.sub.
  cbn [Z.add].
  replace (SizeT.wrap (SizeT.wrap (kPageSize pf) - 1))
    with (SizeT.wrap (kPageSize pf - 1)).
  2:{ unfold SizeT.wrap. rewrite Zminus_mod_idemp_l. reflexivity. }
  rewrite SizeTFacts.land_wrap_r by apply SizeTFacts.wrap_range.
  rewrite <- Z.ldiff_land. apply Z.ldiff_diag.
Qed.

End Layout.

(** ** Failure paths of one call *)

Section Failure.

Variable pf : Platform.

(** C8. A request whose total size [roundUp16 dataSize + codeSize] exceeds
    [blockSize - kMaxUnwindDataSize] is refused at once: [allocate] returns
    [false], the allocator is exactly what it was and nothing outside was
    called (the operating system is not asked for a block), whatever room the
    current block has left. *)
Theorem allocate_oversize_refused env data dataSize code codeSize self :
  totalSizeOf dataSize codeSize
    > SizeT.sub (blockSize self) (kMaxUnwindDataSize pf) ->
  allocate pf env data dataSize code codeSize self = Returned None self [].
Proof.
  intros H. apply allocate_complete. apply AC_oversize.
  unfold oversize. apply Z.gtb_lt. lia.
Qed.

(** Which failures leave the allocator as it was: all of them except the one
    where the create callback returned null. *)
Lemma allocate_failure_cases env data dataSize code codeSize self self' tr :
  allocate pf env data dataSize code codeSize self = Returned None self' tr ->
  self' = self \/
  (createBlockUnwindInfo self = true /\ hook_info env = 0 /\ os_pages env <> 0 /\
   self' = on_new_block self (os_pages env)).
Proof.
  intros H. apply allocate_inv in H.
  inversion H as [Hov | r s t Hov Hrem Hp | u s1 t1 Hov Hrem Hnb
                 | u s1 t1 r s t2 Hov Hrem Hnb Has Hp]; subst.
  - now left.
  - destruct Hp as [_ Hr _ _]. discriminate Hr.
  - inversion Hnb; subst; auto.
  - destruct Hp as [_ Hr _ _]. discriminate Hr.
Qed.

(** C1, the path that breaks it. When a new block is needed, the cap allows
    it, the operating system hands out a block and the create callback
    returns null, [allocate] returns [false] although the cursor already
    points into the new block and the block is already on the list. *)
Theorem allocate_hook_failure_keeps_block env data dataSize code codeSize self :
  oversize pf self dataSize codeSize = false ->
  totalSizeOf dataSize codeSize > remaining self ->
  cap_reached self = false ->
  os_pages env <> 0 ->
  createBlockUnwindInfo self = true ->
  hook_info env = 0 ->
  (assertsEnabled pf = true ->
   roundUp16 (hook_size env) <= kMaxUnwindDataSize pf) ->
  exists self' tr,
    allocate pf env data dataSize code codeSize self = Returned None self' tr /\
    blockPos self' = os_pages env /\
    blockEnd self' = SizeT.add (os_pages env) (blockSize self) /\
    blocks self' = blocks self ++ [os_pages env] /\
    unwindInfos self' = unwindInfos self /\
    self' <> self.
Proof.
  intros Hov Hrem Hcap Hpg Hcr Hinfo Has.
  exists (on_new_block self (os_pages env)),
         [pages_request pf self env; hook_request self env].
  split.
  - apply allocate_complete. eapply AC_no_block; try assumption.
    now apply NB_hook_null.
  - cbn. repeat split.
    intros E. apply (f_equal (fun s => length (blocks s))) in E.
    cbn in E. rewrite length_app in E. cbn in E. lia.
Qed.

End Failure.

Lemma allocate_hook_failure_keeps_block_witness :
  exists self' tr,
    allocate (scenario_platform true) (hook_env 65536 0 40)
      [] 0 [x90] 1 (with_hooks scenario_allocator 7 true true)
    = Returned None self' tr /\
    blockPos self' = 65536 /\
    blockEnd self' = SizeT.add 65536 16384 /\
    blocks self' = [] ++ [65536] /\
    unwindInfos self' = [] /\
    self' <> with_hooks scenario_allocator 7 true true.
Proof.
  apply (allocate_hook_failure_keeps_block (scenario_platform true)
           (hook_env 65536 0 40) [] 0 [x90] 1
           (with_hooks scenario_allocator 7 true true)).
  - reflexivity.
  - reflexivity.
  - reflexivity.
  - discriminate.
  - reflexivity.
  - reflexivity.
  - intros _. vm_compute. discriminate.
Defined.

Lemma allocate_oversize_refused_witness :
  allocate (scenario_platform true) (friendly_env 65536)
    [] 0 [] (4 * 4096 - 256 + 1) scenario_allocator
  = Returned None scenario_allocator [].
Proof.
  apply (allocate_oversize_refused (scenario_platform true)).
  vm_compute. reflexivity.
Defined.

(** ** A request of no bytes on an idle allocator *)

Section Empty.

Variable pf : Platform.

Lemma set_cursor_same self : set_cursor self (blockPos self) (blockEnd self) = self.
Proof. now destruct self. Qed.

(** C10. With [dataSize = 0] and [codeSize = 0] on an allocator that has no
    block yet, [allocate] returns [true] with a null [result], a zero
    [resultSize] and a null [resultCodeStart]; no block is reserved, nothing
    is copied and the allocator stays as it was. The only calls it makes are
    the protection change and the cache flush over the empty range at null,
    which must succeed when assertions are compiled in. *)
Theorem allocate_nothing_on_idle env data code self :
  idle self ->
  (assertsEnabled pf = true ->
   os_protect_ok env = true /\ os_flush_ok env = true) ->
  allocate pf env data 0 code 0 self
  = Returned (Some (0, 0, 0)) self
      [EvMakePagesExecutable 0 0; EvFlushInstructionCache 0 0].
Proof.
  intros (_ & _ & Hpos & Hend) Hos.
  assert (Htot : totalSizeOf 0 0 = 0) by reflexivity.
  assert (Hpage : pageSizeOf pf 0 0 0 = 0).
  { unfold pageSizeOf. rewrite Htot. apply alignToPageSize_0. }
  apply allocate_complete. apply AC_same_block.
  - unfold oversize. rewrite Htot.
    pose proof (SizeTFacts.wrap_range (blockSize self - kMaxUnwindDataSize pf)) as [H _].
    unfold SizeT.sub. destruct (Z.gtb_spec 0 (SizeT.wrap (blockSize self - kMaxUnwindDataSize pf)));
      [lia | reflexivity].
  - rewrite Htot. unfold remaining. rewrite Hpos, Hend. vm_compute. discriminate.
  - constructor.
    + intros Ha. destruct (Hos Ha) as [Hp Hf].
      unfold publish_checks. rewrite Hpage, Hpos, Hp, Hf, alignToPageSize_0.
      reflexivity.
    + rewrite Hpos. reflexivity.
    + rewrite Hpage, Hpos. change (SizeT.add 0 0) with 0.
      rewrite <- Hpos at 1. symmetry. apply set_cursor_same.
    + rewrite Hpage, Hpos. reflexivity.
Qed.

End Empty.

Lemma allocate_nothing_on_idle_witness :
  allocate (scenario_platform true) (friendly_env 65536) [] 0 [] 0
    scenario_allocator
  = Returned (Some (0, 0, 0)) scenario_allocator
      [EvMakePagesExecutable 0 0; EvFlushInstructionCache 0 0].
Proof.
  apply (allocate_nothing_on_idle (scenario_platform true)).
  - repeat split.
  - intros _. split; reflexivity.
Defined.

(** ** Unwind information and blocks *)

(** C2, the run that breaks it. The callback pair is set throughout. After
    the refused callback one block exists and no unwind information does;
    after the third call there are two blocks and one unwind information. *)
Theorem unwindInfos_fall_behind :
  exists self1 tr1 rs self3 tr3,
    allocate_all (scenario_platform true) (firstn 1 refused_once) hooked_allocator
      = Returned [None] self1 tr1 /\
    createBlockUnwindInfo self1 = true /\
    length (blocks self1) = 1%nat /\ length (unwindInfos self1) = 0%nat /\
    allocate_all (scenario_platform true) refused_once hooked_allocator
      = Returned rs self3 tr3 /\
    length (blocks self3) = 2%nat /\ length (unwindInfos self3) = 1%nat.
Proof.
  do 5 eexists. split; [vm_compute; reflexivity|].
  do 3 (split; [reflexivity|]).
  split; [vm_compute; reflexivity|].
  split; reflexivity.
Qed.

Section Frame.

Variable pf : Platform.

Lemma same_settings_refl a : same_settings a a.
Proof. repeat split. Qed.

Lemma same_settings_trans a b c :
  same_settings a b -> same_settings b c -> same_settings a c.
Proof.
  unfold same_settings. intros (?&?&?&?&?) (?&?&?&?&?).
  repeat split; congruence.
Qed.

Lemma NewBlockCase_settings env u self r self' tr :
  NewBlockCase pf env u self r self' tr -> same_settings self self'.
Proof. intros H. destruct H; repeat split. Qed.

Lemma allocate_settings env data dataSize code codeSize self r self' tr :
  allocate pf env data dataSize code codeSize self = Returned r self' tr ->
  same_settings self self'.
Proof.
  intros H. apply allocate_inv in H.
  destruct H as [Hov | r self' tr Hov Hrem Hp | u self1 tr1 Hov Hrem Hnb
                | u self1 tr1 r self' tr2 Hov Hrem Hnb Has Hp].
  - apply same_settings_refl.
  - destruct Hp as [_ _ -> _]. repeat split.
  - eapply NewBlockCase_settings; eassumption.
  - eapply same_settings_trans; [eapply NewBlockCase_settings; eassumption|].
    destruct Hp as [_ _ -> _]. repeat split.
Qed.

Lemma Run_settings ok init self hist :
  Run pf ok init self hist -> same_settings init self.
Proof.
  induction 1 as [| s h c s' tr _ IH _ Hc | s h c t s' tr _ IH _ Hc].
  - apply same_settings_refl.
  - eapply same_settings_trans; [exact IH|]. eapply allocate_settings, Hc.
  - eapply same_settings_trans; [exact IH|]. eapply allocate_settings, Hc.
Qed.

Lemma allocate_in_step env data dataSize code codeSize self r self' tr :
  hook_info env <> 0 ->
  allocate pf env data dataSize code codeSize self = Returned r self' tr ->
  in_step self -> in_step self'.
Proof.
  intros Hh H. apply allocate_inv in H. unfold in_step.
  assert (Hnb : forall ok u s1 t1,
             NewBlockCase pf env 0 self (ok, u) s1 t1 ->
             in_step self -> in_step s1).
  { intros ok u s1 t1 Hc. unfold in_step.
    inversion Hc as [C | C P | C P F | C P F I A | C P F I A]; subst; cbn;
      try tauto; try congruence.
    - rewrite F. tauto.
    - rewrite F, !length_app. cbn. intros ->. reflexivity. }
  destruct H as [Hov | r self' tr Hov Hrem Hp | u self1 tr1 Hov Hrem Hc
                | u self1 tr1 r self' tr2 Hov Hrem Hc Has Hp].
  - tauto.
  - destruct Hp as [_ _ -> _]. cbn. tauto.
  - eapply Hnb; eassumption.
  - destruct Hp as [_ _ -> _]. cbn. intros Hs.
    apply (Hnb _ _ _ _ Hc Hs).
Qed.

Lemma Run_in_step init self hist :
  idle init -> Run pf hook_answers init self hist -> in_step self.
Proof.
  intros (Hb & Hu & _) H.
  induction H as [| s h c s' tr _ IH Hok Hc | s h c t s' tr _ IH Hok Hc].
  - unfold in_step. rewrite Hb, Hu. now destruct (createBlockUnwindInfo init).
  - eapply allocate_in_step; eassumption.
  - eapply allocate_in_step; eassumption.
Qed.

End Frame.

(** ** Teardown *)

Section Teardown.

Variable pf : Platform.
Variable free_ok : Z -> bool.

Lemma for_each_emit {A} (f : A -> Event) xs self :
  for_each xs (fun x => emit (f x)) self = Returned tt self (map f xs).
Proof.
  induction xs as [|x xs IH]; [reflexivity|].
  cbn [for_each map]. unfold bind at 1. cbn. rewrite IH. reflexivity.
Qed.

Lemma freePages_run mem size self :
  freePages pf free_ok mem size self
  = if free_ok mem || negb (assertsEnabled pf)
    then Returned tt self [EvFreePages mem size]
    else Aborted [EvFreePages mem size].
Proof.
  unfold freePages. monad_unfold.
  destruct (free_ok mem), (assertsEnabled pf); reflexivity.
Qed.

(** Blocks are released in list order; the loop stops early only when a
    release fails and assertions are compiled in. *)
Lemma for_each_freePages_trace size bs self :
  exists released rest,
    bs = released ++ rest /\
    trace_of (for_each bs (fun block => freePages pf free_ok block size) self)
      = map (fun block => EvFreePages block size) released.
Proof.
  induction bs as [|b bs IH].
  - exists [], []. split; reflexivity.
  - destruct IH as (rel & rest & Hbs & Htr).
    cbn [for_each]. unfold bind at 1. rewrite freePages_run.
    destruct (free_ok b || negb (assertsEnabled pf)).
    + exists (b :: rel), rest. split; [cbn; congruence|].
      destruct (for_each bs _ self) as [[] s' tr|tr];
        cbn [trace_of app map] in *; now rewrite Htr.
    + exists [b], bs. split; reflexivity.
Qed.

Lemma for_each_freePages_ok size bs self :
  assertsEnabled pf = false \/ (forall b, In b bs -> free_ok b = true) ->
  for_each bs (fun block => freePages pf free_ok block size) self
  = Returned tt self (map (fun block => EvFreePages block size) bs).
Proof.
  intros Hok. induction bs as [|b bs IH]; [reflexivity|].
  cbn [for_each]. unfold bind at 1. rewrite freePages_run.
  assert (E : free_ok b || negb (assertsEnabled pf) = true).
  { destruct Hok as [-> | H]; [apply orb_true_r|].
    rewrite H by now left. reflexivity. }
  rewrite E, IH; [reflexivity|].
  destruct Hok as [H|H]; [now left|right; intros; apply H; now right].
Qed.

(** C9. With the destroy callback set, the calls the destructor makes are:
    one destroy call per stored unwind information, in list order, and only
    then the releases of the blocks, in list order. So every destroy call
    precedes every release, and when no release fails under assertions every
    block is released and the destructor returns. *)
Theorem destructor_destroys_then_frees self :
  destroyBlockUnwindInfo self = true ->
  exists released,
    trace_of (destructor pf free_ok self)
      = destroy_calls self ++ free_calls self released /\
    (exists rest, blocks self = released ++ rest) /\
    (forall i j e d,
        nth_error (trace_of (destructor pf free_ok self)) i = Some e ->
        nth_error (trace_of (destructor pf free_ok self)) j = Some d ->
        is_free e = true -> is_destroy d = true -> (j < i)%nat) /\
    ((assertsEnabled pf = false \/
      forall b, In b (blocks self) -> free_ok b = true) ->
     destructor pf free_ok self
       = Returned tt self (destroy_calls self ++ free_calls self (blocks self))).
Proof.
  intros Hd.
  destruct (for_each_freePages_trace (blockSize self) (blocks self) self)
    as (rel & rest & Hpre & Htr).
  assert (Hshape : trace_of (destructor pf free_ok self)
                   = destroy_calls self ++ free_calls self rel).
  { unfold destructor. unfold bind at 1. unfold this at 1.
    unfold bind at 1. rewrite Hd, for_each_emit.
    destruct (for_each (blocks self) _ self) as [[] s' tr|tr];
      cbn [trace_of app] in *; rewrite Htr; reflexivity. }
  exists rel. split; [exact Hshape|]. split; [now exists rest|]. split.
  - rewrite Hshape. intros i j e d Hi Hj He Hdd.
    assert (Hlen : (j < length (destroy_calls self))%nat).
    { destruct (Nat.lt_ge_cases j (length (destroy_calls self))) as [L|G]; [exact L|].
      rewrite nth_error_app2 in Hj by exact G.
      apply nth_error_In in Hj. unfold free_calls in Hj.
      apply in_map_iff in Hj as (b & <- & _). discriminate Hdd. }
    destruct (Nat.lt_ge_cases i (length (destroy_calls self))) as [L|G]; [|lia].
    rewrite nth_error_app1 in Hi by exact L.
    apply nth_error_In in Hi. unfold destroy_calls in Hi.
    apply in_map_iff in Hi as (b & <- & _). discriminate He.
  - intros Hok.
    unfold destructor. unfold bind at 1. unfold this at 1.
    unfold bind at 1. rewrite Hd, for_each_emit.
    rewrite (for_each_freePages_ok _ _ _ Hok). reflexivity.
Qed.

End Teardown.

(** ** Pages, blocks and returned ranges *)

Section PageArith.
Variable pf : Platform.
Variable k : Z.
Hypothesis k_range : 0 <= k < 64.
Hypothesis page_pow2 : kPageSize pf = 2 ^ k.

Lemma page_pos : 0 < kPageSize pf.
Proof. rewrite page_pow2. apply Z.pow_pos_nonneg; lia. Qed.

Lemma page_lt_modulus : kPageSize pf < SizeT.modulus.
Proof.
  rewrite page_pow2. unfold SizeT.modulus, SizeT.bits.
  apply Z.pow_lt_mono_r; lia.
Qed.

Lemma page_mask_eq : page_mask pf = kPageSize pf - 1.
Proof.
  unfold page_mask, SizeT.sub. apply SizeTFacts.wrap_small.
  pose proof page_pos. pose proof page_lt_modulus. split; lia.
Qed.

Lemma alignToPageSize_eq x :
  0 <= x -> x + kPageSize pf <= SizeT.modulus ->
  alignToPageSize pf x = kPageSize pf * ((x + kPageSize pf - 1) / kPageSize pf).
Proof.
  intros H0 H1. pose proof page_pos as Hp.
  unfold alignToPageSize, SizeT.land, SizeT.lnot.
  fold (page_mask pf). rewrite page_mask_eq.
  assert (E : SizeT.sub (SizeT.add x (kPageSize pf)) 1 = x + kPageSize pf - 1).
  { unfold SizeT.sub, SizeT.add, SizeT.wrap. rewrite Zminus_mod_idemp_l.
    apply Z.mod_small. lia. }
  rewrite E, SizeTFacts.land_wrap_r by (split; lia).
  rewrite page_pow2. apply SizeTFacts.land_lnot_pow2. lia.
Qed.

Lemma alignToPageSize_bounds x :
  0 <= x -> x + kPageSize pf <= SizeT.modulus ->
  x <= alignToPageSize pf x < x + kPageSize pf /\
  alignToPageSize pf x mod kPageSize pf = 0.
Proof.
  intros H0 H1. pose proof page_pos as Hp.
  rewrite alignToPageSize_eq by assumption.
  pose proof (Z.div_mod (x + kPageSize pf - 1) (kPageSize pf) ltac:(lia)).
  pose proof (Z.mod_pos_bound (x + kPageSize pf - 1) (kPageSize pf) Hp).
  split; [lia|]. rewrite Z.mul_comm. apply Z.mod_mul. lia.
Qed.

Lemma alignToPageSize_le x m :
  0 <= x -> x <= m -> m mod kPageSize pf = 0 -> m + kPageSize pf <= SizeT.modulus ->
  alignToPageSize pf x <= m.
Proof.
  intros H0 Hle Hm Hb. pose proof page_pos as Hp.
  destruct (alignToPageSize_bounds x H0 ltac:(lia)) as [[_ Hlt] Hal].
  apply Z.mod_divide in Hm; [|lia]. apply Z.mod_divide in Hal; [|lia].
  destruct Hm as [q ->]. destruct Hal as [q' Hq']. rewrite Hq' in *.
  assert (q' < q + 1) by nia. nia.
Qed.


(** *** Publishing keeps the invariant *)

Lemma mod_page_sub a b :
  a mod kPageSize pf = 0 -> b mod kPageSize pf = 0 ->
  (a - b) mod kPageSize pf = 0.
Proof.
  pose proof page_pos. intros Ha Hb.
  rewrite Zminus_mod, Ha, Hb. reflexivity.
Qed.

Lemma mod_page_add a b :
  a mod kPageSize pf = 0 -> b mod kPageSize pf = 0 ->
  (a + b) mod kPageSize pf = 0.
Proof.
  pose proof page_pos. intros Ha Hb.
  rewrite Zplus_mod, Ha, Hb. reflexivity.
Qed.

Lemma aligned_pos_ge_page b :
  0 < b -> b mod kPageSize pf = 0 -> kPageSize pf <= b.
Proof.
  pose proof page_pos. intros Hb Hm.
  apply Z.mod_divide in Hm; [|lia]. destruct Hm as [q ->].
  assert (0 < q) by nia. nia.
Qed.

Lemma disjoint_of_apart r1 n1 c1 r2 n2 c2 :
  n1 <= 0 \/ n2 <= 0 \/ r1 + n1 <= r2 \/ r2 + n2 <= r1 ->
  ranges_disjoint (r1, n1, c1) (r2, n2, c2).
Proof. unfold ranges_disjoint, in_range_of. cbn. intros H x. lia. Qed.

Lemma Published_Inv env self u data dataSize code codeSize t self' tr hist :
  blockSize self mod kPageSize pf = 0 ->
  Inv pf self hist ->
  Published pf env self u data dataSize code codeSize (Some t) self' tr ->
  0 <= u ->
  u + totalSizeOf dataSize codeSize <= blockEnd self - blockPos self ->
  0 <= codeSize ->
  roundUp16 dataSize + codeSize < SizeT.modulus ->
  Inv pf self' (t :: hist).
Proof.
  intros HB [Hbl Hap Hcur Hh Hd] [_ Hr Hs _] Hu Hroom Hcs Hnov.
  pose proof page_pos as Hp.
  pose proof (roundUp16_range dataSize) as Hal. unfold SizeT.in_range in Hal.
  set (total := totalSizeOf dataSize codeSize) in *.
  assert (Htot : total = roundUp16 dataSize + codeSize).
  { unfold total, totalSizeOf, alignedDataSizeOf, SizeT.add.
    apply SizeTFacts.wrap_small. split; lia. }
  injection Hr as Ht. subst t.
  set (page := pageSizeOf pf u dataSize codeSize) in *.
  destruct Hcur as [(Hnil & Hpos & Hend) | (b & Hin & Hb & Hend & Hal0)].
  - (* no block yet: only the request of no bytes gets here *)
    rewrite Hpos, Hend in *.
    assert (u = 0 /\ total = 0) as [-> Ht0] by lia.
    assert (Hpage : page = 0).
    { unfold page, pageSizeOf. fold total. rewrite Ht0. apply alignToPageSize_0. }
    assert (Hsame : self' = self).
    { rewrite Hs, Hpage. change (SizeT.add 0 0) with 0.
      clear - Hpos Hend. destruct self; cbn in *; subst; reflexivity. }
    rewrite Hsame. rewrite Ht0.
    constructor; auto.
    + rewrite Hpos, Hend. intros r n c [E|Hin].
      * injection E as <- <- <-. split; lia.
      * now apply Hh.
    + constructor; [|assumption].
      apply Forall_forall. intros [[r n] c] _.
      apply disjoint_of_apart. lia.
  - destruct (Hbl b Hin) as (Hb0 & Hb1 & Hbm).
    pose proof (aligned_pos_ge_page b Hb0 Hbm) as Hbp.
    assert (Hsum : SizeT.add u total = u + total).
    { apply SizeTFacts.wrap_small. split; lia. }
    assert (Hroom_al : (blockEnd self - blockPos self) mod kPageSize pf = 0).
    { rewrite Hend. apply mod_page_sub; [apply mod_page_add|]; assumption. }
    assert (Hpage_le : page <= blockEnd self - blockPos self).
    { unfold page, pageSizeOf. fold total. rewrite Hsum.
      apply alignToPageSize_le; try assumption; lia. }
    destruct (alignToPageSize_bounds (u + total)) as [[Hpg0 _] Hpgm]; [lia|lia|].
    assert (Hpage_eq : page = alignToPageSize pf (u + total)).
    { unfold page, pageSizeOf. fold total. now rewrite Hsum. }
    rewrite <- Hpage_eq in *.
    assert (Hnewpos : SizeT.add (blockPos self) page = blockPos self + page).
    { apply SizeTFacts.wrap_small. split; lia. }
    assert (Hres : SizeT.add (blockPos self) u = blockPos self + u).
    { apply SizeTFacts.wrap_small. split; lia. }
    assert (Hcode : SizeT.add (blockPos self) (codeOffsetOf u dataSize)
                    = blockPos self + u + roundUp16 dataSize).
    { unfold codeOffsetOf, alignedDataSizeOf, SizeT.add.
      rewrite (SizeTFacts.wrap_small (u + _)) by (split; lia).
      rewrite SizeTFacts.wrap_small by (split; lia). lia. }
    rewrite Hres, Hcode. subst self'.
    constructor; cbn [blocks blockSize blockPos blockEnd set_cursor].
    + assumption.
    + assumption.
    + right. exists b. rewrite Hnewpos. repeat split; try assumption; try lia.
      apply mod_page_add; assumption.
    + rewrite Hnewpos. intros r n c [E|Hin'].
      * injection E as <- <- <-. split; [lia|]. intros Hn.
        split; [|split; lia].
        exists b. unfold inside_block. cbn. repeat split; try assumption; lia.
      * destruct (Hh r n c Hin') as [Hn0 Hrest]. split; [assumption|].
        intros Hn. destruct (Hrest Hn) as ((b' & Hib) & Hside & Hc).
        split; [|split; [lia|assumption]].
        exists b'. exact Hib.
    + constructor; [|assumption].
      apply Forall_forall. intros [[r n] c] Hin'.
      apply disjoint_of_apart.
      destruct (Hh r n c Hin') as [Hn0 Hrest].
      destruct (Z.eq_dec n 0) as [->|Hn]; [lia|].
      destruct (Hrest ltac:(lia)) as (_ & Hside & _). lia.
Qed.


(** *** A new block keeps the invariant *)

Lemma Inv_new_block self hist b self1 :
  0 < blockSize self ->
  Inv pf self hist ->
  fresh_block pf self b ->
  blocks self1 = blocks self ++ [b] ->
  blockPos self1 = b ->
  blockEnd self1 = SizeT.add b (blockSize self) ->
  blockSize self1 = blockSize self ->
  Inv pf self1 hist /\
  blockEnd self1 - blockPos self1 = blockSize self.
Proof.
  intros HB [Hbl Hap Hcur Hh Hd] (Hb0 & Hb1 & Hbm & Hfar) Ebl Epos Eend Esz.
  assert (Eend' : blockEnd self1 = b + blockSize self).
  { rewrite Eend. apply SizeTFacts.wrap_small. split; lia. }
  split; [|lia].
  constructor; rewrite ?Ebl, ?Epos, ?Eend', ?Esz.
  - intros b' Hin. apply in_app_or in Hin as [Hin|[<-|[]]]; auto.
  - intros b1 b2 H1 H2.
    apply in_app_or in H1 as [H1|[<-|[]]]; apply in_app_or in H2 as [H2|[<-|[]]].
    + now apply Hap.
    + destruct (Hfar b1 H1); lia.
    + destruct (Hfar b2 H2); lia.
    + now left.
  - right. exists b. repeat split; try lia; try assumption.
    apply in_or_app. right. now left.
  - intros r n c Hin. destruct (Hh r n c Hin) as [Hn0 Hrest].
    split; [assumption|]. intros Hn.
    destruct (Hrest Hn) as ((b' & Hib & Hlo & Hhi) & _ & Hc).
    split; [|split; [|assumption]].
    + exists b'. unfold inside_block. rewrite Ebl, Esz.
      repeat split; try assumption. apply in_or_app. now left.
    + destruct (Hfar b' Hib); lia.
  - assumption.
Qed.

Lemma NewBlockCase_Inv env self hist ok u self1 tr :
  0 <= kMaxUnwindDataSize pf < blockSize self ->
  Inv pf self hist ->
  os_pages env = 0 \/ fresh_block pf self (os_pages env) ->
  roundUp16 (hook_size env) <= kMaxUnwindDataSize pf ->
  NewBlockCase pf env 0 self (ok, u) self1 tr ->
  Inv pf self1 hist /\
  (ok = true ->
   0 <= u <= kMaxUnwindDataSize pf /\
   blockEnd self1 - blockPos self1 = blockSize self).
Proof.
  intros HK HI Hos Hhook Hc.
  pose proof (roundUp16_range (hook_size env)) as Hr. unfold SizeT.in_range in Hr.
  inversion Hc as [C | C P | C P F | C P F I A | C P F I A]; subst.
  - split; [assumption|discriminate].
  - split; [assumption|discriminate].
  - destruct Hos as [Hos|Hos]; [contradiction|].
    destruct (Inv_new_block self hist (os_pages env)
                (on_new_block self (os_pages env))) as [H1 H2];
      try assumption; try reflexivity; try lia.
    split; [assumption|]. intros _. split; [lia|assumption].
  - destruct Hos as [Hos|Hos]; [contradiction|].
    destruct (Inv_new_block self hist (os_pages env)
                (on_new_block self (os_pages env))) as [H1 H2];
      try assumption; try reflexivity; try lia.
    split; [assumption|discriminate].
  - destruct Hos as [Hos|Hos]; [contradiction|].
    destruct (Inv_new_block self hist (os_pages env)
                (push_unwindInfo (on_new_block self (os_pages env)) (hook_info env)))
      as [H1 H2]; try assumption; try reflexivity; try lia.
    split; [assumption|]. intros _. split; [lia|assumption].
Qed.

Lemma NewBlockCase_blockSize env u0 self r self1 tr :
  NewBlockCase pf env u0 self r self1 tr -> blockSize self1 = blockSize self.
Proof. intros H. destruct H; reflexivity. Qed.

(** *** Every call keeps the invariant *)

Lemma remaining_of_Inv self hist :
  Inv pf self hist -> remaining self = blockEnd self - blockPos self.
Proof.
  intros [Hbl _ Hcur _ _]. unfold remaining, SizeT.sub.
  apply SizeTFacts.wrap_small.
  destruct Hcur as [(_ & -> & ->) | (b & Hin & Hb & -> & _)].
  - split; [lia|apply SizeTFacts.modulus_pos].
  - destruct (Hbl b Hin) as (? & ? & _). split; lia.
Qed.

Lemma call_Inv self hist c r self' tr :
  settings_ok pf self ->
  Inv pf self hist ->
  well_behaved pf self c ->
  call pf c self = Returned r self' tr ->
  Inv pf self' (match r with Some t => t :: hist | None => hist end).
Proof.
  intros (_ & HBm & HK & HBr) HI (Hos & Hhook & Hcs & Hnov) H.
  unfold call in H. apply allocate_inv in H.
  pose proof (remaining_of_Inv self hist HI) as Hrem.
  assert (HBK : SizeT.sub (blockSize self) (kMaxUnwindDataSize pf)
                = blockSize self - kMaxUnwindDataSize pf).
  { apply SizeTFacts.wrap_small. split; lia. }
  destruct H as [Hov | r self' tr Hov Hle Hp | u self1 tr1 Hov Hgt Hc
                | u self1 tr1 r self' tr2 Hov Hgt Hc Has Hp].
  - assumption.
  - pose proof (pub_result _ _ _ _ _ _ _ _ _ _ _ Hp) as Hr. rewrite Hr in *.
    eapply (Published_Inv _ self); try eassumption; lia.
  - eapply NewBlockCase_Inv; try eassumption.
  - pose proof (pub_result _ _ _ _ _ _ _ _ _ _ _ Hp) as Hr. rewrite Hr in *.
    destruct (NewBlockCase_Inv _ _ _ _ _ _ _ HK HI Hos Hhook Hc) as [HI1 Hu].
    destruct (Hu eq_refl) as [Hu0 Hroom].
    eapply (Published_Inv _ self1); try eassumption; try lia.
    + rewrite (NewBlockCase_blockSize _ _ _ _ _ _ Hc). assumption.
    + rewrite Hroom. unfold oversize in Hov. rewrite HBK in Hov.
      destruct (Z.gtb_spec (totalSizeOf (call_dataSize c) (call_codeSize c))
                  (blockSize self - kMaxUnwindDataSize pf)); [discriminate|lia].
Qed.

End PageArith.

Section Runs.

Variable pf : Platform.

Lemma settings_ok_same a b :
  same_settings a b -> settings_ok pf a -> settings_ok pf b.
Proof.
  intros (E & _) H. unfold settings_ok in *. rewrite <- E. exact H.
Qed.

Lemma Inv_idle init : idle init -> Inv pf init [].
Proof.
  intros (Hb & Hu & Hp & He). constructor.
  - rewrite Hb. intros b [].
  - rewrite Hb. intros b b' [].
  - now left.
  - intros r n c [].
  - constructor.
Qed.

Lemma Run_Inv init self hist :
  idle init -> settings_ok pf init ->
  Run pf (well_behaved pf) init self hist ->
  Inv pf self hist.
Proof.
  intros Hidle Hset H.
  induction H as [| s h c s' tr Hrun IH Hok Hc | s h c t s' tr Hrun IH Hok Hc].
  - now apply Inv_idle.
  - pose proof (settings_ok_same _ _ (Run_settings _ _ _ _ _ Hrun) Hset) as Hs.
    destruct Hs as ((k & Hk & Hpk) & Hrest).
    apply (call_Inv pf k Hk Hpk s h c None s' tr); try assumption.
    split; [now exists k|assumption].
  - pose proof (settings_ok_same _ _ (Run_settings _ _ _ _ _ Hrun) Hset) as Hs.
    destruct Hs as ((k & Hk & Hpk) & Hrest).
    apply (call_Inv pf k Hk Hpk s h c (Some t) s' tr); try assumption.
    split; [now exists k|assumption].
Qed.

Lemma ForallOrdPairs_nth {A} (R : A -> A -> Prop) l :
  ForallOrdPairs R l ->
  forall i j a b, (i < j)%nat ->
    nth_error l i = Some a -> nth_error l j = Some b -> R a b.
Proof.
  induction 1 as [|x l Hx _ IH]; intros i j a b Hlt Hi Hj.
  - destruct i; discriminate.
  - destruct j as [|j]; [lia|]. cbn in Hj. destruct i as [|i]; cbn in Hi.
    + injection Hi as <-. apply nth_error_In in Hj.
      rewrite Forall_forall in Hx. now apply Hx.
    + apply (IH i j); [lia|assumption..].
Qed.

Lemma ranges_disjoint_sym t1 t2 : ranges_disjoint t1 t2 -> ranges_disjoint t2 t1.
Proof. unfold ranges_disjoint. intros H x [H1 H2]. apply (H x). now split. Qed.

(** C7, as amended. With well-formed settings and a well-behaved outside
    world, the ranges [result .. result + resultSize) returned by different
    calls are disjoint, and every returned range of at least one byte lies
    inside exactly one owned block, with
    [result <= resultCodeStart <= result + resultSize]. Nothing is said about
    where the pointers of an empty range lie. *)
Theorem returned_ranges_disjoint_in_blocks init self hist :
  idle init -> settings_ok pf init ->
  Run pf (well_behaved pf) init self hist ->
  (forall i j t1 t2, i <> j ->
     nth_error hist i = Some t1 -> nth_error hist j = Some t2 ->
     ranges_disjoint t1 t2) /\
  (forall result resultSize resultCodeStart,
     In (result, resultSize, resultCodeStart) hist -> 0 < resultSize ->
     (exists b, inside_block self result (result + resultSize) b /\
                forall b', inside_block self result (result + resultSize) b' ->
                           b' = b) /\
     result <= resultCodeStart <= result + resultSize).
Proof.
  intros Hidle Hset Hrun.
  pose proof (Run_Inv init self hist Hidle Hset Hrun) as [Hbl Hap Hcur Hh Hd].
  split.
  - intros i j t1 t2 Hne H1 H2.
    destruct (Nat.lt_gt_cases i j) as [Hc _]. destruct (Hc Hne) as [L|L].
    + eapply ForallOrdPairs_nth; eassumption.
    + apply ranges_disjoint_sym. eapply ForallOrdPairs_nth; eassumption.
  - intros r n c Hin Hn. destruct (Hh r n c Hin) as [_ Hrest].
    destruct (Hrest Hn) as ((b & Hb) & _ & Hc). split; [|assumption].
    exists b. split; [assumption|]. intros b' (Hin' & Hlo' & Hhi').
    destruct Hb as (Hinb & Hlo & Hhi).
    destruct (Hap b' b Hin' Hinb) as [E|[E|E]]; [assumption|lia|lia].
Qed.

End Runs.

(** ** Alignment of what is returned *)

Section Alignment.

Variable pf : Platform.
Hypothesis page_mult16 : kPageSize pf mod 16 = 0.

Lemma wrap_mod16 x : SizeT.wrap x mod 16 = x mod 16.
Proof.
  unfold SizeT.wrap. apply Z.mod_mod_divide. exists (2 ^ 60). reflexivity.
Qed.

Lemma add_mod16 a b : a mod 16 = 0 -> b mod 16 = 0 -> SizeT.add a b mod 16 = 0.
Proof.
  intros Ha Hb. unfold SizeT.add. rewrite wrap_mod16, Zplus_mod, Ha, Hb. reflexivity.
Qed.

Lemma land_mod16 x y : y mod 16 = 0 -> Z.land x y mod 16 = 0.
Proof.
  intros Hy. change 16 with (2 ^ 4) in *.
  rewrite <- Z.land_ones in * by lia.
  rewrite <- Z.land_assoc, Hy. apply Z.land_0_r.
Qed.

Lemma alignToPageSize_mod16 x : alignToPageSize pf x mod 16 = 0.
Proof.
  unfold alignToPageSize, SizeT.land. apply land_mod16.
  unfold SizeT.lnot, SizeT.sub. rewrite wrap_mod16.
  assert (H : SizeT.wrap (kPageSize pf - 1) mod 16 = 15).
  { rewrite wrap_mod16, Zminus_mod, page_mult16. reflexivity. }
  unfold Z.lnot, Z.pred.
  pose proof (Z.div_mod (SizeT.wrap (kPageSize pf - 1)) 16 ltac:(lia)) as E.
  rewrite H in E.
  replace (- SizeT.wrap (kPageSize pf - 1) + -1)
    with ((- (SizeT.wrap (kPageSize pf - 1) / 16) - 1) * 16) by lia.
  apply Z.mod_mul. lia.
Qed.

Lemma page_aligned_mod16 b : b mod kPageSize pf = 0 -> b mod 16 = 0.
Proof.
  intros Hb. destruct (Z.eq_dec (kPageSize pf) 0) as [E|E].
  - rewrite E, Z.mod_0_r in Hb. now subst.
  - apply Z.mod_divide in Hb; [|assumption].
    apply Z.mod_divide in page_mult16; [|lia].
    apply Z.mod_divide; [lia|]. eapply Z.divide_trans; eassumption.
Qed.

Lemma NewBlockCase_cursor env u0 self ok u self1 tr :
  NewBlockCase pf env u0 self (ok, u) self1 tr ->
  (self1 = self /\ ok = false) \/
  (blockPos self1 = os_pages env /\
   u = if createBlockUnwindInfo self then roundUp16 (hook_size env) else u0).
Proof.
  intros H. inversion H as [C | C P | C P F | C P F I A | C P F I A]; subst;
    auto; right; rewrite F; split; reflexivity.
Qed.

Lemma call_cursor_mod16 self c r self' tr :
  page_aligned_blocks pf self c ->
  call pf c self = Returned r self' tr ->
  blockPos self mod 16 = 0 -> blockPos self' mod 16 = 0.
Proof.
  unfold page_aligned_blocks, call. intros Hos H Hpos.
  apply page_aligned_mod16 in Hos. apply allocate_inv in H.
  destruct H as [Hov | r self' tr Hov Hle Hp | u self1 tr1 Hov Hgt Hc
                | u self1 tr1 r self' tr2 Hov Hgt Hc Has Hp].
  - assumption.
  - destruct Hp as [_ _ -> _]. cbn. apply add_mod16; [assumption|].
    apply alignToPageSize_mod16.
  - apply NewBlockCase_cursor in Hc as [[-> _]|[-> _]]; assumption.
  - destruct Hp as [_ _ -> _]. cbn. apply add_mod16; [|apply alignToPageSize_mod16].
    apply NewBlockCase_cursor in Hc as [[_ ?]|[-> _]]; [discriminate|assumption].
Qed.

Lemma Run_cursor_mod16 init self hist :
  idle init -> Run pf (page_aligned_blocks pf) init self hist ->
  blockPos self mod 16 = 0.
Proof.
  intros (_ & _ & Hpos & _) H.
  induction H as [| s h c s' tr _ IH Hok Hc | s h c t s' tr _ IH Hok Hc].
  - rewrite Hpos. reflexivity.
  - eapply call_cursor_mod16; eassumption.
  - eapply call_cursor_mod16; eassumption.
Qed.

(** C5. When the page size is a multiple of 16 and the operating system
    returns page-aligned blocks, every call that returns [true] returns a
    [resultCodeStart] and a [result] that are multiples of 16; and when the
    call opened a block with the create callback set, [result] is the start of
    that block plus the reported unwind size rounded up to 16: as the code
    computes it in [size_t], and, when block and size do not run past the
    address space, as the number [16 * ((size + 15) / 16)] added to the block
    start, which exceeds the reported size by less than 16. *)
Theorem allocate_results_aligned init self hist env data dataSize code codeSize
    result resultSize resultCodeStart self' tr :
  idle init ->
  Run pf (page_aligned_blocks pf) init self hist ->
  os_pages env mod kPageSize pf = 0 ->
  allocate pf env data dataSize code codeSize self
    = Returned (Some (result, resultSize, resultCodeStart)) self' tr ->
  resultCodeStart mod 16 = 0 /\
  result mod 16 = 0 /\
  (totalSizeOf dataSize codeSize > remaining self ->
   createBlockUnwindInfo self = true ->
   result = SizeT.add (os_pages env) (roundUp16 (hook_size env))) /\
  (totalSizeOf dataSize codeSize > remaining self ->
   createBlockUnwindInfo self = true ->
   0 <= os_pages env -> 0 <= hook_size env ->
   os_pages env + hook_size env + 15 < SizeT.modulus ->
   result = os_pages env + 16 * ((hook_size env + 15) / 16) /\
   hook_size env <= result - os_pages env < hook_size env + 16).
Proof.
  intros Hidle Hrun Hos H.
  pose proof (Run_cursor_mod16 init self hist Hidle Hrun) as Hpos.
  apply page_aligned_mod16 in Hos. apply allocate_inv in H.
  pose proof (roundUp16_aligned dataSize) as Hal.
  inversion H as [Hov | r s t Hov Hle Hp | u self1 tr1 Hov Hgt Hc
                 | u self1 tr1 r s tr2 Hov Hgt Hc Has Hp]; subst.
  - destruct Hp as [_ Hr _ _]. injection Hr as -> -> ->.
    split; [|split; [|split]].
    + apply add_mod16; [assumption|]. unfold codeOffsetOf, alignedDataSizeOf.
      apply add_mod16; [reflexivity|assumption].
    + apply add_mod16; [assumption|reflexivity].
    + intros Hgt. lia.
    + intros Hgt. lia.
  - destruct Hp as [_ Hr _ _]. injection Hr as -> -> ->.
    apply NewBlockCase_cursor in Hc as [[_ ?]|[Hb Hu]]; [discriminate|].
    rewrite Hb.
    assert (Hu16 : u mod 16 = 0).
    { rewrite Hu. destruct (createBlockUnwindInfo self);
        [apply roundUp16_aligned|reflexivity]. }
    split; [|split; [|split]].
    + apply add_mod16; [assumption|]. unfold codeOffsetOf, alignedDataSizeOf.
      apply add_mod16; assumption.
    + apply add_mod16; assumption.
    + intros _ Hcr. rewrite Hu, Hcr. reflexivity.
    + intros _ Hcr Hb0 Hs0 Hfit. rewrite Hu, Hcr.
      destruct (roundUp16_exact (hook_size env) Hs0 ltac:(lia)) as [Heq Hbd].
      unfold SizeT.add. rewrite SizeTFacts.wrap_small by (split; lia).
      rewrite <- Heq. split; [reflexivity|lia].
Qed.

End Alignment.

(** ** The cap on the number of blocks *)

Section Cap.

Variable pf : Platform.

Lemma cap_reached_iff self :
  cap_fits self ->
  block_count self * blockSize self <= maxTotalSize self ->
  (cap_reached self = true <->
   (block_count self + 1) * blockSize self > maxTotalSize self).
Proof.
  intros (HB & HM & Hfit) Hinv. unfold cap_reached, block_count in *.
  set (n := Z.of_nat (length (blocks self))) in *.
  assert (Hn : 0 <= n) by apply Nat2Z.is_nonneg.
  assert (Hn1 : n <= maxTotalSize self) by nia.
  assert (E1 : SizeT.add n 1 = n + 1).
  { apply SizeTFacts.wrap_small. split; lia. }
  assert (E2 : SizeT.mul (n + 1) (blockSize self) = (n + 1) * blockSize self).
  { apply SizeTFacts.wrap_small. split; nia. }
  rewrite E1, E2. rewrite Z.gtb_lt. lia.
Qed.

Lemma NewBlockCase_blocks env u0 self r self1 tr :
  NewBlockCase pf env u0 self r self1 tr ->
  blocks self1 = blocks self \/
  (cap_reached self = false /\ blocks self1 = blocks self ++ [os_pages env]).
Proof. intros H. destruct H; auto. Qed.

Lemma call_blocks self c r self' tr :
  call pf c self = Returned r self' tr ->
  blocks self' = blocks self \/
  (cap_reached self = false /\
   blocks self' = blocks self ++ [os_pages (call_env c)]).
Proof.
  unfold call. intros H. apply allocate_inv in H.
  destruct H as [Hov | r self' tr Hov Hle Hp | u self1 tr1 Hov Hgt Hc
                | u self1 tr1 r self' tr2 Hov Hgt Hc Has Hp].
  - now left.
  - destruct Hp as [_ _ -> _]. now left.
  - eapply NewBlockCase_blocks; eassumption.
  - destruct Hp as [_ _ -> _]. cbn. eapply NewBlockCase_blocks; eassumption.
Qed.

Lemma cap_fits_same a b : same_settings a b -> cap_fits a -> cap_fits b.
Proof. intros (E1 & E2 & _). unfold cap_fits. now rewrite E1, E2. Qed.

Lemma call_cap self c r self' tr :
  cap_fits self ->
  call pf c self = Returned r self' tr ->
  block_count self * blockSize self <= maxTotalSize self ->
  block_count self' * blockSize self' <= maxTotalSize self'.
Proof.
  intros Hfit H Hinv.
  destruct (allocate_settings pf _ _ _ _ _ _ _ _ _ H) as (E1 & E2 & _).
  rewrite <- E1, <- E2.
  destruct (call_blocks _ _ _ _ _ H) as [E | [Hcap E]].
  - unfold block_count. now rewrite E.
  - assert (Hn : ~ (block_count self + 1) * blockSize self > maxTotalSize self).
    { intros Hc. apply cap_reached_iff in Hc; try assumption. congruence. }
    unfold block_count in *. rewrite E, length_app. cbn [length].
    rewrite Nat2Z.inj_add. cbn. lia.
Qed.

Lemma Run_cap init self hist :
  idle init -> cap_fits init ->
  Run pf any_call init self hist ->
  block_count self * blockSize self <= maxTotalSize self.
Proof.
  intros (Hb & _) Hfit H.
  induction H as [| s h c s' tr Hrun IH _ Hc | s h c t s' tr Hrun IH _ Hc].
  - unfold block_count. rewrite Hb. cbn. destruct Hfit as (_ & ? & _). lia.
  - apply (call_cap s c None s' tr); try assumption.
    eapply cap_fits_same; [eapply Run_settings; eassumption|assumption].
  - apply (call_cap s c (Some t) s' tr); try assumption.
    eapply cap_fits_same; [eapply Run_settings; eassumption|assumption].
Qed.

(** C4. When the cap test cannot overflow, every allocator reached by calls
    of [allocate] satisfies [blocks.size() * blockSize <= maxTotalSize], and
    [allocateNewBlock] refuses without asking the operating system, leaving
    the allocator as it was, exactly when
    [(blocks.size() + 1) * blockSize > maxTotalSize]. *)
Theorem cap_is_hard_bound init self hist :
  idle init -> cap_fits init ->
  Run pf any_call init self hist ->
  block_count self * blockSize self <= maxTotalSize self /\
  forall env u,
    allocateNewBlock pf env u self = Returned (false, u) self [] <->
    (block_count self + 1) * blockSize self > maxTotalSize self.
Proof.
  intros Hidle Hfit Hrun.
  pose proof (Run_cap init self hist Hidle Hfit Hrun) as Hinv.
  pose proof (cap_fits_same _ _ (Run_settings _ _ _ _ _ Hrun) Hfit) as Hfit'.
  split; [assumption|]. intros env u.
  rewrite <- cap_reached_iff by assumption. split.
  - intros H. apply allocateNewBlock_inv in H.
    inversion H; subst; assumption.
  - intros H. apply allocateNewBlock_complete. now constructor.
Qed.

End Cap.

(** ** Where a call puts data and code *)

Section LayoutOfACall.

Variable pf : Platform.

Lemma filter_memcpy_copies pos u data dataSize code codeSize :
  filter is_memcpy (copies pos u data dataSize code codeSize)
  = copies pos u data dataSize code codeSize.
Proof. unfold copies. destruct (dataSize =? 0), (codeSize =? 0); reflexivity. Qed.

Lemma NewBlockCase_no_memcpy env u0 self r self1 tr :
  NewBlockCase pf env u0 self r self1 tr -> filter is_memcpy tr = [].
Proof. intros H. destruct H; reflexivity. Qed.

Lemma add_wrap_l a b : SizeT.add (SizeT.wrap a) b = SizeT.add a b.
Proof. unfold SizeT.add, SizeT.wrap. apply Zplus_mod_idemp_l. Qed.

Lemma add_0_r a : SizeT.add a 0 = SizeT.wrap a.
Proof. unfold SizeT.add. now rewrite Z.add_0_r. Qed.

(** C6. A call that returns [true] copies the data to offset
    [unwindInfoSize + roundUp16 dataSize - dataSize] and the code to offset
    [unwindInfoSize + roundUp16 dataSize] from the position it lays out at,
    and returns that position plus [unwindInfoSize], the total
    [roundUp16 dataSize + codeSize], and that position plus the code offset;
    the cursor ends one page-rounded step further. For three bytes of data and
    one byte of code without a prelude the data goes to [result + 13] and the
    code starts at [result + 16]. *)
Theorem allocate_layout env data dataSize code codeSize self
    result resultSize resultCodeStart self' tr :
  allocate pf env data dataSize code codeSize self
    = Returned (Some (result, resultSize, resultCodeStart)) self' tr ->
  let pos := layout_pos self env dataSize codeSize in
  let unwindInfoSize := layout_unwindInfoSize self env dataSize codeSize in
  result = SizeT.add pos unwindInfoSize /\
  resultSize = SizeT.add (roundUp16 dataSize) codeSize /\
  resultCodeStart = SizeT.add pos (codeOffsetOf unwindInfoSize dataSize) /\
  filter is_memcpy tr
    = (if dataSize =? 0 then []
       else [EvMemcpy (SizeT.add pos (dataOffsetOf unwindInfoSize dataSize))
               data dataSize])
      ++ (if codeSize =? 0 then []
          else [EvMemcpy (SizeT.add pos (codeOffsetOf unwindInfoSize dataSize))
                  code codeSize]) /\
  blockPos self' = SizeT.add pos (pageSizeOf pf unwindInfoSize dataSize codeSize) /\
  (dataSize = 3 -> codeSize = 1 -> unwindInfoSize = 0 ->
   filter is_memcpy tr
     = [EvMemcpy (SizeT.add result 13) data 3; EvMemcpy (SizeT.add result 16) code 1] /\
   resultCodeStart = SizeT.add result 16).
Proof.
  intros H pos u. apply allocate_inv in H.
  assert (Hmain :
    result = SizeT.add pos u /\
    resultCodeStart = SizeT.add pos (codeOffsetOf u dataSize) /\
    resultSize = totalSizeOf dataSize codeSize /\
    filter is_memcpy tr = copies pos u data dataSize code codeSize /\
    blockPos self' = SizeT.add pos (pageSizeOf pf u dataSize codeSize)).
  { subst pos u. unfold layout_pos, layout_unwindInfoSize.
    inversion H as [Hov | r s t Hov Hle Hp | u1 self1 tr1 Hov Hgt Hc
                   | u1 self1 tr1 r s tr2 Hov Hgt Hc Has Hp]; subst.
    - destruct Hp as [_ Hr -> ->]. injection Hr as -> -> ->.
      replace (totalSizeOf dataSize codeSize >? remaining self) with false
        by (symmetry; destruct (Z.gtb_spec (totalSizeOf dataSize codeSize) (remaining self)); [lia|reflexivity]).
      cbn [andb blockPos set_cursor].
      rewrite filter_app, filter_memcpy_copies. cbn. rewrite app_nil_r.
      repeat split.
    - destruct Hp as [_ Hr -> ->]. injection Hr as -> -> ->.
      replace (totalSizeOf dataSize codeSize >? remaining self) with true
        by (symmetry; apply Z.gtb_lt; lia).
      cbn [andb blockPos set_cursor].
      rewrite !filter_app, filter_memcpy_copies,
        (NewBlockCase_no_memcpy _ _ _ _ _ _ Hc). cbn. rewrite app_nil_r.
      inversion Hc as [C | C P | C P F | C P F I A | C P F I A]; subst;
        rewrite F; cbn; repeat split. }
  destruct Hmain as (Hres & Hcode & Hsize & Hcopies & Hpos).
  split; [assumption|]. split; [assumption|]. split; [assumption|].
  split; [assumption|]. split; [assumption|].
  intros -> -> Hu. fold u in Hu.
  rewrite Hcopies, Hcode, Hres, Hu, add_0_r, !add_wrap_l. split; reflexivity.
Qed.

End LayoutOfACall.

(** ** Scenario S4: one page of code per call *)

Ltac div_lia := Z.to_euclidean_division_equations; lia.

Section ScenarioS4.

Variable asserts : bool.
Let pf := scenario_platform asserts.

Lemma sub_add_same b x : SizeT.sub (SizeT.add b x) b = SizeT.wrap x.
Proof.
  unfold SizeT.sub, SizeT.add, SizeT.wrap. rewrite Zminus_mod_idemp_l.
  f_equal. lia.
Qed.

Lemma sub_add_r e p x :
  SizeT.sub e (SizeT.add p x) = SizeT.wrap (SizeT.sub e p - x).
Proof.
  unfold SizeT.sub, SizeT.add, SizeT.wrap.
  rewrite Zminus_mod_idemp_r, Zminus_mod_idemp_l. f_equal. lia.
Qed.

Lemma land_4095_add_page p :
  SizeT.land p 4095 = 0 -> SizeT.land (SizeT.add p 4096) 4095 = 0.
Proof.
  unfold SizeT.land. change 4095 with (2 ^ 12 - 1).
  rewrite !SizeTFacts.land_mask_zero_iff by lia. intros H.
  unfold SizeT.add, SizeT.wrap.
  rewrite Z.mod_mod_divide by (exists (2 ^ 52); reflexivity).
  rewrite Zplus_mod, H. reflexivity.
Qed.

Lemma S4_step n env self :
  0 <= n < 16 -> friendly env -> S4_state n self ->
  exists t self' tr,
    call pf (page_call env) self = Returned (Some t) self' tr /\
    S4_state (n + 1) self'.
Proof.
  intros Hn (Hnz & Hal & Hprot & Hflush) (HB & HM & Hhook & Hcount & Hrem & Hpos).
  assert (Hov : oversize pf self 0 4096 = false).
  { unfold oversize. rewrite HB. reflexivity. }
  assert (Htot : totalSizeOf 0 4096 = 4096) by reflexivity.
  assert (Hpage : pageSizeOf pf 0 0 4096 = 4096) by reflexivity.
  assert (Hmask : page_mask pf = 4095) by reflexivity.
  assert (Hal' : SizeT.land (os_pages env) 4095 = 0).
  { unfold SizeT.land. change 4095 with (2 ^ 12 - 1).
    apply SizeTFacts.land_mask_zero_iff; [lia|exact Hal]. }
  destruct (Z.eq_dec ((- n) mod 4) 0) as [Hfull|Hroom].
  - (* the current block is used up (or there is none): a block is opened *)
    rewrite Hfull in Hrem. cbn in Hrem.
    assert (Hcap : cap_reached self = false).
    { unfold cap_reached. fold (block_count self). rewrite Hcount, HB, HM.
      assert (0 <= (n + 3) / 4 <= 3) by div_lia.
      unfold SizeT.mul, SizeT.add.
      rewrite (SizeTFacts.wrap_small ((n + 3) / 4 + 1))
        by (unfold SizeT.in_range; rewrite SizeTFacts.modulus_eq; lia).
      rewrite SizeTFacts.wrap_small
        by (unfold SizeT.in_range; rewrite SizeTFacts.modulus_eq; lia).
      destruct (Z.gtb_spec (((n + 3) / 4 + 1) * (4 * 4096)) (16 * 4096)); [lia|reflexivity]. }
    set (self1 := on_new_block self (os_pages env)).
    assert (Hrem1 : remaining self1 = 16384).
    { unfold remaining, self1. cbn [blockEnd blockPos on_new_block push_block set_cursor].
      rewrite sub_add_same, HB. reflexivity. }
    do 3 eexists. split.
    + unfold call. cbn [call_env call_data call_dataSize call_code call_codeSize page_call].
      apply allocate_complete.
      eapply (AC_new_block pf env [] 0 page_of_code 4096 self 0 self1).
      * exact Hov.
      * rewrite Htot, Hrem. lia.
      * apply NB_plain; assumption.
      * intros _. rewrite Htot, Hrem1. lia.
      * constructor; try reflexivity.
        intros _. unfold publish_checks. rewrite Hpage, Hmask, Hprot, Hflush.
        cbn [blockPos self1 on_new_block push_block set_cursor].
        rewrite Hal', (land_4095_add_page _ Hal'). reflexivity.
    + rewrite Hpage. unfold S4_state, block_count, remaining.
      cbn [blockSize maxTotalSize createBlockUnwindInfo blocks blockPos blockEnd
           self1 on_new_block push_block set_cursor].
      unfold block_count in Hcount.
      rewrite length_app, Nat2Z.inj_add, Hcount, HB. cbn [length Z.of_nat].
      repeat split; try assumption.
      * cbn. div_lia.
      * rewrite sub_add_r, sub_add_same. change (SizeT.wrap (4 * 4096)) with 16384.
        change (SizeT.wrap (16384 - 4096)) with 12288. div_lia.
      * now apply land_4095_add_page.
  - (* room for at least one more page *)
    assert (Hrem' : 4096 <= remaining self) by div_lia.
    do 3 eexists. split.
    + unfold call. cbn [call_env call_data call_dataSize call_code call_codeSize page_call].
      apply allocate_complete. apply AC_same_block.
      * exact Hov.
      * rewrite Htot. exact Hrem'.
      * constructor; try reflexivity.
        intros _. unfold publish_checks. rewrite Hpage, Hmask, Hprot, Hflush.
        rewrite Hpos, (land_4095_add_page _ Hpos). reflexivity.
    + rewrite Hpage. unfold S4_state, block_count, remaining.
      cbn [blockSize maxTotalSize createBlockUnwindInfo blocks blockPos blockEnd
           set_cursor].
      repeat split; try assumption.
      * unfold block_count in Hcount. rewrite Hcount. div_lia.
      * rewrite sub_add_r. fold (remaining self). rewrite Hrem.
        rewrite SizeTFacts.wrap_small
          by (unfold SizeT.in_range; rewrite SizeTFacts.modulus_eq; div_lia).
        div_lia.
      * now apply land_4095_add_page.
Qed.

Lemma S4_exhausted env self :
  S4_state 16 self ->
  call pf (page_call env) self = Returned None self [].
Proof.
  intros (HB & HM & Hhook & Hcount & Hrem & Hpos).
  unfold call. cbn [call_env call_data call_dataSize call_code call_codeSize page_call].
  apply allocate_complete.
  apply (AC_no_block pf env [] 0 page_of_code 4096 self 0 self []).
  - unfold oversize. rewrite HB. reflexivity.
  - rewrite Hrem. reflexivity.
  - apply NB_cap. unfold cap_reached. fold (block_count self).
    rewrite Hcount, HB, HM. reflexivity.
Qed.


Lemma allocate_all_cons c rest self :
  allocate_all pf (c :: rest) self
  = match call pf c self with
    | Returned r self1 tr1 =>
        match allocate_all pf rest self1 with
        | Returned rs self2 tr2 => Returned (r :: rs) self2 (tr1 ++ tr2)
        | Aborted tr2 => Aborted (tr1 ++ tr2)
        end
    | Aborted tr1 => Aborted tr1
    end.
Proof.
  cbn [allocate_all]. unfold bind, ret.
  destruct (call pf c self) as [r s1 t1|t1]; [|reflexivity].
  destruct (allocate_all pf rest s1) as [rs s2 t2|t2]; [|reflexivity].
  now rewrite app_nil_r.
Qed.

Lemma S4_run envs : forall n self,
  0 <= n <= 16 -> Forall friendly envs -> S4_state n self ->
  exists rs self' tr,
    allocate_all pf (map page_call envs) self = Returned rs self' tr /\
    length rs = length envs /\
    (forall i r, nth_error rs i = Some r ->
                 (r <> None <-> n + Z.of_nat i < 16)) /\
    S4_state (Z.min (n + Z.of_nat (length envs)) 16) self'.
Proof.
  induction envs as [|env envs IH]; intros n self Hn Hfr Hst.
  - exists [], self, []. split; [reflexivity|]. split; [reflexivity|]. split.
    + intros i r Hi. destruct i; discriminate.
    + cbn [length Z.of_nat]. now replace (Z.min (n + 0) 16) with n by lia.
  - inversion Hfr as [|e es He Hes]; subst. cbn [map].
    rewrite allocate_all_cons.
    destruct (Z.eq_dec n 16) as [->|Hlt].
    + rewrite (S4_exhausted env self Hst).
      destruct (IH 16 self ltac:(lia) Hes Hst) as (rs & s' & tr & E & Hlen & Hrs & Hs').
      rewrite E. exists (None :: rs), s', ([] ++ tr).
      split; [reflexivity|]. split; [cbn; now rewrite Hlen|]. split.
      * intros i r Hi. destruct i as [|i]; cbn in Hi.
        -- injection Hi as <-. split; [intros Hc; now contradiction Hc|lia].
        -- destruct (Hrs i r Hi) as [A B].
           split; [intros Hr; apply A in Hr; lia|intros Hc; apply B; lia].
      * replace (Z.min (16 + Z.of_nat (length (env :: envs))) 16)
          with (Z.min (16 + Z.of_nat (length envs)) 16) by lia.
        exact Hs'.
    + destruct (S4_step n env self ltac:(lia) He Hst) as (t & s1 & tr1 & E1 & Hs1).
      rewrite E1.
      destruct (IH (n + 1) s1 ltac:(lia) Hes Hs1) as (rs & s' & tr & E & Hlen & Hrs & Hs').
      rewrite E. exists (Some t :: rs), s', (tr1 ++ tr).
      split; [reflexivity|]. split; [cbn; now rewrite Hlen|]. split.
      * intros i r Hi. destruct i as [|i]; cbn in Hi.
        -- injection Hi as <-. split; [lia|discriminate].
        -- destruct (Hrs i r Hi) as [A B].
           split; [intros Hr; apply A in Hr; lia|intros Hc; apply B; lia].
      * replace (Z.min (n + Z.of_nat (length (env :: envs))) 16)
          with (Z.min (n + 1 + Z.of_nat (length envs)) 16)
          by (cbn [length]; lia).
        exact Hs'.
Qed.

(** C3, as amended. In the scenario (pages of 4096 bytes, blocks of four
    pages, sixteen pages at most, no callbacks) with an operating system that
    hands out page-aligned blocks, repeated calls for 4096 bytes of code
    return [true] exactly for the first sixteen; a block is opened for every
    fourth call, so the first four calls share one block, the fifth opens the
    second, and the seventeenth is the first to be refused. *)
Theorem S4_sixteen_pages_then_refusal envs :
  Forall friendly envs ->
  exists rs self' tr,
    allocate_all pf (map page_call envs) scenario_allocator
      = Returned rs self' tr /\
    length rs = length envs /\
    (forall i r, nth_error rs i = Some r -> (r <> None <-> (i < 16)%nat)) /\
    block_count self' = (Z.min (Z.of_nat (length envs)) 16 + 3) / 4.
Proof.
  intros Hfr.
  assert (H0 : S4_state 0 scenario_allocator) by (repeat split).
  destruct (S4_run envs 0 scenario_allocator ltac:(lia) Hfr H0)
    as (rs & s' & tr & E & Hlen & Hrs & Hs').
  exists rs, s', tr.
  split; [assumption|]. split; [assumption|]. split.
  - intros i r Hi. destruct (Hrs i r Hi) as [A B].
    split; [intros Hr; apply A in Hr; lia|intros Hc; apply B; lia].
  - destruct Hs' as (_ & _ & _ & Hc & _). exact Hc.
Qed.

End ScenarioS4.

(** ** The theorems at concrete inputs *)

(** C3 as stated fails: with the first block at 65536 the first four calls
    share that block and the fifth call returns [true] from a second block. *)
Lemma fifth_call_succeeds :
  results_of (allocate_all (scenario_platform true) five_calls scenario_allocator)
  = Some [Some (65536, 4096, 65536); Some (69632, 4096, 69632);
          Some (73728, 4096, 73728); Some (77824, 4096, 77824);
          Some (327680, 4096, 327680)] /\
  option_map blocks
    (state_of (allocate_all (scenario_platform true) (firstn 4 five_calls)
                 scenario_allocator))
  = Some [65536].
Proof. split; vm_compute; reflexivity. Qed.

Lemma S4_sixteen_pages_then_refusal_witness :
  exists rs self' tr,
    allocate_all (scenario_platform true) (map page_call seventeen_envs)
      scenario_allocator
      = Returned rs self' tr /\
    length rs = length seventeen_envs /\
    (forall i r, nth_error rs i = Some r -> (r <> None <-> (i < 16)%nat)) /\
    block_count self' = (Z.min (Z.of_nat (length seventeen_envs)) 16 + 3) / 4.
Proof.
  apply (S4_sixteen_pages_then_refusal true seventeen_envs).
  unfold seventeen_envs. cbn [map].
  repeat (constructor;
          [repeat split; solve [discriminate | reflexivity]|]).
  constructor.
Defined.

Lemma cap_is_hard_bound_witness :
  block_count after_S1 * blockSize after_S1 <= maxTotalSize after_S1 /\
  forall env u,
    allocateNewBlock (scenario_platform true) env u after_S1
      = Returned (false, u) after_S1 [] <->
    (block_count after_S1 + 1) * blockSize after_S1 > maxTotalSize after_S1.
Proof.
  apply (cap_is_hard_bound (scenario_platform true) scenario_allocator after_S1
           [(65536, 17, 65536)]).
  - repeat split.
  - repeat split; vm_compute; congruence.
  - eapply (Run_allocated _ _ _ scenario_allocator [] S1_call).
    + apply Run_start.
    + exact I.
    + vm_compute. reflexivity.
Defined.

(** The first call on the allocator with callbacks: the create callback
    reports 40 bytes, the block starts at 65536, and [result] is
    65536 + 48. *)
Lemma allocate_results_aligned_witness :
  65584 mod 16 = 0 /\
  65584 mod 16 = 0 /\
  65584 = SizeT.add 65536 (roundUp16 40) /\
  65584 = 65536 + 16 * ((40 + 15) / 16) /\
  40 <= 65584 - 65536 < 40 + 16.
Proof.
  destruct (allocate_results_aligned (scenario_platform true) eq_refl
              hooked_allocator hooked_allocator []
              (hook_env 65536 99 40) [] 0 [xc3] 1
              65584 1 65584 after_hooked hooked_trace) as (A & B & C & D).
  - repeat split.
  - apply Run_start.
  - reflexivity.
  - vm_compute. reflexivity.
  - split; [exact A|]. split; [exact B|]. split.
    + apply C; reflexivity.
    + apply D; try reflexivity; vm_compute; congruence.
Defined.

(** Scenario S2 after S1: the three data bytes go to offset 13 from the
    returned base and the code starts at base + 16, in the first block. *)
Lemma allocate_layout_witness :
  filter is_memcpy S2_trace
  = [EvMemcpy (SizeT.add 69632 13) [xaa; xaa; xaa] 3;
     EvMemcpy (SizeT.add 69632 16) [xc3] 1] /\
  69648 = SizeT.add 69632 16.
Proof.
  refine (proj2 (proj2 (proj2 (proj2 (proj2
            (allocate_layout (scenario_platform true)
               (friendly_env 0) [xaa; xaa; xaa] 3 [xc3] 1 after_S1
               69632 17 69648 after_S2 S2_trace _))))) eq_refl eq_refl eq_refl).
  vm_compute. reflexivity.
Defined.

(** C7 as stated fails: a request of no bytes on an allocator without blocks
    returns [true] with a null [result], which lies in no block. *)
Lemma empty_request_outside_blocks :
  allocate (scenario_platform true) (friendly_env 65536) [] 0 [] 0
    scenario_allocator
  = Returned (Some (0, 0, 0)) scenario_allocator
      [EvMakePagesExecutable 0 0; EvFlushInstructionCache 0 0] /\
  ~ (exists b, In b (blocks scenario_allocator) /\
               b <= 0 < b + blockSize scenario_allocator).
Proof.
  split; [vm_compute; reflexivity|].
  intros (b & Hin & _). exact Hin.
Qed.

Lemma returned_ranges_disjoint_in_blocks_witness :
  let hist := [(69632, 17, 69648); (65536, 17, 65536)] in
  (forall i j t1 t2, i <> j ->
     nth_error hist i = Some t1 -> nth_error hist j = Some t2 ->
     ranges_disjoint t1 t2) /\
  (forall result resultSize resultCodeStart,
     In (result, resultSize, resultCodeStart) hist -> 0 < resultSize ->
     (exists b, inside_block after_S2 result (result + resultSize) b /\
                forall b', inside_block after_S2 result (result + resultSize) b' ->
                           b' = b) /\
     result <= resultCodeStart <= result + resultSize).
Proof.
  apply (returned_ranges_disjoint_in_blocks (scenario_platform true)
           scenario_allocator after_S2).
  - repeat split.
  - split; [exists 12; split; [lia|reflexivity]|].
    repeat split; vm_compute; congruence.
  - eapply (Run_allocated _ _ _ after_S1 [(65536, 17, 65536)] S2_call).
    + eapply (Run_allocated _ _ _ scenario_allocator [] S1_call).
      * apply Run_start.
      * split; [right; repeat split; try (vm_compute; congruence);
                intros b' []|].
        repeat split; vm_compute; congruence.
      * vm_compute. reflexivity.
    + split; [left; reflexivity|].
      repeat split; vm_compute; congruence.
    + vm_compute. reflexivity.
Defined.

Lemma destructor_destroys_then_frees_witness :
  exists released,
    trace_of (destructor (scenario_platform true) (fun _ => true) torn_down)
      = destroy_calls torn_down ++ free_calls torn_down released /\
    (exists rest, blocks torn_down = released ++ rest) /\
    (forall i j e d,
        nth_error (trace_of (destructor (scenario_platform true)
                               (fun _ => true) torn_down)) i = Some e ->
        nth_error (trace_of (destructor (scenario_platform true)
                               (fun _ => true) torn_down)) j = Some d ->
        is_free e = true -> is_destroy d = true -> (j < i)%nat) /\
    ((assertsEnabled (scenario_platform true) = false \/
      forall b, In b (blocks torn_down) -> (fun _ : Z => true) b = true) ->
     destructor (scenario_platform true) (fun _ => true) torn_down
       = Returned tt torn_down
           (destroy_calls torn_down ++ free_calls torn_down (blocks torn_down))).
Proof.
  apply (destructor_destroys_then_frees (scenario_platform true)
           (fun _ => true) torn_down).
  reflexivity.
Defined.

(** * Further properties of the code *)

(** ** Page arithmetic and the footprint of a call *)

Section Pages.

Variable pf : Platform.
Variable k : Z.
Hypothesis k_range : 0 <= k < 64.
Hypothesis page_pow2 : kPageSize pf = 2 ^ k.




Lemma land_page_mask_iff x :
  SizeT.land x (page_mask pf) = 0 <-> x mod kPageSize pf = 0.
Proof.
  rewrite (page_mask_eq pf k k_range page_pow2), page_pow2.
  apply SizeTFacts.land_mask_zero_iff. lia.
Qed.

Lemma modulus_page_multiple : SizeT.modulus mod kPageSize pf = 0.
Proof.
  rewrite page_pow2. unfold SizeT.modulus, SizeT.bits.
  replace 64 with ((64 - k) + k) by lia.
  rewrite Z.pow_add_r by lia. apply Z.mod_mul.
  apply Z.pow_nonzero; lia.
Qed.

Lemma alignToPageSize_fixed m :
  0 <= m -> m < SizeT.modulus -> m mod kPageSize pf = 0 ->
  alignToPageSize pf m = m.
Proof.
  intros H0 H1 Hm.
  assert (Hroom : m + kPageSize pf <= SizeT.modulus).
  { pose proof modulus_page_multiple as HM.
    pose proof (page_pos pf k k_range page_pow2) as Hp.
    apply Z.mod_divide in Hm; [|lia]. apply Z.mod_divide in HM; [|lia].
    destruct Hm as [a ->]. destruct HM as [q Hq]. rewrite Hq in *.
    assert (a < q) by nia. nia. }
  destruct (alignToPageSize_bounds pf k k_range page_pow2 m H0 Hroom) as [Hb Hal].
  apply Z.mod_divide in Hm; [|lia]. apply Z.mod_divide in Hal; [|lia].
  destruct Hm as [a Ha]. destruct Hal as [b Hb2]. rewrite Ha, Hb2 in *.
  assert (b < a + 1) by nia. nia.
Qed.

(** The step of the cursor when [u + total] bytes are laid out at the cursor
    of a state that satisfies the invariant and has room for them. *)
Lemma page_step self hist u total :
  blockSize self mod kPageSize pf = 0 ->
  Inv pf self hist ->
  0 <= u -> 0 <= total ->
  u + total <= blockEnd self - blockPos self ->
  let pos := blockPos self in
  let page := alignToPageSize pf (SizeT.add u total) in
  SizeT.add u total = u + total /\
  u + total <= page /\ page mod kPageSize pf = 0 /\
  (0 < u + total -> kPageSize pf <= page) /\
  pos mod kPageSize pf = 0 /\
  0 <= pos /\ pos + page <= blockEnd self /\ blockEnd self < SizeT.modulus /\
  SizeT.add pos page = pos + page /\
  alignToPageSize pf page = page.
Proof.
  intros HB [Hbl Hap Hcur Hh Hd] Hu Ht Hroom pos page. subst pos page.
  destruct Hcur as [(Hnil & Hpos & Hend) | (b & Hin & Hb & Hend & Hal0)].
  - rewrite Hpos, Hend in *.
    assert (u = 0 /\ total = 0) as [-> ->] by lia.
    change (SizeT.add 0 0) with 0. rewrite alignToPageSize_0.
    pose proof SizeTFacts.modulus_pos.
    repeat split; try lia; try reflexivity. apply alignToPageSize_0.
  - destruct (Hbl b Hin) as (Hb0 & Hb1 & Hbm).
    pose proof (aligned_pos_ge_page pf k k_range page_pow2 b Hb0 Hbm) as Hbp.
    assert (Hsum : SizeT.add u total = u + total).
    { apply SizeTFacts.wrap_small. split; lia. }
    rewrite Hsum.
    assert (Hroom_al : (blockEnd self - blockPos self) mod kPageSize pf = 0).
    { rewrite Hend. apply (mod_page_sub pf k); try assumption.
      apply (mod_page_add pf k); assumption. }
    assert (Hpage_le : alignToPageSize pf (u + total)
                       <= blockEnd self - blockPos self).
    { apply (alignToPageSize_le pf k); try assumption; lia. }
    destruct (alignToPageSize_bounds pf k k_range page_pow2 (u + total))
      as [[Hpg0 Hpg1] Hpgm]; [lia|lia|].
    split; [reflexivity|]. split; [assumption|]. split; [assumption|]. split.
    { intros Hpos. apply Z.mod_divide in Hpgm; [|lia].
      destruct Hpgm as [q Hq]. rewrite Hq in *. assert (0 < q) by nia. nia. }
    split; [assumption|]. split; [lia|]. split; [lia|]. split; [lia|]. split.
    + apply SizeTFacts.wrap_small. split; lia.
    + apply alignToPageSize_fixed; try assumption; lia.
Qed.

Lemma publish_checks_ok self hist env u dataSize codeSize :
  blockSize self mod kPageSize pf = 0 ->
  Inv pf self hist ->
  0 <= u ->
  u + totalSizeOf dataSize codeSize <= blockEnd self - blockPos self ->
  os_obliges env ->
  publish_checks pf env (blockPos self) (pageSizeOf pf u dataSize codeSize) = true.
Proof.
  intros HB HI Hu Hroom [Hprot Hflush].
  pose proof (SizeTFacts.wrap_range (alignedDataSizeOf dataSize + codeSize)) as [Ht _].
  fold (SizeT.add (alignedDataSizeOf dataSize) codeSize) in Ht.
  fold (totalSizeOf dataSize codeSize) in Ht.
  destruct (page_step self hist u (totalSizeOf dataSize codeSize) HB HI Hu Ht Hroom)
    as (_ & _ & Hpm & _ & Hposm & _ & _ & _ & Hadd & Hfix).
  unfold publish_checks, pageSizeOf. rewrite Hprot, Hflush, Hfix, Hadd.
  apply land_page_mask_iff in Hposm. rewrite Hposm.
  assert (E : SizeT.land (blockPos self +
                alignToPageSize pf (SizeT.add u (totalSizeOf dataSize codeSize)))
                (page_mask pf) = 0).
  { apply land_page_mask_iff. apply (mod_page_add pf k); try assumption.
    now apply land_page_mask_iff. }
  rewrite E, !Z.eqb_refl. reflexivity.
Qed.


Lemma total_nonneg dataSize codeSize : 0 <= totalSizeOf dataSize codeSize.
Proof. apply SizeTFacts.wrap_range. Qed.

Lemma not_oversize self dataSize codeSize :
  0 <= kMaxUnwindDataSize pf < blockSize self ->
  blockSize self < SizeT.modulus ->
  oversize pf self dataSize codeSize = false ->
  totalSizeOf dataSize codeSize <= blockSize self - kMaxUnwindDataSize pf.
Proof.
  intros HK HB Hov. unfold oversize, SizeT.sub in Hov.
  rewrite (SizeTFacts.wrap_small (blockSize self - kMaxUnwindDataSize pf))
    in Hov by (split; lia).
  destruct (Z.gtb_spec (totalSizeOf dataSize codeSize)
              (blockSize self - kMaxUnwindDataSize pf)); [discriminate|lia].
Qed.

Lemma Published_exists env self hist u data dataSize code codeSize :
  blockSize self mod kPageSize pf = 0 ->
  Inv pf self hist ->
  0 <= u ->
  u + totalSizeOf dataSize codeSize <= blockEnd self - blockPos self ->
  os_obliges env ->
  exists r self' tr,
    Published pf env self u data dataSize code codeSize r self' tr.
Proof.
  intros HB HI Hu Hroom Hos. do 3 eexists.
  constructor; try reflexivity.
  intros _. eapply publish_checks_ok; eassumption.
Qed.

Lemma call_returns self hist c :
  blockSize self mod kPageSize pf = 0 ->
  0 <= kMaxUnwindDataSize pf < blockSize self ->
  blockSize self < SizeT.modulus ->
  Inv pf self hist ->
  well_behaved pf self c ->
  os_obliges (call_env c) ->
  exists r self' tr, call pf c self = Returned r self' tr.
Proof.
  intros HBm HK HBr HI (Hos & Hhook & Hcs & Hnov) Hobl. unfold call.
  set (env := call_env c) in *. set (ds := call_dataSize c) in *.
  set (cs := call_codeSize c) in *.
  assert (Hrem : remaining self = blockEnd self - blockPos self)
    by (eapply (remaining_of_Inv pf k); eassumption).
  destruct (oversize pf self ds cs) eqn:Hov.
  { do 3 eexists. apply allocate_complete. now apply AC_oversize. }
  pose proof (not_oversize self ds cs HK HBr Hov) as Hfit.
  destruct (Z_le_gt_dec (totalSizeOf ds cs) (remaining self)) as [Hle|Hgt].
  { destruct (Published_exists env self hist 0 (call_data c) ds (call_code c) cs)
      as (r & s' & tr & Hp); try assumption; try lia.
    exists r, s', tr. apply allocate_complete. now apply AC_same_block. }
  assert (Hnew : forall ok u s1 t1,
             NewBlockCase pf env 0 self (ok, u) s1 t1 ->
             exists r self' tr,
               allocate pf env (call_data c) ds (call_code c) cs self
               = Returned r self' tr).
  { intros ok u s1 t1 Hc.
    assert (Hstep : Inv pf s1 hist /\
                    (ok = true ->
                     0 <= u <= kMaxUnwindDataSize pf /\
                     blockEnd s1 - blockPos s1 = blockSize self))
      by (eapply (NewBlockCase_Inv pf k); eassumption).
    destruct Hstep as [HI1 Hu].
    destruct ok.
    - destruct (Hu eq_refl) as [Hu0 Hroom].
      pose proof (NewBlockCase_blockSize pf _ _ _ _ _ _ Hc) as Hbs.
      destruct (Published_exists env s1 hist u (call_data c) ds (call_code c) cs)
        as (r & s' & tr & Hp); try assumption; try lia.
      { now rewrite Hbs. }
      exists r, s', (t1 ++ tr). apply allocate_complete.
      eapply AC_new_block; try eassumption.
      intros _.
      assert (Hrem1 : remaining s1 = blockEnd s1 - blockPos s1)
        by (eapply (remaining_of_Inv pf k); eassumption).
      rewrite Hrem1. lia.
    - exists None, s1, t1. apply allocate_complete.
      eapply AC_no_block; eassumption. }
  destruct (cap_reached self) eqn:Hcap.
  { eapply Hnew. now apply NB_cap. }
  destruct (Z.eq_dec (os_pages env) 0) as [Hz|Hnz].
  { eapply Hnew. now apply NB_no_pages. }
  destruct (createBlockUnwindInfo self) eqn:Hcr.
  2:{ eapply Hnew. now apply NB_plain. }
  destruct (Z.eq_dec (hook_info env) 0) as [Hi|Hi].
  - eapply Hnew. apply NB_hook_null; auto.
  - eapply Hnew. apply NB_hook; auto.
Qed.




Lemma NewBlockCase_requests env u0 self r self1 tr :
  NewBlockCase pf env u0 self r self1 tr ->
  Forall (fun e => is_request e = true) tr.
Proof. intros H. destruct H; repeat constructor. Qed.

Lemma call_refused_trace c self self' tr :
  call pf c self = Returned None self' tr ->
  Forall (fun e => is_request e = true) tr.
Proof.
  unfold call. intros H. apply allocate_inv in H.
  inversion H as [Hov | r s t Hov Hle Hp | u s1 t1 Hov Hgt Hc
                 | u s1 t1 r s t2 Hov Hgt Hc Has Hp]; subst.
  - constructor.
  - destruct Hp as [_ Hr _ _]. discriminate.
  - eapply NewBlockCase_requests; eassumption.
  - destruct Hp as [_ Hr _ _]. discriminate.
Qed.

(** A call that returns [true]: the state [self1] at which it lays out (the
    state of the call, or the one after a block was opened), with the
    requests [pre] made to open the block. *)
Lemma call_layout self hist c t self' tr :
  blockSize self mod kPageSize pf = 0 ->
  0 <= kMaxUnwindDataSize pf < blockSize self ->
  blockSize self < SizeT.modulus ->
  Inv pf self hist ->
  well_behaved pf self c ->
  call pf c self = Returned (Some t) self' tr ->
  exists self1 pre u body,
    tr = pre ++ body /\
    Forall (fun e => is_request e = true) pre /\
    Inv pf self1 hist /\
    blockSize self1 = blockSize self /\
    ((self1 = self /\ pre = []) \/
     (fresh_block pf self (blockPos self1) /\
      blocks self1 = blocks self ++ [blockPos self1] /\
      blockEnd self1 = blockPos self1 + blockSize self)) /\
    (forall ctx b sz info w,
        In (EvCreateBlockUnwindInfo ctx b sz info w) pre ->
        b = blockPos self1 /\ roundUp16 w = u) /\
    Published pf (call_env c) self1 u (call_data c) (call_dataSize c)
      (call_code c) (call_codeSize c) (Some t) self' body /\
    0 <= u /\
    u + totalSizeOf (call_dataSize c) (call_codeSize c)
      <= blockEnd self1 - blockPos self1.
Proof.
  intros HBm HK HBr HI (Hos & Hhook & Hcs & Hnov) H.
  unfold call in H. apply allocate_inv in H.
  assert (Hrem : remaining self = blockEnd self - blockPos self)
    by (eapply (remaining_of_Inv pf k); eassumption).
  inversion H as [Hov | r s t0 Hov Hle Hp | u s1 t1 Hov Hgt Hc
                 | u s1 t1 r s t2 Hov Hgt Hc Has Hp]; subst.
  - exists self, [], 0, tr.
    split; [reflexivity|]. split; [constructor|]. split; [assumption|].
    split; [reflexivity|]. split; [left; split; reflexivity|].
    split; [intros ctx b sz info w []|].
    split; [assumption|]. split; lia.
  - assert (Hstep : Inv pf s1 hist /\
                    (true = true ->
                     0 <= u <= kMaxUnwindDataSize pf /\
                     blockEnd s1 - blockPos s1 = blockSize self))
      by (eapply (NewBlockCase_Inv pf k); eassumption).
    destruct Hstep as [HI1 Hu]. destruct (Hu eq_refl) as [Hu0 Hroom].
    pose proof (not_oversize self _ _ HK HBr Hov) as Hfit.
    exists s1, t1, u, t2.
    split; [reflexivity|].
    split; [eapply NewBlockCase_requests; eassumption|].
    split; [assumption|].
    split; [eapply NewBlockCase_blockSize; eassumption|].
    split; [|split; [|split; [assumption|split; lia]]].
    + right.
      inversion Hc as [C | C P | C P F | C P F I A | C P F I A]; subst;
        (destruct Hos as [Hos|Hos]; [contradiction|]);
        cbn [blockPos blockEnd blocks on_new_block push_block set_cursor
             push_unwindInfo];
        (split; [exact Hos|]; split; [reflexivity|];
         destruct Hos as (? & ? & _);
         apply SizeTFacts.wrap_small; split; lia).
    + intros ctx b sz info w Hin.
      inversion Hc as [C | C P | C P F | C P F I A | C P F I A]; subst;
        unfold pages_request, hook_request in Hin;
        cbn [blockPos on_new_block push_block set_cursor push_unwindInfo];
        cbn [In] in Hin;
        repeat match type of Hin with
               | _ \/ _ => destruct Hin as [Hin|Hin]
               | False => destruct Hin
               | EvAllocatePages _ _ = _ => discriminate Hin
               end.
      injection Hin as <- <- <- <- <-. split; reflexivity.
Qed.


Lemma offsets_exact u dataSize codeSize :
  0 <= u -> 0 <= dataSize -> dataSize + 15 < SizeT.modulus ->
  0 <= codeSize -> roundUp16 dataSize + codeSize < SizeT.modulus ->
  u + totalSizeOf dataSize codeSize < SizeT.modulus ->
  totalSizeOf dataSize codeSize = roundUp16 dataSize + codeSize /\
  dataSize <= roundUp16 dataSize /\
  codeOffsetOf u dataSize = u + roundUp16 dataSize /\
  dataOffsetOf u dataSize = u + roundUp16 dataSize - dataSize.
Proof.
  intros Hu Hd Hd15 Hc Hnov Hsum.
  destruct (roundUp16_exact dataSize Hd Hd15) as [_ Hb].
  assert (Ht : totalSizeOf dataSize codeSize = roundUp16 dataSize + codeSize).
  { unfold totalSizeOf, alignedDataSizeOf, SizeT.add.
    apply SizeTFacts.wrap_small. split; lia. }
  rewrite Ht in Hsum.
  split; [assumption|]. split; [lia|].
  unfold dataOffsetOf, codeOffsetOf, alignedDataSizeOf, SizeT.sub, SizeT.add.
  rewrite (SizeTFacts.wrap_small (u + roundUp16 dataSize)) by (split; lia).
  split; [reflexivity|]. apply SizeTFacts.wrap_small. split; lia.
Qed.

Lemma call_footprint self hist c t self' tr :
  blockSize self mod kPageSize pf = 0 ->
  0 <= kMaxUnwindDataSize pf < blockSize self ->
  blockSize self < SizeT.modulus ->
  Inv pf self hist ->
  sane_request pf self c ->
  call pf c self = Returned (Some t) self' tr ->
  exists pre pos page u,
    tr = pre
         ++ copies pos u (call_data c) (call_dataSize c)
              (call_code c) (call_codeSize c)
         ++ [EvMakePagesExecutable pos page;
             EvFlushInstructionCache (snd t) (call_codeSize c)] /\
    Forall (fun e => is_request e = true) pre /\
    t = (pos + u, totalSizeOf (call_dataSize c) (call_codeSize c),
         pos + u + roundUp16 (call_dataSize c)) /\
    0 <= u /\ 0 <= pos /\
    u + totalSizeOf (call_dataSize c) (call_codeSize c) <= page /\
    page mod kPageSize pf = 0 /\
    (0 < u + totalSizeOf (call_dataSize c) (call_codeSize c) ->
     kPageSize pf <= page) /\
    blockPos self' = pos + page /\
    pos + page <= blockEnd self' /\
    (0 < page -> exists b, inside_block self' pos (pos + page) b) /\
    (forall m sz, 0 < sz ->
       (exists b, inside_block self m (m + sz) b) ->
       m + sz <= blockPos self \/ blockEnd self <= m ->
       m + sz <= pos \/ pos + page <= m) /\
    (forall dst src n,
       In (EvMemcpy dst src n)
          (copies pos u (call_data c) (call_dataSize c)
             (call_code c) (call_codeSize c)) ->
       0 < n /\ pos <= dst /\ dst + n <= pos + page) /\
    (forall ctx b sz info w,
        In (EvCreateBlockUnwindInfo ctx b sz info w) tr ->
        b = pos /\ roundUp16 w = u).
Proof.
  intros HBm HK HBr HI (Hwb & Hd0 & Hd15) H.
  pose proof Hwb as (_ & _ & Hcs & Hnov).
  destruct (call_layout self hist c t self' tr HBm HK HBr HI Hwb H)
    as (s1 & pre & u & body & Htr & Hpre & HI1 & Hbs & Hwhere & Hprel & Hp & Hu
        & Hroom).
  set (ds := call_dataSize c) in *. set (cs := call_codeSize c) in *.
  pose proof (total_nonneg ds cs) as Ht0.
  assert (HBm1 : blockSize s1 mod kPageSize pf = 0) by now rewrite Hbs.
  destruct (page_step s1 hist u (totalSizeOf ds cs) HBm1 HI1 Hu Ht0 Hroom)
    as (Hsum & Hle & Hpm & Hpp & Hposm & Hpos0 & Hend & Hendr & Hadd & _).
  fold (pageSizeOf pf u ds cs) in *.
  set (page := pageSizeOf pf u ds cs) in *. set (pos := blockPos s1) in *.
  destruct (offsets_exact u ds cs Hu Hd0 Hd15 Hcs Hnov ltac:(lia))
    as (Htot & Hdle & Hco & Hdo).
  destruct Hp as [_ Hr Hs Hb]. injection Hr as Ht. fold pos in Ht, Hs, Hb.
  assert (Hres : SizeT.add pos u = pos + u)
    by (apply SizeTFacts.wrap_small; split; lia).
  assert (Hcode : SizeT.add pos (codeOffsetOf u ds) = pos + u + roundUp16 ds).
  { rewrite Hco. unfold SizeT.add.
    rewrite SizeTFacts.wrap_small by (split; lia). lia. }
  rewrite Hres, Hcode in Ht. rewrite Hcode in Hb. fold page in Hb, Hs.
  exists pre, pos, page, u.
  split. { rewrite Htr, Hb, Ht. reflexivity. }
  split; [assumption|]. split; [assumption|]. split; [assumption|].
  split; [assumption|]. split; [assumption|]. split; [assumption|].
  split; [assumption|].
  rewrite Hs. cbn [blockPos blockEnd blocks set_cursor]. rewrite Hadd.
  split; [reflexivity|]. split; [assumption|]. split; [|split; [|split]].
  4:{ intros ctx b sz info w Hin. rewrite Htr, Hb in Hin.
      apply in_app_or in Hin as [Hin|Hin]; [now apply (Hprel ctx b sz info w)|].
      apply in_app_or in Hin as [Hin|Hin].
      - unfold copies in Hin. destruct (ds =? 0), (cs =? 0); cbn in Hin;
          repeat (destruct Hin as [Hin|Hin]; [discriminate|]); destruct Hin.
      - repeat (destruct Hin as [Hin|Hin]; [discriminate|]). destruct Hin. }
  - intros Hpg. destruct HI1 as [_ _ Hcur _ _].
    destruct Hcur as [(_ & Hp0 & He0) | (b & Hin & Hbb & Hbe & _)].
    + fold pos in Hp0. lia.
    + exists b. unfold inside_block. cbn [blocks blockSize set_cursor].
      fold pos in Hbb. repeat split; try assumption; lia.
  - intros m sz Hsz (b & Hin & Hlo & Hhi) Hside.
    destruct Hwhere as [[-> _] | (Hfresh & _ & Hbe)].
    + fold pos in Hside. lia.
    + fold pos in Hfresh, Hbe. destruct Hfresh as (_ & _ & _ & Hfar).
      destruct (Hfar b Hin); lia.
  - intros dst src n Hin. unfold copies in Hin.
    apply in_app_or in Hin as [Hin|Hin].
    + destruct (Z.eqb_spec ds 0) as [E|E]; [destruct Hin|].
      destruct Hin as [Hin|[]]. injection Hin as <- <- <-.
      rewrite Hdo. unfold SizeT.add.
      rewrite SizeTFacts.wrap_small by (split; lia). lia.
    + destruct (Z.eqb_spec cs 0) as [E|E]; [destruct Hin|].
      destruct Hin as [Hin|[]]. injection Hin as <- <- <-.
      rewrite Hcode. lia.
Qed.




Lemma requests_no_memcpy pre :
  Forall (fun e => is_request e = true) pre -> filter is_memcpy pre = [].
Proof.
  induction 1 as [|e pre He _ IH]; [reflexivity|].
  cbn [filter]. rewrite IH. destruct e; try discriminate; reflexivity.
Qed.

(** The copies of a call that returns [true], at the addresses the call
    returns. *)
Lemma call_copies self hist c t self' tr :
  blockSize self mod kPageSize pf = 0 ->
  0 <= kMaxUnwindDataSize pf < blockSize self ->
  blockSize self < SizeT.modulus ->
  Inv pf self hist ->
  sane_request pf self c ->
  call pf c self = Returned (Some t) self' tr ->
  filter is_memcpy tr
  = (if call_dataSize c =? 0 then []
     else [EvMemcpy (snd t - call_dataSize c) (call_data c) (call_dataSize c)])
    ++ (if call_codeSize c =? 0 then []
        else [EvMemcpy (snd t) (call_code c) (call_codeSize c)]) /\
  snd t = fst (fst t) + roundUp16 (call_dataSize c) /\
  snd (fst t) = roundUp16 (call_dataSize c) + call_codeSize c.
Proof.
  intros HBm HK HBr HI (Hwb & Hd0 & Hd15) H.
  pose proof Hwb as (_ & _ & Hcs & Hnov).
  destruct (call_layout self hist c t self' tr HBm HK HBr HI Hwb H)
    as (s1 & pre & u & body & Htr & Hpre & HI1 & Hbs & Hwhere & Hprel & Hp & Hu
        & Hroom).
  set (ds := call_dataSize c) in *. set (cs := call_codeSize c) in *.
  pose proof (total_nonneg ds cs) as Ht0.
  assert (HBm1 : blockSize s1 mod kPageSize pf = 0) by now rewrite Hbs.
  destruct (page_step s1 hist u (totalSizeOf ds cs) HBm1 HI1 Hu Ht0 Hroom)
    as (Hsum & Hle & Hpm & Hpp & Hposm & Hpos0 & Hend & Hendr & Hadd & _).
  fold (pageSizeOf pf u ds cs) in *.
  set (page := pageSizeOf pf u ds cs) in *. set (pos := blockPos s1) in *.
  destruct (offsets_exact u ds cs Hu Hd0 Hd15 Hcs Hnov ltac:(lia))
    as (Htot & Hdle & Hco & Hdo).
  destruct Hp as [_ Hr Hs Hb]. injection Hr as Ht. fold pos in Ht, Hs, Hb.
  assert (Hres : SizeT.add pos u = pos + u)
    by (apply SizeTFacts.wrap_small; split; lia).
  assert (Hcode : SizeT.add pos (codeOffsetOf u ds) = pos + u + roundUp16 ds).
  { rewrite Hco. unfold SizeT.add.
    rewrite SizeTFacts.wrap_small by (split; lia). lia. }
  assert (Hdata : SizeT.add pos (dataOffsetOf u ds)
                  = pos + u + roundUp16 ds - ds).
  { rewrite Hdo. unfold SizeT.add.
    rewrite SizeTFacts.wrap_small by (split; lia). lia. }
  rewrite Hres, Hcode in Ht. subst t. cbn [fst snd].
  split; [|split; [lia|exact Htot]].
  rewrite Htr, Hb, !filter_app, (requests_no_memcpy pre Hpre),
    filter_memcpy_copies.
  cbn [filter is_memcpy app]. rewrite app_nil_r.
  unfold copies. rewrite Hdata, Hcode.
  reflexivity.
Qed.

Lemma settled_step self hist c r self' tr m sz :
  blockSize self mod kPageSize pf = 0 ->
  0 <= kMaxUnwindDataSize pf < blockSize self ->
  blockSize self < SizeT.modulus ->
  Inv pf self hist ->
  well_behaved pf self c ->
  call pf c self = Returned r self' tr ->
  0 < sz -> settled self m sz -> settled self' m sz.
Proof.
  intros HBm HK HBr [Hbl Hap Hcur _ _] Hwb H Hsz [Hin Hside].
  assert (HI1 : Inv pf self [(m, sz, m)]).
  { constructor; try assumption.
    - intros r0 n c0 [E|[]]. injection E as <- <- <-.
      split; [lia|]. intros _. split; [assumption|]. split; [assumption|lia].
    - repeat constructor. }
  assert (HI2 : Inv pf self'
                  (match r with Some t => t :: [(m, sz, m)] | None => [(m, sz, m)] end)).
  { eapply (call_Inv pf k); try eassumption.
    split; [now exists k|]. repeat split; try assumption; lia. }
  destruct HI2 as [_ _ _ Hh _].
  assert (Hmem : In (m, sz, m)
                   (match r with Some t => t :: [(m, sz, m)] | None => [(m, sz, m)] end)).
  { destruct r; [right|]; now left. }
  destruct (Hh m sz m Hmem) as [_ Hrest].
  destruct (Hrest Hsz) as (Hb & Hs & _). split; assumption.
Qed.


Lemma write_xor_execute_app a b :
  write_xor_execute (a ++ b) <->
  write_xor_execute a /\ write_xor_execute b /\
  (forall m sz dst src n x,
     In (EvMakePagesExecutable m sz) a -> In (EvMemcpy dst src n) b ->
     ~ (m <= x < m + sz /\ dst <= x < dst + n)).
Proof.
  induction a as [|e a IH]; cbn [app write_xor_execute].
  - split.
    + intros H. split; [exact I|]. split; [exact H|].
      intros m sz dst src n x [].
    + intros (_ & H & _). exact H.
  - rewrite IH. split.
    + intros (He & Ha & Hb & Hab).
      split; [split; [|exact Ha]|split; [exact Hb|]].
      * destruct e; auto. intros dst src n x Hin. apply (He dst src n x).
        apply in_or_app. now left.
      * intros m sz dst src n x [->|Hin] Hin'.
        -- apply (He dst src n x). apply in_or_app. now right.
        -- now apply (Hab m sz dst src n x).
    + intros ((He & Ha) & Hb & Hab).
      split; [|split; [exact Ha|split; [exact Hb|]]].
      * destruct e; auto. intros dst src n x Hin.
        apply in_app_or in Hin as [Hin|Hin]; [now apply (He dst src n x)|].
        apply (Hab mem size dst src n x); [now left|assumption].
      * intros m sz dst src n x Hin Hin'.
        apply (Hab m sz dst src n x); [now right|assumption].
Qed.

Lemma write_xor_execute_split tr before m sz after dst src n x :
  write_xor_execute tr ->
  tr = before ++ EvMakePagesExecutable m sz :: after ->
  In (EvMemcpy dst src n) after ->
  ~ (m <= x < m + sz /\ dst <= x < dst + n).
Proof.
  intros H -> Hin. apply write_xor_execute_app in H as (_ & (H & _) & _).
  now apply (H dst src n x).
Qed.

Lemma requests_quiet pre :
  Forall (fun e => is_request e = true) pre ->
  write_xor_execute pre /\
  (forall m sz, ~ In (EvMakePagesExecutable m sz) pre) /\
  (forall dst src n, ~ In (EvMemcpy dst src n) pre).
Proof.
  induction 1 as [|e pre He _ IH]; cbn.
  - repeat split; auto.
  - destruct IH as (Hw & Hx & Hm). repeat split.
    + destruct e; auto; discriminate.
    + assumption.
    + intros m sz [->|Hin]; [discriminate|]. now apply (Hx m sz).
    + intros dst src n [->|Hin]; [discriminate|]. now apply (Hm dst src n).
Qed.

Lemma copies_quiet pos u data dataSize code codeSize :
  write_xor_execute (copies pos u data dataSize code codeSize) /\
  (forall m sz,
      ~ In (EvMakePagesExecutable m sz) (copies pos u data dataSize code codeSize)).
Proof.
  unfold copies. destruct (dataSize =? 0), (codeSize =? 0); cbn;
    repeat split; auto; intros m sz H;
    repeat (destruct H as [H|H]; [discriminate|]); exact H.
Qed.

Lemma Traced_Run ok init self hist tr :
  Traced pf ok init self hist tr -> Run pf ok init self hist.
Proof.
  induction 1 as [|s h t c r s' t' _ IH Hok Hc]; [constructor|].
  destruct r; [eapply Run_allocated|eapply Run_failed]; eassumption.
Qed.

Lemma call_write_xor_execute self hist tr0 c r self' tr :
  blockSize self mod kPageSize pf = 0 ->
  0 <= kMaxUnwindDataSize pf < blockSize self ->
  blockSize self < SizeT.modulus ->
  Inv pf self hist ->
  sane_request pf self c ->
  call pf c self = Returned r self' tr ->
  (forall m sz, In (EvMakePagesExecutable m sz) tr0 -> 0 < sz -> settled self m sz) ->
  write_xor_execute tr0 ->
  (forall m sz, In (EvMakePagesExecutable m sz) (tr0 ++ tr) -> 0 < sz ->
                settled self' m sz) /\
  write_xor_execute (tr0 ++ tr).
Proof.
  intros HBm HK HBr HI Hsane H Hset Hwx.
  pose proof Hsane as (Hwb & _).
  assert (Hold : forall m sz, In (EvMakePagesExecutable m sz) tr0 -> 0 < sz ->
                              settled self' m sz).
  { intros m sz Hin Hsz. eapply settled_step; try eassumption. now apply Hset. }
  destruct r as [t|].
  - destruct (call_footprint self hist c t self' tr
                HBm HK HBr HI Hsane H)
      as (pre & pos & page & u & Htr & Hpre & Ht & Hu & Hpos & Hle & Hpm & Hpp
          & Hbp & Hbe & Hins & Hfree & Hcop & Hprel).
    destruct (requests_quiet pre Hpre) as (Hwpre & Hxpre & Hmpre).
    destruct (copies_quiet pos u (call_data c) (call_dataSize c)
                (call_code c) (call_codeSize c)) as (Hwc & Hxc).
    assert (Hexec : forall m sz, In (EvMakePagesExecutable m sz) tr ->
                                 m = pos /\ sz = page).
    { intros m sz Hin. rewrite Htr in Hin.
      apply in_app_or in Hin as [Hin|Hin]; [now apply Hxpre in Hin|].
      apply in_app_or in Hin as [Hin|Hin]; [now apply Hxc in Hin|].
      destruct Hin as [E|[E|[]]]; [|discriminate]. injection E as <- <-. auto. }
    assert (Hmem : forall dst src n, In (EvMemcpy dst src n) tr ->
                     0 < n /\ pos <= dst /\ dst + n <= pos + page).
    { intros dst src n Hin. rewrite Htr in Hin.
      apply in_app_or in Hin as [Hin|Hin]; [now apply Hmpre in Hin|].
      apply in_app_or in Hin as [Hin|Hin]; [now apply Hcop in Hin|].
      destruct Hin as [E|[E|[]]]; discriminate. }
    split.
    + intros m sz Hin Hsz. apply in_app_or in Hin as [Hin|Hin]; [now apply Hold|].
      destruct (Hexec m sz Hin) as [-> ->]. split; [now apply Hins|]. lia.
    + apply write_xor_execute_app. split; [assumption|]. split.
      * rewrite Htr. apply write_xor_execute_app. split; [assumption|]. split.
        -- apply write_xor_execute_app. split; [assumption|]. split.
           ++ cbn. repeat split; auto. intros dst src n x [E|[]]. discriminate.
           ++ intros m sz dst src n x Hin _. now apply Hxc in Hin.
        -- intros m sz dst src n x Hin _. now apply Hxpre in Hin.
      * intros m sz dst src n x Hin Hin' [Hx1 Hx2].
        destruct (Hmem dst src n Hin') as (Hn & Hlo & Hhi).
        assert (Hsz : 0 < sz) by lia.
        destruct (Hset m sz Hin Hsz) as [Hb Hs].
        destruct (Hfree m sz Hsz Hb Hs); lia.
  - pose proof (call_refused_trace c self self' tr H) as Hreq.
    destruct (requests_quiet tr Hreq) as (Hw & Hx & Hm).
    split.
    + intros m sz Hin Hsz. apply in_app_or in Hin as [Hin|Hin]; [now apply Hold|].
      now apply Hx in Hin.
    + apply write_xor_execute_app. split; [assumption|]. split; [assumption|].
      intros m sz dst src n x _ Hin. now apply Hm in Hin.
Qed.




Lemma room_nonneg self hist :
  Inv pf self hist -> 0 <= blockEnd self - blockPos self.
Proof.
  intros [_ _ Hcur _ _].
  destruct Hcur as [(Hn & -> & ->) | (b & Hin & Hb & -> & _)]; lia.
Qed.

Lemma nonempty_count_cons t hist :
  nonempty_count (t :: hist)
  = (if 0 <? snd (fst t) then 1 else 0) + nonempty_count hist.
Proof.
  unfold nonempty_count. cbn [filter].
  destruct (0 <? snd (fst t)); cbn [length]; lia.
Qed.

Lemma call_consumed self hist c r self' tr :
  blockSize self mod kPageSize pf = 0 ->
  0 <= kMaxUnwindDataSize pf < blockSize self ->
  blockSize self < SizeT.modulus ->
  Inv pf self hist ->
  well_behaved pf self c ->
  call pf c self = Returned r self' tr ->
  nonempty_count hist * kPageSize pf <= consumed self ->
  nonempty_count (match r with Some t => t :: hist | None => hist end)
    * kPageSize pf <= consumed self'.
Proof.
  intros HBm HK HBr HI Hwb H Hcount.
  pose proof (room_nonneg self hist HI) as Hroom0.
  pose proof (page_pos pf k k_range page_pow2) as Hp.
  destruct r as [t|].
  - destruct (call_layout self hist c t self' tr
                HBm HK HBr HI Hwb H)
      as (s1 & pre & u & body & Htr & Hpre & HI1 & Hbs & Hwhere & _ & Hpub & Hu & Hroom).
    pose proof (total_nonneg (call_dataSize c) (call_codeSize c)) as Ht0.
    assert (HBm1 : blockSize s1 mod kPageSize pf = 0) by now rewrite Hbs.
    destruct (page_step s1 hist u _ HBm1 HI1 Hu Ht0 Hroom)
      as (Hsum & Hle & Hpm & Hpp & Hposm & Hpos0 & Hend & Hendr & Hadd & _).
    fold (pageSizeOf pf u (call_dataSize c) (call_codeSize c)) in *.
    assert (H1 : consumed self <= consumed s1).
    { destruct Hwhere as [[-> _] | (Hfresh & Hbl & Hbe)]; [lia|].
      unfold consumed, block_count. rewrite Hbl, Hbs, Hbe, length_app.
      cbn [length]. rewrite Nat2Z.inj_add. cbn. nia. }
    destruct Hpub as [_ Hr Hs _]. injection Hr as ->.
    rewrite nonempty_count_cons. cbn [fst snd].
    assert (H2 : consumed self'
                 = consumed s1 + pageSizeOf pf u (call_dataSize c) (call_codeSize c)).
    { rewrite Hs. unfold consumed, block_count.
      cbn [blocks blockSize blockPos blockEnd set_cursor]. rewrite Hadd. lia. }
    rewrite H2.
    destruct (Z.ltb_spec 0 (totalSizeOf (call_dataSize c) (call_codeSize c))).
    + specialize (Hpp ltac:(lia)). lia.
    + lia.
  - unfold call in H.
    destruct (allocate_failure_cases pf _ _ _ _ _ _ _ _ H)
      as [-> | (_ & _ & Hnz & ->)]; [assumption|].
    destruct Hwb as ([Hz|(Hb0 & Hb1 & _)] & _); [contradiction|].
    unfold consumed, block_count.
    cbn [blocks blockSize blockPos blockEnd on_new_block push_block set_cursor].
    rewrite length_app. cbn [length]. rewrite Nat2Z.inj_add.
    unfold SizeT.add.
    rewrite (SizeTFacts.wrap_small (os_pages (call_env c) + blockSize self))
      by (split; lia).
    unfold consumed, block_count in Hcount. cbn. nia.
Qed.

Lemma Inv_from self0 hist0 self hist :
  settings_ok pf self0 ->
  Inv pf self0 hist0 ->
  Run pf (well_behaved pf) self0 self hist ->
  Inv pf self (hist ++ hist0).
Proof.
  intros Hset HI0 H.
  induction H as [| s h c s' tr Hrun IH Hok Hc | s h c t s' tr Hrun IH Hok Hc].
  - exact HI0.
  - apply (call_Inv pf k k_range page_pow2 s (h ++ hist0) c None s' tr);
      try assumption.
    eapply settings_ok_same; [eapply Run_settings; eassumption|assumption].
  - apply (call_Inv pf k k_range page_pow2 s (h ++ hist0) c (Some t) s' tr);
      try assumption.
    eapply settings_ok_same; [eapply Run_settings; eassumption|assumption].
Qed.

(** Once the cap is reached, no call opens a block and the room in the
    current block only shrinks. *)
Lemma call_at_cap self hist c r self' tr :
  blockSize self mod kPageSize pf = 0 ->
  0 <= kMaxUnwindDataSize pf < blockSize self ->
  blockSize self < SizeT.modulus ->
  Inv pf self hist ->
  well_behaved pf self c ->
  cap_reached self = true ->
  call pf c self = Returned r self' tr ->
  cap_reached self' = true /\
  remaining self' <= remaining self /\
  (totalSizeOf (call_dataSize c) (call_codeSize c) > remaining self ->
   r = None /\ self' = self /\ tr = []).
Proof.
  intros HBm HK HBr HI Hwb Hcap H.
  assert (Hrem : remaining self = blockEnd self - blockPos self)
    by (eapply (remaining_of_Inv pf k); eassumption).
  unfold call in H. apply allocate_inv in H.
  inversion H as [Hov | r0 s t Hov Hle Hp | u s1 t1 Hov Hgt Hc
                 | u s1 t1 r0 s t2 Hov Hgt Hc Has Hp]; subst.
  - repeat split; try assumption; lia.
  - pose proof (total_nonneg (call_dataSize c) (call_codeSize c)) as Ht0.
    destruct (page_step self hist 0 _ HBm HI
                ltac:(lia) Ht0 ltac:(lia))
      as (Hsum & Hle' & Hpm & Hpp & Hposm & Hpos0 & Hend & Hendr & Hadd & _).
    fold (pageSizeOf pf 0 (call_dataSize c) (call_codeSize c)) in *.
    destruct Hp as [_ _ -> _].
    split; [exact Hcap|]. split; [|lia].
    unfold remaining at 1. cbn [blockPos blockEnd set_cursor].
    rewrite Hadd, Hrem. unfold SizeT.sub.
    rewrite SizeTFacts.wrap_small by (split; lia). lia.
  - inversion Hc; subst; try congruence.
    repeat split; try assumption; lia.
  - inversion Hc; subst; congruence.
Qed.




Lemma page_divides_modulus : exists q, SizeT.modulus = q * kPageSize pf /\ 0 < q.
Proof.
  exists (2 ^ (64 - k)). rewrite page_pow2. unfold SizeT.modulus, SizeT.bits.
  rewrite <- Z.pow_add_r by lia. split; [f_equal; lia|].
  apply Z.pow_pos_nonneg; lia.
Qed.

Lemma page_mask_aligned_iff x :
  SizeT.land x (page_mask pf) = 0 <-> x mod kPageSize pf = 0.
Proof.
  rewrite (page_mask_eq pf k k_range page_pow2), page_pow2.
  apply SizeTFacts.land_mask_zero_iff. lia.
Qed.

(** X1. [alignToPageSize]: for a size that does not come within a page of the
    end of the [size_t] range, the result is the least multiple of the page
    size not below the size; it adds less than a page, and aligning twice
    changes nothing. The page size is a power of two. *)
Theorem alignToPageSize_least_multiple x :
  0 <= x -> x + kPageSize pf <= SizeT.modulus ->
  x <= alignToPageSize pf x < x + kPageSize pf /\
  alignToPageSize pf x mod kPageSize pf = 0 /\
  (forall m, x <= m -> m mod kPageSize pf = 0 -> alignToPageSize pf x <= m) /\
  alignToPageSize pf (alignToPageSize pf x) = alignToPageSize pf x.
Proof.
  intros H0 H1.
  pose proof (page_pos pf k k_range page_pow2) as Hp.
  destruct (alignToPageSize_bounds pf k k_range page_pow2 x H0 H1) as [Hb Hm].
  split; [exact Hb|]. split; [exact Hm|]. split.
  - intros m Hxm Hmm.
    apply Z.mod_divide in Hmm; [|lia]. apply Z.mod_divide in Hm; [|lia].
    destruct Hmm as [q ->]. destruct Hm as [q' Hq']. rewrite Hq' in *.
    assert (q' < q + 1) by nia. nia.
  - set (r := alignToPageSize pf x) in *.
    destruct page_divides_modulus as (q & Hq & Hq0).
    assert (Hr : r + kPageSize pf <= SizeT.modulus).
    { apply Z.mod_divide in Hm; [|lia]. destruct Hm as [q' Hq'].
      rewrite Hq, Hq' in *. assert (q' < q) by nia. nia. }
    destruct (alignToPageSize_bounds pf k k_range page_pow2 r ltac:(lia) Hr)
      as [Hb' Hm'].
    apply Z.mod_divide in Hm; [|lia]. apply Z.mod_divide in Hm'; [|lia].
    destruct Hm as [a Ha]. destruct Hm' as [b Hb2]. rewrite Ha, Hb2 in *.
    assert (b < a + 1) by nia. nia.
Qed.

(** X2. [alignToPageSize] wraps: a size above the last multiple of the page
    size in the [size_t] range is aligned to zero, not to a larger size. *)
Theorem alignToPageSize_wraps_to_zero x :
  SizeT.modulus - kPageSize pf < x < SizeT.modulus ->
  alignToPageSize pf x = 0.
Proof.
  intros Hx.
  pose proof (page_pos pf k k_range page_pow2) as Hp.
  pose proof (page_lt_modulus pf k k_range page_pow2) as Hlt.
  unfold alignToPageSize, SizeT.land, SizeT.lnot.
  fold (page_mask pf). rewrite (page_mask_eq pf k k_range page_pow2).
  assert (E : SizeT.sub (SizeT.add x (kPageSize pf)) 1
              = x + kPageSize pf - 1 - SizeT.modulus).
  { unfold SizeT.sub, SizeT.add, SizeT.wrap. rewrite Zminus_mod_idemp_l.
    symmetry. apply Z.mod_unique with (q := 1); lia. }
  rewrite E, SizeTFacts.land_wrap_r by (split; lia).
  rewrite page_pow2, SizeTFacts.land_lnot_pow2 by lia.
  rewrite <- page_pow2. rewrite Z.div_small by lia. lia.
Qed.


End Pages.

(** ** Why a call is refused *)

Section Reasons.

Variable pf : Platform.

Lemma NewBlockCase_refused env u0 self ok u self1 tr :
  NewBlockCase pf env u0 self (ok, u) self1 tr ->
  (ok = false <->
   cap_reached self = true \/ os_pages env = 0 \/
   (createBlockUnwindInfo self = true /\ hook_info env = 0)).
Proof.
  intros H.
  inversion H as [C | C P | C P F | C P F I A | C P F I A]; subst.
  - split; auto.
  - split; auto.
  - split; [discriminate|]. intros [E|[E|[E _]]]; congruence.
  - split; auto.
  - split; [discriminate|]. intros [E|[E|[_ E]]]; congruence.
Qed.

(** X4. When [allocate] returns, it returns [false] in exactly these cases:
    the request is larger than a block less the reserved unwind size; or it
    does not fit the rest of the current block and the cap is reached, the
    operating system hands out no block, or the create callback is set and
    returns null. Nothing else makes it return [false]; a failing protection
    change or cache flush is asserted, not reported. *)
Theorem allocate_refuses_exactly_when env data dataSize code codeSize self
    r self' tr :
  allocate pf env data dataSize code codeSize self = Returned r self' tr ->
  (r = None <-> refusal_reason pf self env dataSize codeSize).
Proof.
  intros H. apply allocate_inv in H. unfold refusal_reason.
  destruct H as [Hov | r self' tr Hov Hle Hp | u self1 tr1 Hov Hgt Hc
                | u self1 tr1 r self' tr2 Hov Hgt Hc Has Hp].
  - split; auto.
  - destruct Hp as [_ -> _ _]. split; [discriminate|].
    intros [E|[E _]]; [congruence|lia].
  - split; [intros _|reflexivity]. right. split; [assumption|].
    now apply (NewBlockCase_refused _ _ _ _ _ _ _ Hc).
  - destruct Hp as [_ -> _ _]. split; [discriminate|].
    intros [E|[_ E]]; [congruence|].
    apply (NewBlockCase_refused _ _ _ _ _ _ _ Hc) in E. discriminate.
Qed.

(** X5. A constructor that returns with assertions enabled leaves an
    allocator without blocks whose block size exceeds the reserved unwind
    size and whose cap admits the first block: the size guard of [allocate]
    does not wrap and the cap test lets the first block through, whatever
    callbacks are set afterwards. *)
Theorem constructor_admits_first_block blockSize_ maxTotalSize_ a tr :
  assertsEnabled pf = true ->
  SizeT.in_range blockSize_ -> 0 <= kMaxUnwindDataSize pf ->
  constructor pf blockSize_ maxTotalSize_ = Returned tt a tr ->
  a = fresh blockSize_ maxTotalSize_ /\
  kMaxUnwindDataSize pf < blockSize_ <= maxTotalSize_ /\
  SizeT.sub (blockSize a) (kMaxUnwindDataSize pf)
    = blockSize_ - kMaxUnwindDataSize pf /\
  forall ctx create destroy,
    cap_reached (with_hooks a ctx create destroy) = false.
Proof.
  intros Ha [HB0 HB1] HK H. unfold constructor in H. monad_unfold.
  rewrite Ha in H. cbn [andb] in H.
  destruct (blockSize_ >? kMaxUnwindDataSize pf) eqn:E1; cbn in H; [|discriminate].
  destruct (maxTotalSize_ >=? blockSize_) eqn:E2; cbn in H; [|discriminate].
  injection H as <- <-.
  apply Z.gtb_lt in E1. apply Z.geb_le in E2.
  split; [reflexivity|]. split; [lia|]. split.
  - cbn. apply SizeTFacts.wrap_small. split; lia.
  - intros ctx create destroy. unfold cap_reached. cbn.
    change (SizeT.add 0 1) with 1. unfold SizeT.mul. rewrite Z.mul_1_l.
    rewrite SizeTFacts.wrap_small by (split; assumption).
    destruct (Z.gtb_spec blockSize_ maxTotalSize_); [lia|reflexivity].
Qed.

End Reasons.

(** ** The outcome of teardown *)

Section TeardownOutcome.

Variable pf : Platform.
Variable free_ok : Z -> bool.

Lemma for_each_freePages_aborts size bs self :
  assertsEnabled pf = true ->
  (exists b, In b bs /\ free_ok b = false) ->
  exists tr,
    for_each bs (fun block => freePages pf free_ok block size) self = Aborted tr.
Proof.
  intros Ha. induction bs as [|b bs IH]; intros (x & Hin & Hx); [destruct Hin|].
  cbn [for_each]. unfold bind at 1. rewrite freePages_run, Ha. cbn [negb].
  rewrite orb_false_r.
  destruct (free_ok b) eqn:Eb.
  - destruct Hin as [->|Hin]; [congruence|].
    destruct (IH (ex_intro _ x (conj Hin Hx))) as (tr & E).
    rewrite E. eexists. reflexivity.
  - eexists. reflexivity.
Qed.

(** X6. The destructor. Without a destroy callback it only frees pages. It
    returns exactly when assertions are disabled or every [freePages]
    succeeds; otherwise the assertion in [freePages] aborts it. *)
Theorem destructor_outcome self :
  (destroyBlockUnwindInfo self = false ->
   forall e, In e (trace_of (destructor pf free_ok self)) -> is_free e = true) /\
  ((assertsEnabled pf = false \/
    forall b, In b (blocks self) -> free_ok b = true) <->
   exists tr, destructor pf free_ok self = Returned tt self tr).
Proof.
  assert (Hshape : destructor pf free_ok self
     = match for_each (blocks self)
               (fun block => freePages pf free_ok block (blockSize self)) self with
       | Returned b s2 t2 =>
           Returned b s2 ((if destroyBlockUnwindInfo self
                           then destroy_calls self else []) ++ t2)
       | Aborted t2 =>
           Aborted ((if destroyBlockUnwindInfo self
                     then destroy_calls self else []) ++ t2)
       end).
  { unfold destructor. unfold bind at 1. unfold this at 1. unfold bind at 1.
    destruct (destroyBlockUnwindInfo self).
    - rewrite for_each_emit.
      destruct (for_each (blocks self) _ self) as [[] s2 t2|t2]; reflexivity.
    - unfold ret.
      destruct (for_each (blocks self) _ self) as [[] s2 t2|t2]; reflexivity. }
  split.
  - intros Hd e He. rewrite Hshape, Hd in He.
    destruct (for_each_freePages_trace pf free_ok (blockSize self) (blocks self) self)
      as (rel & rest & _ & Htr).
    destruct (for_each (blocks self) _ self) as [[] s2 t2|t2];
      cbn [trace_of app] in *; rewrite Htr in He;
      apply in_map_iff in He as (b & <- & _); reflexivity.
  - split.
    + intros Hok. rewrite Hshape, (for_each_freePages_ok pf free_ok _ _ _ Hok).
      eexists. reflexivity.
    + intros (tr & E).
      destruct (assertsEnabled pf) eqn:Ea; [right|now left].
      intros b Hb. destruct (free_ok b) eqn:Eb; [reflexivity|exfalso].
      destruct (for_each_freePages_aborts (blockSize self) (blocks self) self Ea
                  (ex_intro _ b (conj Hb Eb))) as (rel & Eab).
      rewrite Hshape, Eab in E. discriminate.
Qed.

End TeardownOutcome.

(** ** Write before execute *)

Section WriteXorExecute.

Variable pf : Platform.

Lemma sane_is_well_behaved self c : sane_request pf self c -> well_behaved pf self c.
Proof. now intros [H _]. Qed.

Lemma Run_weaken (ok ok' : CodeAllocator -> Call -> Prop) init self hist :
  (forall s c, ok s c -> ok' s c) ->
  Run pf ok init self hist -> Run pf ok' init self hist.
Proof.
  intros Himp. induction 1; [constructor|eapply Run_failed|eapply Run_allocated];
    eauto.
Qed.

Lemma Traced_settled init self hist tr :
  idle init -> settings_ok pf init ->
  Traced pf (sane_request pf) init self hist tr ->
  (forall m sz, In (EvMakePagesExecutable m sz) tr -> 0 < sz -> settled self m sz) /\
  write_xor_execute tr.
Proof.
  intros Hidle Hset H.
  induction H as [|s h t c r s' t' Htr IH Hok Hc].
  - split; [intros m sz []|exact I].
  - destruct IH as [IH1 IH2].
    pose proof (Traced_Run pf _ _ _ _ _ Htr) as Hrun.
    pose proof (Run_weaken _ _ _ _ _ sane_is_well_behaved Hrun) as Hrun'.
    pose proof (Run_Inv pf init s h Hidle Hset Hrun') as HI.
    pose proof (settings_ok_same pf _ _ (Run_settings _ _ _ _ _ Hrun) Hset)
      as ((k & Hk & Hpk) & HBm & HK & HBr).
    eapply (call_write_xor_execute pf k); eassumption.
Qed.

(** X8. Write before execute, over a whole run: once pages were made
    executable, no later [memcpy] of this or any later call writes a byte
    of them. *)
Theorem no_copy_into_executable_pages init self hist tr
    before m sz after dst src n x :
  idle init -> settings_ok pf init ->
  Traced pf (sane_request pf) init self hist tr ->
  tr = before ++ EvMakePagesExecutable m sz :: after ->
  In (EvMemcpy dst src n) after ->
  ~ (m <= x < m + sz /\ dst <= x < dst + n).
Proof.
  intros Hidle Hset H Htr Hin.
  destruct (Traced_settled init self hist tr Hidle Hset H) as [_ Hw].
  eapply write_xor_execute_split; eassumption.
Qed.

End WriteXorExecute.

(** ** Assertions *)

Section Safety.

Variable pf : Platform.

(** X7. After any calls in a well-behaved world whose sizes do not overflow,
    a further such call of [allocate] trips none of its assertions provided
    the protection change and the cache flush succeed: it returns. *)
Theorem allocate_never_aborts init self hist c :
  idle init -> settings_ok pf init ->
  Run pf (sane_request pf) init self hist ->
  sane_request pf self c ->
  os_obliges (call_env c) ->
  exists r self' tr, call pf c self = Returned r self' tr.
Proof.
  intros Hidle Hset Hrun Hsane Hobl.
  pose proof (Run_weaken pf _ _ _ _ _ (sane_is_well_behaved pf) Hrun) as Hrun'.
  pose proof (Run_Inv pf init self hist Hidle Hset Hrun') as HI.
  pose proof (settings_ok_same pf _ _ (Run_settings _ _ _ _ _ Hrun) Hset)
    as ((k & Hk & Hpk) & HBm & HK & HBr).
  pose proof (sane_is_well_behaved pf _ _ Hsane) as Hok.
  eapply (call_returns pf k); eassumption.
Qed.

End Safety.

(** ** What was obtained from the outside world *)

Section Accounting.

Variable pf : Platform.

Lemma pages_obtained_app a b :
  pages_obtained (a ++ b) = pages_obtained a ++ pages_obtained b.
Proof. apply flat_map_app. Qed.

Lemma handles_obtained_app a b :
  handles_obtained (a ++ b) = handles_obtained a ++ handles_obtained b.
Proof. apply flat_map_app. Qed.

Lemma copies_obtain_nothing pos u data dataSize code codeSize rest :
  (forall e, In e rest -> is_request e = false) ->
  pages_obtained (copies pos u data dataSize code codeSize ++ rest) = [] /\
  handles_obtained (copies pos u data dataSize code codeSize ++ rest) = [].
Proof.
  intros Hrest.
  assert (H : pages_obtained rest = [] /\ handles_obtained rest = []).
  { induction rest as [|e rest IH]; [split; reflexivity|].
    destruct IH as [IH1 IH2]; [intros; apply Hrest; now right|].
    pose proof (Hrest e (or_introl eq_refl)) as He.
    unfold pages_obtained, handles_obtained in *. cbn [flat_map].
    rewrite IH1, IH2. destruct e; try discriminate; split; reflexivity. }
  destruct H as [H1 H2]. unfold copies, pages_obtained, handles_obtained in *.
  rewrite !flat_map_app, H1, H2.
  destruct (dataSize =? 0), (codeSize =? 0); split; reflexivity.
Qed.

Lemma NewBlockCase_accounting env u0 self r self1 tr :
  NewBlockCase pf env u0 self r self1 tr ->
  blocks self1 = blocks self ++ pages_obtained tr /\
  unwindInfos self1 = unwindInfos self ++ handles_obtained tr /\
  Forall (fun e => is_free e = false /\ is_destroy e = false) tr.
Proof.
  intros H. inversion H as [C | C P | C P F | C P F I A | C P F I A]; subst;
    unfold pages_obtained, handles_obtained, pages_request, hook_request;
    cbn [flat_map app blocks unwindInfos on_new_block push_block set_cursor
         push_unwindInfo].
  - rewrite !app_nil_r. repeat split. constructor.
  - rewrite P. cbn. rewrite !app_nil_r. repeat split. repeat constructor.
  - apply Z.eqb_neq in P. rewrite P. cbn. rewrite !app_nil_r.
    repeat split. repeat constructor.
  - apply Z.eqb_neq in P. rewrite P, I. cbn. rewrite !app_nil_r.
    repeat split. repeat constructor.
  - apply Z.eqb_neq in P. apply Z.eqb_neq in I. rewrite P, I. cbn.
    repeat split. repeat constructor.
Qed.

Lemma call_accounting c self r self' tr :
  call pf c self = Returned r self' tr ->
  blocks self' = blocks self ++ pages_obtained tr /\
  unwindInfos self' = unwindInfos self ++ handles_obtained tr /\
  Forall (fun e => is_free e = false /\ is_destroy e = false) tr.
Proof.
  unfold call. intros H. apply allocate_inv in H.
  assert (Hbody : forall pos u a b cs',
            let body := copies pos u (call_data c) (call_dataSize c)
                          (call_code c) (call_codeSize c)
                        ++ [EvMakePagesExecutable pos a;
                            EvFlushInstructionCache b cs'] in
            pages_obtained body = [] /\ handles_obtained body = [] /\
            Forall (fun e => is_free e = false /\ is_destroy e = false) body).
  { intros pos u a b cs' body. subst body.
    destruct (copies_obtain_nothing pos u (call_data c) (call_dataSize c)
                (call_code c) (call_codeSize c)
                [EvMakePagesExecutable pos a; EvFlushInstructionCache b cs'])
      as [H1 H2].
    { intros e [<-|[<-|[]]]; reflexivity. }
    split; [assumption|]. split; [assumption|].
    apply Forall_app. split; [|repeat constructor].
    unfold copies. destruct (call_dataSize c =? 0), (call_codeSize c =? 0);
      repeat constructor. }
  destruct H as [Hov | r self' tr Hov Hle Hp | u self1 tr1 Hov Hgt Hc
                | u self1 tr1 r self' tr2 Hov Hgt Hc Has Hp].
  - rewrite !app_nil_r. repeat split. constructor.
  - destruct Hp as [_ _ -> ->]. cbn [blocks unwindInfos set_cursor].
    destruct (Hbody (blockPos self) 0
                (pageSizeOf pf 0 (call_dataSize c) (call_codeSize c))
                (SizeT.add (blockPos self) (codeOffsetOf 0 (call_dataSize c)))
                (call_codeSize c)) as (H1 & H2 & H3).
    rewrite H1, H2, !app_nil_r. repeat split. assumption.
  - eapply NewBlockCase_accounting; eassumption.
  - destruct (NewBlockCase_accounting _ _ _ _ _ _ Hc) as (B1 & B2 & B3).
    destruct Hp as [_ _ -> ->]. cbn [blocks unwindInfos set_cursor].
    destruct (Hbody (blockPos self1) u
                (pageSizeOf pf u (call_dataSize c) (call_codeSize c))
                (SizeT.add (blockPos self1) (codeOffsetOf u (call_dataSize c)))
                (call_codeSize c)) as (H1 & H2 & H3).
    rewrite pages_obtained_app, handles_obtained_app, H1, H2, !app_nil_r.
    split; [assumption|]. split; [assumption|].
    apply Forall_app. now split.
Qed.

Lemma Traced_accounting init self hist tr :
  idle init ->
  Traced pf any_call init self hist tr ->
  blocks self = pages_obtained tr /\ unwindInfos self = handles_obtained tr.
Proof.
  intros (Hb & Hu & _) H.
  induction H as [|s h t c r s' t' _ IH _ Hc].
  - rewrite Hb, Hu. split; reflexivity.
  - destruct IH as (I1 & I2).
    destruct (call_accounting _ _ _ _ _ Hc) as (C1 & C2 & _).
    rewrite pages_obtained_app, handles_obtained_app, C1, C2, I1, I2.
    split; reflexivity.
Qed.

(** X9. After any calls, whatever the outside world answered, [blocks] lists
    exactly the non-null results of [allocatePages], and [unwindInfos] the
    non-null handles of the create callback, both in the order they were
    obtained; [allocate] frees no pages and destroys no unwind
    information. *)
Theorem blocks_are_the_pages_obtained init self hist tr :
  idle init ->
  Traced pf any_call init self hist tr ->
  blocks self = pages_obtained tr /\
  unwindInfos self = handles_obtained tr /\
  Forall (fun e => is_free e = false /\ is_destroy e = false) tr.
Proof.
  intros Hidle H.
  destruct (Traced_accounting init self hist tr Hidle H) as [Hb Hu].
  split; [assumption|]. split; [assumption|]. clear Hb Hu.
  induction H as [|s h t c r s' t' _ IH _ Hc]; [constructor|].
  apply Forall_app. split; [exact IH|].
  now destruct (call_accounting _ _ _ _ _ Hc) as (_ & _ & C3).
Qed.

Lemma Traced_settings ok init self hist tr :
  Traced pf ok init self hist tr -> same_settings init self.
Proof. intros H. eapply Run_settings, Traced_Run, H. Qed.

(** X10. Construction, calls, destruction: when every [freePages] succeeds
    (or assertions are disabled) and the destroy callback is set, the
    destructor hands each handle the create callback returned to the destroy
    callback and frees each block [allocatePages] returned, once each, in the
    order obtained, with the block size of the constructor. *)
Theorem teardown_releases_what_was_obtained free_ok init self hist tr :
  idle init ->
  Traced pf any_call init self hist tr ->
  destroyBlockUnwindInfo init = true ->
  (assertsEnabled pf = false \/
   forall b, In b (pages_obtained tr) -> free_ok b = true) ->
  destructor pf free_ok self
  = Returned tt self
      (map (EvDestroyBlockUnwindInfo (context init)) (handles_obtained tr)
       ++ map (fun b => EvFreePages b (blockSize init)) (pages_obtained tr)).
Proof.
  intros Hidle H Hd Hok.
  destruct (Traced_accounting init self hist tr Hidle H) as (Hb & Hu).
  destruct (Traced_settings _ _ _ _ _ H) as (EB & _ & EC & _ & ED).
  unfold destructor. unfold bind at 1. unfold this at 1. unfold bind at 1.
  rewrite <- ED, Hd, for_each_emit, <- EC, <- EB, Hu, Hb.
  rewrite (for_each_freePages_ok pf free_ok _ _ _ Hok). reflexivity.
Qed.

End Accounting.

(** ** Footprint, cost and the cap *)

Section Bounds.

Variable pf : Platform.


(** X3. Where a call that returns [true] puts the bytes, in plain
    arithmetic: the code starts at [result] plus the data size rounded up to
    the next multiple of 16, and the data is padded in front, not behind: it
    is copied so that it ends exactly where the code starts, less than 16
    bytes after [result]. The sizes of the request do not overflow. *)
Theorem data_is_left_padded init self hist c result resultSize resultCodeStart
    self' tr :
  idle init -> settings_ok pf init ->
  Run pf (well_behaved pf) init self hist ->
  sane_request pf self c ->
  call pf c self
    = Returned (Some (result, resultSize, resultCodeStart)) self' tr ->
  filter is_memcpy tr
  = (if call_dataSize c =? 0 then []
     else [EvMemcpy (resultCodeStart - call_dataSize c)
             (call_data c) (call_dataSize c)])
    ++ (if call_codeSize c =? 0 then []
        else [EvMemcpy resultCodeStart (call_code c) (call_codeSize c)]) /\
  resultCodeStart = result + 16 * ((call_dataSize c + 15) / 16) /\
  result <= resultCodeStart - call_dataSize c < result + 16 /\
  resultSize = 16 * ((call_dataSize c + 15) / 16) + call_codeSize c.
Proof.
  intros Hidle Hset Hrun Hsane H.
  pose proof (Run_Inv pf init self hist Hidle Hset Hrun) as HI.
  pose proof (settings_ok_same pf _ _ (Run_settings _ _ _ _ _ Hrun) Hset)
    as ((k & Hk & Hpk) & HBm & HK & HBr).
  destruct (call_copies pf k Hk Hpk self hist c _ self' tr HBm HK HBr HI Hsane H)
    as (Hcopies & Hcode & Hsize).
  cbn [fst snd] in Hcopies, Hcode, Hsize.
  destruct Hsane as (_ & Hd0 & Hd15).
  destruct (roundUp16_exact (call_dataSize c) Hd0 Hd15) as [Heq Hb].
  rewrite Heq in *.
  split; [exact Hcopies|]. split; [exact Hcode|]. split; [lia|exact Hsize].
Qed.

(** X12. Every returned range of at least one byte costs at least one page:
    the pages consumed are at least the page size times the number of such
    ranges, and at most the blocks reserved, which stay under the cap. *)
Theorem allocations_cost_a_page_each init self hist :
  idle init -> settings_ok pf init -> cap_fits init ->
  Run pf (well_behaved pf) init self hist ->
  nonempty_count hist * kPageSize pf <= consumed self /\
  consumed self <= block_count self * blockSize self /\
  block_count self * blockSize self <= maxTotalSize self.
Proof.
  intros Hidle Hset Hfit Hrun.
  assert (Hcount : nonempty_count hist * kPageSize pf <= consumed self).
  { induction Hrun as [| s h c s' tr Hrun IH Hok Hc | s h c t s' tr Hrun IH Hok Hc].
    - destruct Hidle as (Hb & _ & Hp & He).
      unfold consumed, block_count, nonempty_count. rewrite Hb, Hp, He. cbn. lia.
    - pose proof (Run_Inv pf init s h Hidle Hset Hrun) as HI.
      pose proof (settings_ok_same pf _ _ (Run_settings _ _ _ _ _ Hrun) Hset)
        as ((k & Hk & Hpk) & HBm & HK & HBr).
      apply (call_consumed pf k Hk Hpk s h c None s' tr); auto.
    - pose proof (Run_Inv pf init s h Hidle Hset Hrun) as HI.
      pose proof (settings_ok_same pf _ _ (Run_settings _ _ _ _ _ Hrun) Hset)
        as ((k & Hk & Hpk) & HBm & HK & HBr).
      apply (call_consumed pf k Hk Hpk s h c (Some t) s' tr); auto. }
  split; [assumption|]. split.
  - pose proof (Run_Inv pf init self hist Hidle Hset Hrun) as HI.
    destruct Hset as ((k & Hk & Hpk) & _).
    assert (0 <= blockEnd self - blockPos self)
      by (eapply (room_nonneg pf k); eassumption).
    unfold consumed. lia.
  - apply (Run_cap pf init self hist Hidle Hfit).
    eapply Run_weaken; [|eassumption]. intros; exact I.
Qed.

(** X13. Refusal at the cap is final: once the cap is reached, a request
    larger than what was left in the current block at that moment is
    refused by every later call, with no call to the outside world and no
    change of state; the allocator never gets another block. *)
Theorem cap_refusal_is_final init self hist later hist' c r self' tr :
  idle init -> settings_ok pf init ->
  Run pf (well_behaved pf) init self hist ->
  cap_reached self = true ->
  Run pf (well_behaved pf) self later hist' ->
  well_behaved pf later c ->
  totalSizeOf (call_dataSize c) (call_codeSize c) > remaining self ->
  call pf c later = Returned r self' tr ->
  r = None /\ self' = later /\ tr = [] /\ blocks later = blocks self.
Proof.
  intros Hidle Hset Hrun Hcap Hlater Hwb Hbig Hc.
  pose proof (Run_Inv pf init self hist Hidle Hset Hrun) as HI.
  pose proof (settings_ok_same pf _ _ (Run_settings _ _ _ _ _ Hrun) Hset) as Hset1.
  pose proof Hset1 as ((k & Hk & Hpk) & _).
  assert (Hkeep : cap_reached later = true /\ remaining later <= remaining self /\
                  blocks later = blocks self).
  { clear Hc Hwb.
    induction Hlater as [| s h c0 s' t0 Hr IH Hok Hc0 | s h c0 t s' t0 Hr IH Hok Hc0].
    - split; [assumption|split; [lia|reflexivity]].
    - destruct IH as (I1 & I2 & I3).
      pose proof (Inv_from pf k Hk Hpk self hist s h Hset1 HI Hr) as HIs.
      pose proof (settings_ok_same pf _ _ (Run_settings _ _ _ _ _ Hr) Hset1)
        as (_ & HBm & HK & HBr).
      destruct (call_at_cap pf k Hk Hpk s _ c0 None s' t0 HBm HK HBr HIs Hok I1 Hc0)
        as (C1 & C2 & _).
      split; [assumption|]. split; [lia|].
      destruct (call_blocks pf _ _ _ _ _ Hc0) as [E|[E _]]; congruence.
    - destruct IH as (I1 & I2 & I3).
      pose proof (Inv_from pf k Hk Hpk self hist s h Hset1 HI Hr) as HIs.
      pose proof (settings_ok_same pf _ _ (Run_settings _ _ _ _ _ Hr) Hset1)
        as (_ & HBm & HK & HBr).
      destruct (call_at_cap pf k Hk Hpk s _ c0 (Some t) s' t0 HBm HK HBr HIs Hok I1 Hc0)
        as (C1 & C2 & _).
      split; [assumption|]. split; [lia|].
      destruct (call_blocks pf _ _ _ _ _ Hc0) as [E|[E _]]; congruence. }
  destruct Hkeep as (K1 & K2 & K3).
  pose proof (Inv_from pf k Hk Hpk self hist later hist' Hset1 HI Hlater) as HIl.
  pose proof (settings_ok_same pf _ _ (Run_settings _ _ _ _ _ Hlater) Hset1)
    as (_ & HBm & HK & HBr).
  destruct (call_at_cap pf k Hk Hpk later _ c r self' tr HBm HK HBr HIl Hwb K1 Hc)
    as (_ & _ & Hfin).
  destruct (Hfin ltac:(lia)) as (-> & -> & ->). repeat split. assumption.
Qed.

End Bounds.

(** ** The state between calls *)

Section Standing.

Variable pf : Platform.

Lemma NewBlockCase_newest env u0 self r self1 tr :
  0 <= blockSize self ->
  os_pages env = 0 \/ fresh_block pf self (os_pages env) ->
  NewBlockCase pf env u0 self r self1 tr ->
  (blocks self1 = blocks self /\ blockEnd self1 = blockEnd self) \/
  (blocks self1 = blocks self ++ [os_pages env] /\
   blockEnd self1 = os_pages env + blockSize self).
Proof.
  intros HB Hos H.
  inversion H as [C | C P | C P F | C P F I A | C P F I A]; subst;
    try (left; split; reflexivity);
    (destruct Hos as [Hos|(Hb0 & Hb1 & _)]; [contradiction|]);
    right; cbn [blocks blockEnd on_new_block push_block set_cursor
                push_unwindInfo];
    (split; [reflexivity|]; apply SizeTFacts.wrap_small; split; lia).
Qed.

(** A call leaves the list of blocks and the end of the current block as
    they are, or appends one block and moves the end to the end of that
    block. *)
Lemma call_newest c self r self' tr :
  0 <= blockSize self ->
  well_behaved pf self c ->
  call pf c self = Returned r self' tr ->
  (blocks self' = blocks self /\ blockEnd self' = blockEnd self) \/
  (exists b, blocks self' = blocks self ++ [b] /\
             blockEnd self' = b + blockSize self).
Proof.
  intros HB (Hos & _) H. unfold call in H. apply allocate_inv in H.
  inversion H as [Hov | r0 s t Hov Hle Hp | u s1 t1 Hov Hgt Hc
                 | u s1 t1 r0 s t2 Hov Hgt Hc Has Hp]; subst.
  - left. split; reflexivity.
  - destruct Hp as [_ _ -> _]. left. split; reflexivity.
  - destruct (NewBlockCase_newest _ _ _ _ _ _ HB Hos Hc) as [L|R];
      [now left|right; eexists; exact R].
  - destruct Hp as [_ _ -> _]. cbn [blocks blockEnd set_cursor].
    destruct (NewBlockCase_newest _ _ _ _ _ _ HB Hos Hc) as [L|R];
      [now left|right; eexists; exact R].
Qed.

Lemma Run_newest init self hist :
  idle init -> 0 <= blockSize init ->
  Run pf (well_behaved pf) init self hist ->
  blocks self = [] \/
  blockEnd self = last (blocks self) 0 + blockSize self.
Proof.
  intros (Hb & _) HB0 H.
  induction H as [| s h c s' tr Hrun IH Hok Hc | s h c t s' tr Hrun IH Hok Hc];
    [now left| |];
    (assert (HB : blockSize s' = blockSize s)
       by (symmetry; eapply allocate_settings, Hc));
    (assert (HBs : 0 <= blockSize s)
       by (destruct (Run_settings _ _ _ _ _ Hrun) as [<- _]; exact HB0));
    (destruct (call_newest _ _ _ _ _ HBs Hok Hc) as [[E1 E2]|(b & E1 & E2)];
     [rewrite E1, E2, HB; exact IH
     |right; rewrite E1, E2, HB, last_last; reflexivity]).
Qed.

(** X14. The state after any calls in a well-behaved world: the cursor is on
    a page boundary inside the newest block, the last of the list, whose end
    is [blockEnd] (or both are null with no block); the room left is a whole
    number of pages and at most a block; and the blocks are non-null,
    page-aligned and apart from each other. *)
Theorem cursor_stays_in_its_block init self hist :
  idle init -> settings_ok pf init ->
  Run pf (well_behaved pf) init self hist ->
  blockPos self mod kPageSize pf = 0 /\
  blockPos self <= blockEnd self <= blockPos self + blockSize self /\
  remaining self = blockEnd self - blockPos self /\
  remaining self mod kPageSize pf = 0 /\
  ((blocks self = [] /\ blockPos self = 0 /\ blockEnd self = 0) \/
   (blocks self <> [] /\
    last (blocks self) 0 <= blockPos self /\
    blockEnd self = last (blocks self) 0 + blockSize self)) /\
  (forall b, In b (blocks self) ->
     0 < b /\ b + blockSize self < SizeT.modulus /\ b mod kPageSize pf = 0) /\
  (forall b b', In b (blocks self) -> In b' (blocks self) ->
     b = b' \/ b + blockSize self <= b' \/ b' + blockSize self <= b).
Proof.
  intros Hidle Hset Hrun.
  pose proof (Run_Inv pf init self hist Hidle Hset Hrun) as HI.
  pose proof (settings_ok_same pf _ _ (Run_settings _ _ _ _ _ Hrun) Hset)
    as ((k & Hk & Hpk) & HBm & HK & HBr).
  assert (Hrem : remaining self = blockEnd self - blockPos self)
    by (eapply (remaining_of_Inv pf k); eassumption).
  pose proof (page_pos pf k Hk Hpk) as Hp.
  destruct HI as [Hbl Hap Hcur _ _].
  assert (Hc : blockPos self mod kPageSize pf = 0 /\
               blockPos self <= blockEnd self <= blockPos self + blockSize self /\
               blockEnd self mod kPageSize pf = 0).
  { destruct Hcur as [(_ & -> & ->)|(b & Hin & Hle & -> & Hm)].
    - split; [reflexivity|]. split; [lia|reflexivity].
    - split; [assumption|]. split; [lia|].
      destruct (Hbl b Hin) as (_ & _ & Hb).
      rewrite <- Z.add_mod_idemp_l, Hb, Z.add_0_l by lia. assumption. }
  destruct Hc as (Hc1 & Hc2 & Hc3).
  split; [assumption|]. split; [assumption|]. split; [assumption|].
  split.
  { rewrite Hrem. rewrite Zminus_mod, Hc1, Hc3. reflexivity. }
  split; [|split; assumption].
  destruct Hcur as [Hcur|(b & Hin & Hle & He & _)]; [now left|right].
  assert (HB0 : 0 <= blockSize init) by (destruct Hset as (_ & _ & ? & _); lia).
  destruct (Run_newest init self hist Hidle HB0 Hrun) as [Hnil|Hlast];
    [rewrite Hnil in Hin; destruct Hin|].
  split; [intros Hnil; rewrite Hnil in Hin; destruct Hin|].
  split; [lia|assumption].
Qed.

End Standing.

(** ** Blocks and their unwind information *)

Section Pairing.

Variable pf : Platform.

Lemma created_for_app a b : created_for (a ++ b) = created_for a ++ created_for b.
Proof. apply flat_map_app. Qed.

Lemma combine_app_same {A B} (a a' : list A) (b b' : list B) :
  length a = length b ->
  combine (a ++ a') (b ++ b') = combine a b ++ combine a' b'.
Proof.
  revert b. induction a as [|x a IH]; intros [|y b] Hl; try discriminate.
  - reflexivity.
  - cbn. f_equal. apply IH. now injection Hl.
Qed.

Lemma body_creates_nothing pos u data dataSize code codeSize a b cs :
  created_for (copies pos u data dataSize code codeSize
                 ++ [EvMakePagesExecutable pos a; EvFlushInstructionCache b cs])
  = [].
Proof.
  unfold copies, created_for.
  destruct (dataSize =? 0), (codeSize =? 0); reflexivity.
Qed.

Lemma NewBlockCase_pairing env u0 self r self1 tr :
  NewBlockCase pf env u0 self r self1 tr ->
  hook_info env <> 0 ->
  (createBlockUnwindInfo self = true ->
   length (pages_obtained tr) = length (handles_obtained tr) /\
   combine (pages_obtained tr) (handles_obtained tr) = created_for tr) /\
  (createBlockUnwindInfo self = false -> handles_obtained tr = []).
Proof.
  intros H Hh. inversion H as [C | C P | C P F | C P F I A | C P F I A]; subst;
    unfold pages_obtained, handles_obtained, created_for, pages_request,
      hook_request; cbn [flat_map app].
  - split; [split|]; reflexivity.
  - rewrite P. cbn. split; [split|]; reflexivity.
  - split; [congruence|reflexivity].
  - contradiction.
  - apply Z.eqb_neq in P. apply Z.eqb_neq in I. rewrite P, I. cbn.
    split; [split; reflexivity|congruence].
Qed.

Lemma call_pairing c self r self' tr :
  call pf c self = Returned r self' tr ->
  hook_info (call_env c) <> 0 ->
  (createBlockUnwindInfo self = true ->
   length (pages_obtained tr) = length (handles_obtained tr) /\
   combine (pages_obtained tr) (handles_obtained tr) = created_for tr) /\
  (createBlockUnwindInfo self = false -> handles_obtained tr = []).
Proof.
  unfold call. intros H Hh. apply allocate_inv in H.
  destruct H as [Hov | r self' tr Hov Hle Hp | u self1 tr1 Hov Hgt Hc
                | u self1 tr1 r self' tr2 Hov Hgt Hc Has Hp].
  - split; [split|]; reflexivity.
  - destruct Hp as [_ _ _ ->].
    destruct (copies_obtain_nothing (blockPos self) 0 (call_data c)
                (call_dataSize c) (call_code c) (call_codeSize c)
                [EvMakePagesExecutable (blockPos self)
                   (pageSizeOf pf 0 (call_dataSize c) (call_codeSize c));
                 EvFlushInstructionCache
                   (SizeT.add (blockPos self)
                      (codeOffsetOf 0 (call_dataSize c))) (call_codeSize c)])
      as [H1 H2].
    { intros e [<-|[<-|[]]]; reflexivity. }
    rewrite H1, H2, body_creates_nothing. split; [split|]; reflexivity.
  - eapply NewBlockCase_pairing; eassumption.
  - destruct (NewBlockCase_pairing _ _ _ _ _ _ Hc Hh) as [B1 B2].
    destruct Hp as [_ _ _ ->].
    destruct (copies_obtain_nothing (blockPos self1) u (call_data c)
                (call_dataSize c) (call_code c) (call_codeSize c)
                [EvMakePagesExecutable (blockPos self1)
                   (pageSizeOf pf u (call_dataSize c) (call_codeSize c));
                 EvFlushInstructionCache
                   (SizeT.add (blockPos self1)
                      (codeOffsetOf u (call_dataSize c))) (call_codeSize c)])
      as [H1 H2].
    { intros e [<-|[<-|[]]]; reflexivity. }
    rewrite pages_obtained_app, handles_obtained_app, created_for_app,
      H1, H2, body_creates_nothing, !app_nil_r.
    exact (conj B1 B2).
Qed.

(** X15. When the create callback never returns null, [unwindInfos] stays in
    step with [blocks]: one entry per block when the callback is set, none
    otherwise, and the i-th entry is the handle the callback returned for
    the i-th block. *)
Theorem unwind_infos_pair_with_blocks init self hist tr :
  idle init ->
  Traced pf hook_answers init self hist tr ->
  in_step self /\
  (createBlockUnwindInfo init = true ->
   combine (blocks self) (unwindInfos self) = created_for tr).
Proof.
  intros Hidle H.
  assert (Hs : same_settings init self) by (eapply Traced_settings, H).
  destruct Hs as (_ & _ & _ & Hcr & _).
  assert (Hacc : blocks self = pages_obtained tr /\
                 unwindInfos self = handles_obtained tr).
  { assert (Hany : Traced pf any_call init self hist tr).
    { clear -H. induction H; [constructor|econstructor; eauto; exact I]. }
    exact (Traced_accounting pf init self hist tr Hidle Hany). }
  unfold in_step. destruct Hacc as [-> ->]. rewrite <- Hcr. clear Hcr.
  induction H as [|s h t c r s' t' Htr IH Hok Hc].
  - split; [now destruct (createBlockUnwindInfo init)|reflexivity].
  - destruct IH as [IH1 IH2].
    assert (Hs : same_settings init s) by (eapply Traced_settings, Htr).
    destruct Hs as (_ & _ & _ & Hcr & _).
    destruct (call_pairing _ _ _ _ _ Hc Hok) as [P1 P2].
    rewrite pages_obtained_app, handles_obtained_app, created_for_app.
    destruct (createBlockUnwindInfo init) eqn:E.
    + destruct (P1 (eq_sym Hcr)) as [L C].
      split.
      * rewrite !length_app. rewrite IH1, L. reflexivity.
      * intros _. rewrite combine_app_same by (symmetry; exact IH1).
        rewrite IH2, C by reflexivity. reflexivity.
    + split; [|discriminate].
      rewrite (P2 (eq_sym Hcr)), app_nil_r. exact IH1.
Qed.

End Pairing.

(** ** Sizes near the end of the range, and refused calls *)

Section GuardWrap.

Variable pf : Platform.

Lemma roundUp16_wraps dataSize :
  SizeT.modulus - 15 <= dataSize < SizeT.modulus -> roundUp16 dataSize = 0.
Proof.
  intros H. rewrite roundUp16_eq. unfold SizeT.wrap.
  pose proof SizeTFacts.modulus_eq as M.
  assert (E : (dataSize + 15) mod SizeT.modulus = dataSize + 15 - SizeT.modulus).
  { symmetry. apply Z.mod_unique with (q := 1); lia. }
  rewrite E. rewrite Z.div_small by lia. reflexivity.
Qed.

Lemma near_max_destination pos u dataSize :
  SizeT.add pos (SizeT.sub (SizeT.add u 0) dataSize)
  = SizeT.add (SizeT.add pos (SizeT.add u 0)) (SizeT.modulus - dataSize).
Proof.
  unfold SizeT.add, SizeT.sub, SizeT.wrap.
  pose proof SizeTFacts.modulus_pos as M.
  rewrite Z.add_mod_idemp_r, Z.add_mod_idemp_l by lia.
  replace (pos + (u + 0) mod SizeT.modulus + (SizeT.modulus - dataSize))
    with (pos + ((u + 0) mod SizeT.modulus - dataSize) + 1 * SizeT.modulus)
    by ring.
  now rewrite Z.mod_add by lia.
Qed.

Lemma Published_near_max env self u data dataSize code codeSize t self' tr :
  SizeT.modulus - 15 <= dataSize < SizeT.modulus ->
  Published pf env self u data 0 code codeSize (Some t) self' tr ->
  Published pf env self u data dataSize code codeSize (Some t) self'
    (EvMemcpy (SizeT.add (snd t) (SizeT.modulus - dataSize)) data dataSize
       :: tr).
Proof.
  intros Hd [Hc Hr Hs Ht].
  pose proof (roundUp16_wraps dataSize Hd) as Hz.
  assert (Hz0 : roundUp16 0 = 0) by reflexivity.
  assert (Et : totalSizeOf dataSize codeSize = totalSizeOf 0 codeSize)
    by (unfold totalSizeOf, alignedDataSizeOf; now rewrite Hz, Hz0).
  assert (Ec : codeOffsetOf u dataSize = codeOffsetOf u 0)
    by (unfold codeOffsetOf, alignedDataSizeOf; now rewrite Hz, Hz0).
  assert (Ep : pageSizeOf pf u dataSize codeSize = pageSizeOf pf u 0 codeSize)
    by (unfold pageSizeOf; now rewrite Et).
  assert (Ed : SizeT.add (blockPos self) (dataOffsetOf u dataSize)
               = SizeT.add (snd t) (SizeT.modulus - dataSize)).
  { injection Hr as ->. cbn [snd].
    unfold dataOffsetOf, codeOffsetOf, alignedDataSizeOf.
    rewrite Hz, Hz0. apply near_max_destination. }
  constructor.
  - rewrite Ep. exact Hc.
  - rewrite Et, Ec. exact Hr.
  - rewrite Ep. exact Hs.
  - rewrite Ht. unfold copies. rewrite Ec, Ep, Ed.
    replace (dataSize =? 0) with false
      by (symmetry; apply Z.eqb_neq; pose proof SizeTFacts.modulus_eq; lia).
    reflexivity.
Qed.

(** X16. The size guard wraps. A [dataSize] within 15 of [2^64] rounds up to
    zero, so the guard and the layout count it as no data: wherever the call
    with [dataSize = 0] succeeds, the call with such a [dataSize] gets past
    the guard, makes the same requests for a block, and then calls [memcpy]
    with [dataSize] bytes, to the address [2^64 - dataSize] bytes past the
    start of the code. *)
Theorem data_size_near_max_reaches_memcpy env data dataSize code codeSize
    self t self' tr :
  SizeT.modulus - 15 <= dataSize < SizeT.modulus ->
  allocate pf env data 0 code codeSize self = Returned (Some t) self' tr ->
  exists before after,
    trace_of (allocate pf env data dataSize code codeSize self)
    = before
      ++ EvMemcpy (SizeT.add (snd t) (SizeT.modulus - dataSize)) data dataSize
      :: after /\
    Forall (fun e => is_request e = true) before.
Proof.
  intros Hd H. apply allocate_inv in H.
  pose proof (roundUp16_wraps dataSize Hd) as Hz.
  assert (Et : totalSizeOf dataSize codeSize = totalSizeOf 0 codeSize)
    by (unfold totalSizeOf, alignedDataSizeOf; now rewrite Hz).
  assert (Eo : oversize pf self dataSize codeSize = oversize pf self 0 codeSize)
    by (unfold oversize; now rewrite Et).
  inversion H as [Hov | r s t0 Hov Hle Hp | u s1 t1 Hov Hgt Hc
                 | u s1 t1 r s t2 Hov Hgt Hc Has Hp]; subst.
  - pose proof (Published_near_max _ _ _ _ _ _ _ _ _ _ Hd Hp) as Hp'.
    exists [], tr. split; [|constructor].
    erewrite allocate_complete; [reflexivity|].
    apply AC_same_block; [congruence|lia|exact Hp'].
  - pose proof (Published_near_max _ _ _ _ _ _ _ _ _ _ Hd Hp) as Hp'.
    exists t1, t2. split; [|eapply NewBlockCase_requests; eassumption].
    erewrite allocate_complete; [reflexivity|].
    eapply AC_new_block; [congruence|lia|exact Hc|rewrite Et; exact Has|exact Hp'].
Qed.

(** X17. A call that returns [false] copies nothing, changes no protection
    and flushes nothing: it makes at most the two requests for a new block.
    It leaves the allocator as it was, unless the create callback returned
    null. *)
Theorem refused_call_only_asks env data dataSize code codeSize self self' tr :
  allocate pf env data dataSize code codeSize self = Returned None self' tr ->
  Forall (fun e => is_request e = true) tr /\
  (length tr <= 2)%nat /\
  (self' = self \/
   (hook_info env = 0 /\ tr = [pages_request pf self env; hook_request self env] /\
    self' = on_new_block self (os_pages env))).
Proof.
  intros H. apply allocate_inv in H.
  inversion H as [Hov | r s t Hov Hle Hp | u s1 t1 Hov Hgt Hc
                 | u s1 t1 r s t2 Hov Hgt Hc Has Hp]; subst.
  - split; [constructor|]. split; [cbn; lia|now left].
  - destruct Hp as [_ Hr _ _]. discriminate.
  - inversion Hc as [C | C P | C P F | C P F I A | C P F I A]; subst.
    + split; [constructor|]. split; [cbn; lia|now left].
    + split; [repeat constructor|]. split; [cbn; lia|now left].
    + split; [repeat constructor|]. split; [cbn; lia|right].
      split; [assumption|]. split; reflexivity.
  - destruct Hp as [_ Hr _ _]. discriminate.
Qed.

End GuardWrap.

(** ** The unwind prelude *)

Section Prelude.

Variable pf : Platform.

Lemma refused_creates_null c self self' tr ctx b sz ret w :
  call pf c self = Returned None self' tr ->
  In (EvCreateBlockUnwindInfo ctx b sz ret w) tr -> ret = 0.
Proof.
  unfold call. intros H Hin. apply allocate_inv in H.
  inversion H as [Hov | r s t Hov Hle Hp | u s1 t1 Hov Hgt Hc
                 | u s1 t1 r s t2 Hov Hgt Hc Has Hp]; subst.
  - destruct Hin.
  - destruct Hp as [_ Hr _ _]. discriminate.
  - inversion Hc as [C | C P | C P F | C P F I A | C P F I A]; subst;
      unfold pages_request, hook_request in Hin; cbn [In] in Hin;
      repeat match type of Hin with
             | _ \/ _ => destruct Hin as [Hin|Hin]
             | False => destruct Hin
             | EvAllocatePages _ _ = _ => discriminate Hin
             end.
    injection Hin as <- <- <- <- <-. assumption.
  - destruct Hp as [_ Hr _ _]. discriminate.
Qed.

Lemma Traced_prelude init self hist tr :
  idle init -> settings_ok pf init ->
  Traced pf (sane_request pf) init self hist tr ->
  forall ctx b sz ret w,
    In (EvCreateBlockUnwindInfo ctx b sz ret w) tr -> ret <> 0 ->
    0 < roundUp16 w ->
    settled self b (roundUp16 w) /\
    forall r n c, In (r, n, c) hist -> 0 < n ->
                  r + n <= b \/ b + roundUp16 w <= r.
Proof.
  intros Hidle Hset H.
  induction H as [|s h t c r s' t' Htr IH Hok Hc].
  - intros ctx b sz ret w [].
  - pose proof (Traced_Run pf _ _ _ _ _ Htr) as Hrun.
    pose proof (Run_weaken pf _ _ _ _ _ (sane_is_well_behaved pf) Hrun) as Hrun'.
    pose proof (Run_Inv pf init s h Hidle Hset Hrun') as HI.
    pose proof (settings_ok_same pf _ _ (Run_settings _ _ _ _ _ Hrun) Hset)
      as ((k & Hk & Hpk) & HBm & HK & HBr).
    pose proof (sane_is_well_behaved pf _ _ Hok) as Hwb.
    intros ctx b sz ret w Hin Hret Hw.
    apply in_app_or in Hin as [Hin|Hin].
    + destruct (IH ctx b sz ret w Hin Hret Hw) as [Hs Hh].
      split.
      * eapply (settled_step pf k); eassumption.
      * destruct r as [t0|]; [|exact Hh].
        destruct (call_footprint pf k Hk Hpk s h c t0 s' t' HBm HK HBr HI Hok Hc)
          as (pre & pos & page & u & _ & _ & Ht & Hu & Hpos & Hle & _ & _
              & _ & _ & _ & Hfree & _ & _).
        intros r n c0 [E|Hold] Hn; [|now apply (Hh r n c0)].
        subst t0. injection E as <- <- <-.
        destruct Hs as [Hins Hside].
        destruct (Hfree b (roundUp16 w) Hw Hins Hside); lia.
    + destruct r as [t0|];
        [|exfalso; apply Hret; eapply refused_creates_null; eassumption].
      destruct (call_footprint pf k Hk Hpk s h c t0 s' t' HBm HK HBr HI Hok Hc)
        as (pre & pos & page & u & _ & _ & Ht & Hu & Hpos & Hle & _ & _
            & Hbp & Hbe & Hins & Hfree & _ & Hprel).
      destruct (Hprel ctx b sz ret w Hin) as [-> Eu]. rewrite Eu in *.
      pose proof (total_nonneg (call_dataSize c) (call_codeSize c)) as Ht0.
      split.
      * split; [|left; lia].
        destruct Hins as (b' & Hb' & Hlo & Hhi); [lia|].
        exists b'. split; [assumption|]. split; lia.
      * intros r n c0 [E|Hold] Hn.
        -- subst t0. injection E as <- <- <-. right. lia.
        -- destruct HI as [_ _ _ Hh _].
           destruct (Hh r n c0 Hold) as [_ Hrest].
           destruct (Hrest Hn) as (Hin' & Hside' & _).
           destruct (Hfree r n Hn Hin' Hside'); lia.
Qed.

(** X18. The unwind data the create callback wrote at the start of a block
    is never handed out: no byte of it lies in a range a call returned. *)
Theorem unwind_data_is_never_handed_out init self hist tr
    ctx block sz handle written result resultSize resultCodeStart x :
  idle init -> settings_ok pf init ->
  Traced pf (sane_request pf) init self hist tr ->
  In (EvCreateBlockUnwindInfo ctx block sz handle written) tr -> handle <> 0 ->
  In (result, resultSize, resultCodeStart) hist ->
  ~ (block <= x < block + roundUp16 written /\
     result <= x < result + resultSize).
Proof.
  intros Hidle Hset H Hin Hh Hr [H1 H2].
  destruct (Traced_prelude init self hist tr Hidle Hset H
              ctx block sz handle written Hin Hh) as [_ Hd]; [lia|].
  destruct (Hd result resultSize resultCodeStart Hr); lia.
Qed.

End Prelude.

(** ** The further properties at concrete inputs *)

Lemma scenario_settings : settings_ok (scenario_platform true) scenario_allocator.
Proof.
  split; [exists 12; split; [lia|reflexivity]|].
  repeat split; vm_compute; congruence.
Defined.

Lemma S1_well_behaved :
  well_behaved (scenario_platform true) scenario_allocator S1_call.
Proof.
  split; [right; repeat split; try (vm_compute; congruence); intros b' []|].
  repeat split; vm_compute; congruence.
Defined.

Lemma S2_well_behaved : well_behaved (scenario_platform true) after_S1 S2_call.
Proof.
  split; [left; reflexivity|]. repeat split; vm_compute; congruence.
Defined.

Lemma S1_sane : sane_request (scenario_platform true) scenario_allocator S1_call.
Proof. split; [exact S1_well_behaved|]. split; vm_compute; congruence. Defined.

Lemma S2_sane : sane_request (scenario_platform true) after_S1 S2_call.
Proof. split; [exact S2_well_behaved|]. split; vm_compute; congruence. Defined.

Lemma scenario_run :
  Run (scenario_platform true) (well_behaved (scenario_platform true))
    scenario_allocator after_S2 [(69632, 17, 69648); (65536, 17, 65536)].
Proof.
  eapply (Run_allocated _ _ _ after_S1 [(65536, 17, 65536)] S2_call).
  - eapply (Run_allocated _ _ _ scenario_allocator [] S1_call).
    + apply Run_start.
    + exact S1_well_behaved.
    + vm_compute. reflexivity.
  - exact S2_well_behaved.
  - vm_compute. reflexivity.
Defined.

Lemma scenario_traced (ok : CodeAllocator -> Call -> Prop) :
  ok scenario_allocator S1_call -> ok after_S1 S2_call ->
  Traced (scenario_platform true) ok scenario_allocator after_S2
    [(69632, 17, 69648); (65536, 17, 65536)] (S1_trace ++ S2_trace).
Proof.
  intros H1 H2.
  apply (Traced_call _ ok _ after_S1 [(65536, 17, 65536)] S1_trace S2_call
           (Some (69632, 17, 69648)) after_S2 S2_trace).
  - apply (Traced_call _ ok _ scenario_allocator [] [] S1_call
             (Some (65536, 17, 65536)) after_S1 S1_trace).
    + apply Traced_start.
    + exact H1.
    + vm_compute. reflexivity.
  - exact H2.
  - vm_compute. reflexivity.
Defined.

Lemma hooked_traced (ok : CodeAllocator -> Call -> Prop) :
  ok hooked_allocator hooked_call ->
  Traced (scenario_platform true) ok hooked_allocator after_hooked
    [(65584, 1, 65584)] hooked_trace.
Proof.
  intros H.
  apply (Traced_call _ ok _ hooked_allocator [] [] hooked_call
           (Some (65584, 1, 65584)) after_hooked hooked_trace).
  - apply Traced_start.
  - exact H.
  - vm_compute. reflexivity.
Defined.

Lemma hooked_sane :
  sane_request (scenario_platform true) hooked_allocator hooked_call.
Proof.
  split; [|split; vm_compute; congruence].
  split; [right; repeat split; try (vm_compute; congruence); intros b' []|].
  repeat split; vm_compute; congruence.
Defined.

Lemma alignToPageSize_least_multiple_witness :
  4097 <= alignToPageSize (scenario_platform true) 4097 < 4097 + 4096 /\
  alignToPageSize (scenario_platform true) 4097 mod 4096 = 0 /\
  (forall m, 4097 <= m -> m mod 4096 = 0 ->
             alignToPageSize (scenario_platform true) 4097 <= m) /\
  alignToPageSize (scenario_platform true)
    (alignToPageSize (scenario_platform true) 4097)
  = alignToPageSize (scenario_platform true) 4097.
Proof.
  apply (alignToPageSize_least_multiple (scenario_platform true) 12).
  - lia.
  - reflexivity.
  - lia.
  - vm_compute. congruence.
Defined.

Lemma alignToPageSize_wraps_to_zero_witness :
  alignToPageSize (scenario_platform true) (2 ^ 64 - 1) = 0.
Proof.
  apply (alignToPageSize_wraps_to_zero (scenario_platform true) 12).
  - lia.
  - reflexivity.
  - vm_compute. split; reflexivity.
Defined.

Lemma allocate_refuses_exactly_when_witness :
  @None (Z * Z * Z) = None <->
  refusal_reason (scenario_platform true) scenario_allocator
    (friendly_env 65536) 0 (4 * 4096 - 256 + 1).
Proof.
  apply (allocate_refuses_exactly_when (scenario_platform true)
           (friendly_env 65536) [] 0 [] (4 * 4096 - 256 + 1)
           scenario_allocator None scenario_allocator []).
  vm_compute. reflexivity.
Defined.

Lemma constructor_admits_first_block_witness :
  scenario_allocator = fresh 16384 65536 /\
  256 < 16384 <= 65536 /\
  SizeT.sub (blockSize scenario_allocator) 256 = 16384 - 256 /\
  forall ctx create destroy,
    cap_reached (with_hooks scenario_allocator ctx create destroy) = false.
Proof.
  apply (constructor_admits_first_block (scenario_platform true)
           16384 65536 scenario_allocator []).
  - reflexivity.
  - vm_compute. split; [congruence|reflexivity].
  - vm_compute. congruence.
  - vm_compute. reflexivity.
Defined.

Lemma allocate_never_aborts_witness :
  exists r self' tr,
    call (scenario_platform true) S2_call after_S1 = Returned r self' tr.
Proof.
  apply (allocate_never_aborts (scenario_platform true) scenario_allocator
           after_S1 [(65536, 17, 65536)] S2_call).
  - repeat split.
  - exact scenario_settings.
  - eapply (Run_allocated _ _ _ scenario_allocator [] S1_call).
    + apply Run_start.
    + exact S1_sane.
    + vm_compute. reflexivity.
  - exact S2_sane.
  - split; reflexivity.
Defined.

Lemma no_copy_into_executable_pages_witness :
  ~ (65536 <= 69645 < 65536 + 4096 /\ 69645 <= 69645 < 69645 + 3).
Proof.
  apply (no_copy_into_executable_pages (scenario_platform true)
           scenario_allocator after_S2
           [(69632, 17, 69648); (65536, 17, 65536)] (S1_trace ++ S2_trace)
           [EvAllocatePages 16384 65536; EvMemcpy 65536 (repeat x90 17) 17]
           65536 4096
           (EvFlushInstructionCache 65536 17 :: S2_trace)
           69645 [xaa; xaa; xaa] 3 69645).
  - repeat split.
  - exact scenario_settings.
  - exact (scenario_traced _ S1_sane S2_sane).
  - reflexivity.
  - right. left. reflexivity.
Defined.

Lemma blocks_are_the_pages_obtained_witness :
  blocks after_S2 = pages_obtained (S1_trace ++ S2_trace) /\
  unwindInfos after_S2 = handles_obtained (S1_trace ++ S2_trace) /\
  Forall (fun e => is_free e = false /\ is_destroy e = false)
    (S1_trace ++ S2_trace).
Proof.
  apply (blocks_are_the_pages_obtained (scenario_platform true)
           scenario_allocator after_S2
           [(69632, 17, 69648); (65536, 17, 65536)]).
  - repeat split.
  - exact (scenario_traced any_call I I).
Defined.

Lemma teardown_releases_what_was_obtained_witness :
  destructor (scenario_platform true) (fun _ => true) after_hooked
  = Returned tt after_hooked
      (map (EvDestroyBlockUnwindInfo (context hooked_allocator))
         (handles_obtained hooked_trace)
       ++ map (fun b => EvFreePages b (blockSize hooked_allocator))
            (pages_obtained hooked_trace)).
Proof.
  apply (teardown_releases_what_was_obtained (scenario_platform true)
           (fun _ => true) hooked_allocator after_hooked [(65584, 1, 65584)]).
  - repeat split.
  - exact (hooked_traced any_call I).
  - reflexivity.
  - right. intros b _. reflexivity.
Defined.

Lemma data_is_left_padded_witness :
  filter is_memcpy S2_trace
  = [EvMemcpy (69648 - 3) [xaa; xaa; xaa] 3; EvMemcpy 69648 [xc3] 1] /\
  69648 = 69632 + 16 * ((3 + 15) / 16) /\
  69632 <= 69648 - 3 < 69632 + 16 /\
  17 = 16 * ((3 + 15) / 16) + 1.
Proof.
  apply (data_is_left_padded (scenario_platform true) scenario_allocator
           after_S1 [(65536, 17, 65536)] S2_call 69632 17 69648 after_S2
           S2_trace).
  - repeat split.
  - exact scenario_settings.
  - eapply (Run_allocated _ _ _ scenario_allocator [] S1_call).
    + apply Run_start.
    + exact S1_well_behaved.
    + vm_compute. reflexivity.
  - exact S2_sane.
  - vm_compute. reflexivity.
Defined.


Lemma allocations_cost_a_page_each_witness :
  nonempty_count [(69632, 17, 69648); (65536, 17, 65536)] * 4096
    <= consumed after_S2 /\
  consumed after_S2 <= block_count after_S2 * blockSize after_S2 /\
  block_count after_S2 * blockSize after_S2 <= maxTotalSize after_S2.
Proof.
  apply (allocations_cost_a_page_each (scenario_platform true)
           scenario_allocator after_S2).
  - repeat split.
  - exact scenario_settings.
  - repeat split; vm_compute; congruence.
  - exact scenario_run.
Defined.

Lemma cap_refusal_is_final_witness :
  @None (Z * Z * Z) = None /\ after_only_block = after_only_block /\
  @nil Event = [] /\ blocks after_only_block = blocks after_only_block.
Proof.
  apply (cap_refusal_is_final (scenario_platform true) one_block_allocator
           after_only_block [(65536, 17, 65536)] after_only_block
           [] large_call None after_only_block []).
  - repeat split.
  - split; [exists 12; split; [lia|reflexivity]|].
    repeat split; vm_compute; congruence.
  - eapply (Run_allocated _ _ _ one_block_allocator [] S1_call).
    + apply Run_start.
    + split; [right; repeat split; try (vm_compute; congruence);
              intros b' []|].
      repeat split; vm_compute; congruence.
    + vm_compute. reflexivity.
  - reflexivity.
  - apply Run_start.
  - split; [right; split; [reflexivity|]; split; [vm_compute; reflexivity|];
            split; [reflexivity|]; intros b' [<-|[]]; vm_compute; right;
            congruence|].
    repeat split; vm_compute; congruence.
  - vm_compute. reflexivity.
  - vm_compute. reflexivity.
Defined.

Lemma cursor_stays_in_its_block_witness :
  blockPos after_second_block mod 4096 = 0 /\
  blockPos after_second_block <= blockEnd after_second_block
    <= blockPos after_second_block + blockSize after_second_block /\
  remaining after_second_block
  = blockEnd after_second_block - blockPos after_second_block /\
  remaining after_second_block mod 4096 = 0 /\
  ((blocks after_second_block = [] /\ blockPos after_second_block = 0 /\
    blockEnd after_second_block = 0) \/
   (blocks after_second_block <> [] /\
    last (blocks after_second_block) 0 <= blockPos after_second_block /\
    blockEnd after_second_block
    = last (blocks after_second_block) 0 + blockSize after_second_block)) /\
  (forall b, In b (blocks after_second_block) ->
     0 < b /\ b + blockSize after_second_block < SizeT.modulus /\
     b mod 4096 = 0) /\
  (forall b b', In b (blocks after_second_block) ->
                In b' (blocks after_second_block) ->
     b = b' \/ b + blockSize after_second_block <= b' \/
     b' + blockSize after_second_block <= b).
Proof.
  apply (cursor_stays_in_its_block (scenario_platform true)
           scenario_allocator after_second_block
           [(131072, 16000, 131072); (65536, 17, 65536)]).
  - repeat split.
  - exact scenario_settings.
  - eapply (Run_allocated _ _ _ after_S1 [(65536, 17, 65536)] large_call).
    + eapply (Run_allocated _ _ _ scenario_allocator [] S1_call).
      * apply Run_start.
      * exact S1_well_behaved.
      * vm_compute. reflexivity.
    + split; [right; split; [reflexivity|]; split; [vm_compute; reflexivity|];
              split; [reflexivity|]; intros b' [<-|[]]; vm_compute; right;
              congruence|].
      repeat split; vm_compute; congruence.
    + vm_compute. reflexivity.
Defined.

Lemma unwind_infos_pair_with_blocks_witness :
  in_step after_hooked /\
  (createBlockUnwindInfo hooked_allocator = true ->
   combine (blocks after_hooked) (unwindInfos after_hooked)
   = created_for hooked_trace).
Proof.
  apply (unwind_infos_pair_with_blocks (scenario_platform true)
           hooked_allocator after_hooked [(65584, 1, 65584)]).
  - repeat split.
  - apply hooked_traced. vm_compute. congruence.
Defined.

Lemma data_size_near_max_reaches_memcpy_witness :
  exists before after,
    trace_of (allocate (scenario_platform true) (friendly_env 65536)
                [xaa] (2 ^ 64 - 1) [] 0 scenario_allocator)
    = before
      ++ EvMemcpy (SizeT.add 0 (SizeT.modulus - (2 ^ 64 - 1))) [xaa]
           (2 ^ 64 - 1)
      :: after /\
    Forall (fun e => is_request e = true) before.
Proof.
  apply (data_size_near_max_reaches_memcpy (scenario_platform true)
           (friendly_env 65536) [xaa] (2 ^ 64 - 1) [] 0 scenario_allocator
           (0, 0, 0) scenario_allocator
           [EvMakePagesExecutable 0 0; EvFlushInstructionCache 0 0]).
  - vm_compute. split; [congruence|reflexivity].
  - vm_compute. reflexivity.
Defined.

Lemma refused_call_only_asks_witness :
  Forall (fun e => is_request e = true) [] /\
  (length (@nil Event) <= 2)%nat /\
  (scenario_allocator = scenario_allocator \/
   (hook_info (friendly_env 65536) = 0 /\
    [] = [pages_request (scenario_platform true) scenario_allocator
            (friendly_env 65536);
          hook_request scenario_allocator (friendly_env 65536)] /\
    scenario_allocator
    = on_new_block scenario_allocator (os_pages (friendly_env 65536)))).
Proof.
  apply (refused_call_only_asks (scenario_platform true) (friendly_env 65536)
           [] 0 [] (4 * 4096 - 256 + 1)).
  vm_compute. reflexivity.
Defined.

Lemma unwind_data_is_never_handed_out_witness :
  ~ (65536 <= 65540 < 65536 + roundUp16 40 /\ 65584 <= 65540 < 65584 + 1).
Proof.
  apply (unwind_data_is_never_handed_out (scenario_platform true)
           hooked_allocator after_hooked [(65584, 1, 65584)] hooked_trace
           7 65536 16384 99 40 65584 1 65584 65540).
  - repeat split.
  - split; [exists 12; split; [lia|reflexivity]|].
    repeat split; vm_compute; congruence.
  - exact (hooked_traced _ hooked_sane).
  - right. left. reflexivity.
  - discriminate.
  - left. reflexivity.
Defined.
